(** * The 2048 board engine of [Twenty.py]

    A shallow embedding of the classes [Twenty] and [Block] of
    [src/2048/Twenty.py], followed by the properties of the engine.

    Conventions of the embedding.
    - Python integers stored in cells and blocks are [Z]; row and column
      indices, which the code only ever produces from [range] and guards with
      [r > 0], [r < 3], are [nat].
    - A Python exception is a [Raise] result.  Indexing a list out of range
      raises [IndexError]; [getBlock] raises [ValueError]; [random.choice] on
      an empty sequence raises [IndexError].
    - The [while] loops are run with fuel; [OutOfFuel] is the result of a
      loop that was not given enough, and [slide_total] shows that the fuel
      supplied by [process_cell] always suffices.
    - The objects in [self.blocks] are mutated in place by the code.  Every
      mutation goes through [getBlock], which returns the first block of the
      list at a position, so the embedding rewrites that element of the list.
    - The drawing attributes of a block ([rect], [dx], [dy], [dt]) and the
      [GLabel] built by [spawn_block] belong to modules ([game2d], [consts])
      that are not part of the engine; they are left out. *)

From Stdlib Require Import ZArith List String Ascii Bool Arith Lia Relations.
From Stdlib Require Import Permutation DecimalString.
Import ListNotations.
Open Scope nat_scope.

(** ** Results and exceptions *)

Inductive exn : Type :=
| ValueError
| IndexError.

Inductive result (A : Type) : Type :=
| Ok (a : A)
| Raise (e : exn)
| OutOfFuel.

Arguments Ok {A} a.
Arguments Raise {A} e.
Arguments OutOfFuel {A}.

Definition bind {A B : Type} (m : result A) (k : A -> result B) : result B :=
  match m with
  | Ok a => k a
  | Raise e => Raise e
  | OutOfFuel => OutOfFuel
  end.

Notation "x <- m ;; k" := (bind m (fun x => k))
  (at level 61, m at next level, right associativity).
Notation "' pat <- m ;; k" := (bind m (fun x => match x with pat => k end))
  (at level 61, pat pattern, m at next level, right associativity).

(** ** class Block *)

Module Block.

(** [doubles] is a ghost field: the number of times [double] has run on the
    object.  The source has no such attribute and nothing reads it; it lets
    the properties speak about calls of [double]. *)
Record t : Type := mk {
  row : nat;
  col : nat;
  val : Z;
  pulsing : bool;
  maxpulse : bool;
  doubles : nat
}.

(** [Block.__init__(row, col, value)] *)
Definition init (r c : nat) (value : Z) : t :=
  mk r c value false false 0.

(** [Block.move(newrow, newcol)] *)
Definition move (newrow newcol : nat) (b : t) : t :=
  mk newrow newcol (val b) (pulsing b) (maxpulse b) (doubles b).

(** [Block.double()]: [self.val *= 2] *)
Definition double (b : t) : t :=
  mk (row b) (col b) (val b * 2) (pulsing b) (maxpulse b) (S (doubles b)).

(** [Block.pulse()] *)
Definition pulse (b : t) : t :=
  mk (row b) (col b) (val b) true false (doubles b).

(** The test of [getBlock]: [row == block.get_row() and col == block.get_col()] *)
Definition at_pos (r c : nat) (b : t) : bool :=
  (r =? row b) && (c =? col b).

Definition pos (b : t) : nat * nat := (row b, col b).

End Block.

(** ** The grid *)

(** [playGrid]: a list of rows. *)
Definition Grid : Type := list (list Z).

(** [l[i] = x] on a Python list; [None] when [i] is out of range. *)
Fixpoint list_set {A : Type} (l : list A) (i : nat) (x : A) : option (list A) :=
  match l, i with
  | [], _ => None
  | _ :: t, 0 => Some (x :: t)
  | h :: t, S i' =>
      match list_set t i' x with
      | Some t' => Some (h :: t')
      | None => None
      end
  end.

(** [self.playGrid[r][c]] *)
Definition grid_get (g : Grid) (r c : nat) : result Z :=
  match nth_error g r with
  | None => Raise IndexError
  | Some line =>
      match nth_error line c with
      | None => Raise IndexError
      | Some v => Ok v
      end
  end.

(** [self.playGrid[r][c] = v] *)
Definition grid_set (g : Grid) (r c : nat) (v : Z) : result Grid :=
  match nth_error g r with
  | None => Raise IndexError
  | Some line =>
      match list_set line c v with
      | None => Raise IndexError
      | Some line' =>
          match list_set g r line' with
          | None => Raise IndexError
          | Some g' => Ok g'
          end
      end
  end.

(** [old_grid != self.playGrid] compares the two lists of lists element by
    element; [grid_eqb] is the equality it negates. *)
Fixpoint line_eqb (l1 l2 : list Z) : bool :=
  match l1, l2 with
  | [], [] => true
  | x :: t1, y :: t2 => (x =? y)%Z && line_eqb t1 t2
  | _, _ => false
  end.

Fixpoint grid_eqb (g1 g2 : Grid) : bool :=
  match g1, g2 with
  | [], [] => true
  | l1 :: t1, l2 :: t2 => line_eqb l1 l2 && grid_eqb t1 t2
  | _, _ => false
  end.

(** ** class Twenty *)

Record Twenty : Type := mkTwenty {
  blocks : list Block.t;
  playGrid : Grid;
  pressed : list string
}.

(** [SPAWNABLE = (2,4)] *)
Definition SPAWNABLE : list Z := [2%Z; 4%Z].

(** [random.choice(seq)]: [IndexError] on an empty sequence, otherwise the
    element at an index below [len(seq)].  The raw draw [d] comes from the
    caller and is reduced modulo the length. *)
Definition choice {A : Type} (seq : list A) (d : nat) : result A :=
  match nth_error seq (d mod List.length seq) with
  | Some x => Ok x
  | None => Raise IndexError
  end.

(** [Twenty.getBlock(row, col)] *)
Definition getBlock (bs : list Block.t) (r c : nat) : result Block.t :=
  match find (Block.at_pos r c) bs with
  | Some b => Ok b
  | None => Raise ValueError
  end.

(** The list after the first block satisfying [p] has been mutated by [f]. *)
Fixpoint mutate_first (f : Block.t -> Block.t) (p : Block.t -> bool)
    (bs : list Block.t) : list Block.t :=
  match bs with
  | [] => []
  | b :: t => if p b then f b :: t else b :: mutate_first f p t
  end.

(** The list without the first block satisfying [p]. *)
Fixpoint remove_first (p : Block.t -> bool) (bs : list Block.t) : list Block.t :=
  match bs with
  | [] => []
  | b :: t => if p b then t else b :: remove_first p t
  end.

(** [self.getBlock(r, c).m()] for a mutating method [m] of [Block]. *)
Definition on_block (f : Block.t -> Block.t) (bs : list Block.t) (r c : nat)
  : result (list Block.t) :=
  _ <- getBlock bs r c ;;
  Ok (mutate_first f (Block.at_pos r c) bs).

(** [self.removeBlock(self.getBlock(r, c))]: [list.remove] drops the first
    element identical to the block found, which is the first block at
    [(r, c)]. *)
Definition removeBlock (bs : list Block.t) (r c : nat) : result (list Block.t) :=
  _ <- getBlock bs r c ;;
  Ok (remove_first (Block.at_pos r c) bs).

(** The two nested [for] loops of [spawn_block] collecting the empty cells. *)
Fixpoint scan_empty (g : Grid) (cells : list (nat * nat)) (acc : list (nat * nat))
  : result (list (nat * nat)) :=
  match cells with
  | [] => Ok acc
  | (r, c) :: rest =>
      v <- grid_get g r c ;;
      scan_empty g rest (if (v =? 0)%Z then acc ++ [(r, c)] else acc)
  end.

(** The cells in the order of [for row in range(4): for col in range(4)]. *)
Definition all_cells : list (nat * nat) := list_prod (seq 0 4) (seq 0 4).

(** [Twenty.spawn_block()]; [dv] and [dl] are the draws of the two calls of
    [random.choice]. *)
Definition spawn_block (st : Twenty) (dv dl : nat) : result Twenty :=
  value <- choice SPAWNABLE dv ;;
  acc <- scan_empty (playGrid st) all_cells [] ;;
  new_location <- choice acc dl ;;
  g <- grid_set (playGrid st) (fst new_location) (snd new_location) value ;;
  Ok (mkTwenty
        (blocks st ++ [Block.init (fst new_location) (snd new_location) value])
        g (pressed st)).

(** [Twenty.__init__()] *)
Definition init (dv1 dl1 dv2 dl2 : nat) : result Twenty :=
  let st0 :=
    mkTwenty []
      [[0; 0; 0; 0]; [0; 0; 0; 0]; [0; 0; 0; 0]; [0; 0; 0; 0]]%Z [] in
  st1 <- spawn_block st0 dv1 dl1 ;;
  spawn_block st1 dv2 dl2.

(** *** The four sweeps of [move]

    The four branches of [move] have the same text up to the guard of the
    loops and the neighbour they look at; [ahead] gives both. *)

Inductive direction : Type := Up | Down | Right | Left.

(** The guard ([r > 0], [r < 3], [c < 3], [c > 0]) and the neighbour
    ([r-1,c], [r+1,c], [r,c+1], [r,c-1]). *)
Definition ahead (d : direction) (r c : nat) : option (nat * nat) :=
  match d with
  | Up => if 0 <? r then Some (r - 1, c) else None
  | Down => if r <? 3 then Some (r + 1, c) else None
  | Right => if c <? 3 then Some (r, c + 1) else None
  | Left => if 0 <? c then Some (r, c - 1) else None
  end.

(** The cells visited by the two [for] loops of each branch, in order. *)
Definition sweep_cells (d : direction) : list (nat * nat) :=
  match d with
  | Up => list_prod [1; 2; 3] [0; 1; 2; 3]
  | Down => list_prod [2; 1; 0] [0; 1; 2; 3]
  | Right => list_prod [0; 1; 2; 3] [2; 1; 0]
  | Left => list_prod [0; 1; 2; 3] [1; 2; 3]
  end.

(** Body of the [while] loop: the value moves to the neighbour, the cell is
    cleared, the block follows. *)
Definition slide_step (st : Twenty) (r c r' c' : nat) : result Twenty :=
  v <- grid_get (playGrid st) r c ;;
  g1 <- grid_set (playGrid st) r' c' v ;;
  g2 <- grid_set g1 r c 0%Z ;;
  bs <- on_block (Block.move r' c') (blocks st) r c ;;
  Ok (mkTwenty bs g2 (pressed st)).

(** The [while] loop; returns the state and the final [r], [c]. *)
Fixpoint slide (fuel : nat) (d : direction) (st : Twenty) (r c : nat)
  : result (Twenty * nat * nat) :=
  match ahead d r c with
  | None => Ok (st, r, c)
  | Some (r', c') =>
      v' <- grid_get (playGrid st) r' c' ;;
      if (v' =? 0)%Z then
        match fuel with
        | 0 => OutOfFuel
        | S fuel' =>
            st' <- slide_step st r c r' c' ;;
            slide fuel' d st' r' c'
        end
      else Ok (st, r, c)
  end.

(** Body of the [if] after the loop: the neighbour is doubled, the cell is
    cleared, the neighbour's block doubles and pulses, the block of the cell
    is removed. *)
Definition merge_step (st : Twenty) (r c r' c' : nat) : result Twenty :=
  v' <- grid_get (playGrid st) r' c' ;;
  g1 <- grid_set (playGrid st) r' c' (v' * 2)%Z ;;
  g2 <- grid_set g1 r c 0%Z ;;
  bs1 <- on_block Block.double (blocks st) r' c' ;;
  bs2 <- on_block Block.pulse bs1 r' c' ;;
  bs3 <- removeBlock bs2 r c ;;
  Ok (mkTwenty bs3 g2 (pressed st)).

(** Number of cells between [(r, c)] and the edge the sweep moves to. *)
Definition dist (d : direction) (r c : nat) : nat :=
  match d with
  | Up => r
  | Down => 3 - r
  | Right => 3 - c
  | Left => c
  end.

(** Body of the inner [for] loop. *)
Definition process_cell (d : direction) (st : Twenty) (cell : nat * nat)
  : result Twenty :=
  let '(r0, c0) := cell in
  v <- grid_get (playGrid st) r0 c0 ;;
  if (v =? 0)%Z then Ok st
  else
    '(st1, r, c) <- slide (dist d r0 c0) d st r0 c0 ;;
    match ahead d r c with
    | None => Ok st1
    | Some (r', c') =>
        a <- grid_get (playGrid st1) r' c' ;;
        b <- grid_get (playGrid st1) r c ;;
        if (a =? b)%Z then merge_step st1 r c r' c' else Ok st1
    end.

(** The two nested [for] loops of a branch of [move], over the cells in
    the order of [sweep_cells]. *)
Fixpoint for_each (d : direction) (cells : list (nat * nat)) (st : Twenty)
  : result Twenty :=
  match cells with
  | [] => Ok st
  | cell :: rest =>
      st' <- process_cell d st cell ;;
      for_each d rest st'
  end.

(** One branch of [move]. *)
Definition sweep (d : direction) (st : Twenty) : result Twenty :=
  for_each d (sweep_cells d) st.

(** The four [if direction == ...] blocks of [move], in the order of the
    source, before the comparison with [old_grid]. *)
Definition sweeps (direction : string) (st : Twenty) : result Twenty :=
  st <- (if (direction =? "up")%string then sweep Up st else Ok st) ;;
  st <- (if (direction =? "down")%string then sweep Down st else Ok st) ;;
  st <- (if (direction =? "right")%string then sweep Right st else Ok st) ;;
  (if (direction =? "left")%string then sweep Left st else Ok st).

(** [Twenty.move(direction)] *)
Definition move (direction : string) (st : Twenty) (dv dl : nat) : result Twenty :=
  let old_grid := playGrid st in
  st' <- sweeps direction st ;;
  if negb (grid_eqb old_grid (playGrid st')) then spawn_block st' dv dl
  else Ok st'.

(** ** Concrete boards used below *)

(** A block as [spawn_block] creates it. *)
Definition blk (r c : nat) (v : Z) : Block.t := Block.init r c v.

(** Scenario B of the specification in row 0, the other rows empty. *)
Definition stB : Twenty :=
  mkTwenty [blk 0 0 2; blk 0 2 2; blk 0 3 4]
    [[2; 0; 2; 4]; [0; 0; 0; 0]; [0; 0; 0; 0]; [0; 0; 0; 0]]%Z [].

(** ** Shape of the grid and measures on it *)

(** A grid as [__init__] builds it: four rows of four cells. *)
Definition shape (g : Grid) : Prop :=
  List.length g = 4 /\ Forall (fun line => List.length line = 4) g.

(** The value of a cell, [0] outside the grid. *)
Definition cell (g : Grid) (r c : nat) : Z := nth c (nth r g []) 0%Z.

(** Sum of a list of integers. *)
Fixpoint zsum (l : list Z) : Z :=
  match l with
  | [] => 0%Z
  | x :: t => (x + zsum t)%Z
  end.

(** Sum of all the cells of the grid. *)
Definition grid_sum (g : Grid) : Z := zsum (map zsum g).

(** Sum over the sixteen cells of a quantity that depends on the position
    and on the value of the cell. *)
Definition csum (F : nat -> nat -> Z -> Z) (g : Grid) : Z :=
  zsum (map (fun rc => F (fst rc) (snd rc) (cell g (fst rc) (snd rc))) all_cells).

(** A tile in a cell weighs one more than its distance to the edge the sweep
    moves to: sliding and merging both make the total weight smaller. *)
Definition weight (d : direction) (r c : nat) (v : Z) : Z :=
  if (v =? 0)%Z then 0%Z else Z.of_nat (S (dist d r c)).

(** Total weight of the tiles of a grid for a sweep in direction [d]. *)
Definition potential (d : direction) (g : Grid) : Z := csum (weight d) g.

(** The grid has an empty cell. *)
Definition has_empty (g : Grid) : Prop :=
  exists r c, r < 4 /\ c < 4 /\ cell g r c = 0%Z.

(** ** The invariant *)

(** The block-wise reading of a mutation through [getBlock]. *)
Definition upd (f : Block.t -> Block.t) (r c : nat) (b : Block.t) : Block.t :=
  if Block.at_pos r c b then f b else b.

(** The registered blocks with row [r], column [c] and value [v]. *)
Definition tiles_at (bs : list Block.t) (r c : nat) (v : Z) : list Block.t :=
  filter (fun b => Block.at_pos r c b && (Block.val b =? v)%Z) bs.

(** The consistency invariant: the grid is 4 by 4, every registered block
    lies on it with a non-zero value, a cell holds a non-zero [v] exactly
    when one registered block has that row, column and value, and no two
    registered blocks share a position. *)
Definition consistent (st : Twenty) : Prop :=
  shape (playGrid st) /\
  Forall (fun b => Block.row b < 4 /\ Block.col b < 4 /\ Block.val b <> 0%Z)
         (blocks st) /\
  (forall r c v, r < 4 -> c < 4 -> v <> 0%Z ->
     (cell (playGrid st) r c = v <->
      List.length (tiles_at (blocks st) r c v) = 1)) /\
  (forall r c, List.length (filter (Block.at_pos r c) (blocks st)) <= 1).

(** The same invariant in the form the proofs use. *)
Record wf (st : Twenty) : Prop := mk_wf {
  wf_shape : shape (playGrid st);
  wf_nodup : NoDup (map Block.pos (blocks st));
  wf_block : forall b, In b (blocks st) ->
    Block.row b < 4 /\ Block.col b < 4 /\ Block.val b <> 0%Z /\
    cell (playGrid st) (Block.row b) (Block.col b) = Block.val b;
  wf_cell : forall r c, r < 4 -> c < 4 -> cell (playGrid st) r c <> 0%Z ->
    In (r, c) (map Block.pos (blocks st))
}.

(** ** Elementary steps of a sweep *)

(** The line a sweep works in: a column for [Up] and [Down], a row for
    [Right] and [Left]. *)
Definition line (d : direction) (r c : nat) : nat :=
  match d with
  | Up | Down => c
  | Right | Left => r
  end.

(** One pass through the body of the [while] loop, at a cell of line [l]
    that holds a tile and has an empty neighbour ahead. *)
Inductive slide1 (d : direction) (l : nat) (st st' : Twenty) : Prop :=
| slide1_intro (r c r' c' : nat)
    (Hr : r < 4) (Hc : c < 4) (Hl : line d r c = l)
    (Ha : ahead d r c = Some (r', c'))
    (Hv : cell (playGrid st) r c <> 0%Z)
    (Hz : cell (playGrid st) r' c' = 0%Z)
    (Hs : slide_step st r c r' c' = Ok st').

(** One pass through the body of the [if] after the loop, at a cell of line
    [l] whose tile equals the tile of the neighbour ahead. *)
Inductive merge1 (d : direction) (l : nat) (st st' : Twenty) : Prop :=
| merge1_intro (r c r' c' : nat)
    (Hr : r < 4) (Hc : c < 4) (Hl : line d r c = l)
    (Ha : ahead d r c = Some (r', c'))
    (Hv : cell (playGrid st) r c <> 0%Z)
    (He : cell (playGrid st) r' c' = cell (playGrid st) r c)
    (Hs : merge_step st r c r' c' = Ok st').

(** One elementary change of the state during a sweep in direction [d]. *)
Inductive step (d : direction) (st st' : Twenty) : Prop :=
| step_slide (l : nat) (H : slide1 d l st st')
| step_merge (l : nat) (H : merge1 d l st st').

(** Any number of elementary steps. *)
Definition steps (d : direction) : Twenty -> Twenty -> Prop :=
  clos_refl_trans Twenty (step d).

(** ** Counting the calls of [double] *)

(** The line a block lies in. *)
Definition line_of (d : direction) (b : Block.t) : nat :=
  line d (Block.row b) (Block.col b).

(** Every block of [bs'] comes from a block of [bs] in the same line, and
    [double] ran on it at most [k] times more, [k] depending on the line. *)
Definition descends (d : direction) (k : nat -> nat) (bs bs' : list Block.t)
  : Prop :=
  forall b', In b' bs' ->
    exists b, In b bs /\ line_of d b' = line_of d b /\
              Block.doubles b' <= Block.doubles b + k (line_of d b).

(** One unit for the line [l], nothing for the others. *)
Definition once (l : nat) (x : nat) : nat := if x =? l then 1 else 0.

(** The cells of [cells] that lie in line [x]. *)
Definition cells_in_line (d : direction) (cells : list (nat * nat)) (x : nat)
  : nat :=
  List.length (filter (fun p => line d (fst p) (snd p) =? x) cells).

(** ** Cells, directions, empty cells *)

(** The position lies on the 4 by 4 grid. *)
Definition in_grid (p : nat * nat) : Prop := fst p < 4 /\ snd p < 4.

(** The directions [move] knows: the tuple [moves] of [check_for_moves]. *)
Definition valid_direction (s : string) : Prop :=
  In s ["up"; "down"; "left"; "right"]%string.

(** The branch of [move] that a direction string selects, if any. *)
Definition direction_of (s : string) : option direction :=
  if (s =? "up")%string then Some Up
  else if (s =? "down")%string then Some Down
  else if (s =? "right")%string then Some Right
  else if (s =? "left")%string then Some Left
  else None.

(** The empty cells, in the order [spawn_block] collects them. *)
Definition empties (g : Grid) : list (nat * nat) :=
  filter (fun p => (cell g (fst p) (snd p) =? 0)%Z) all_cells.

(** ** A decision procedure for the invariant *)

(** No position occurs twice. *)
Fixpoint nodupb (l : list (nat * nat)) : bool :=
  match l with
  | [] => true
  | p :: t =>
      negb (existsb (fun q => (fst q =? fst p) && (snd q =? snd p)) t)
      && nodupb t
  end.

(** Checks the invariant: shape, distinct positions, every block on the
    grid with the value of its cell, every non-empty cell with a block. *)
Definition wf_check (st : Twenty) : bool :=
  (List.length (playGrid st) =? 4)
  && forallb (fun l => List.length l =? 4) (playGrid st)
  && nodupb (map Block.pos (blocks st))
  && forallb (fun b =>
       (Block.row b <? 4) && (Block.col b <? 4)
       && negb (Block.val b =? 0)%Z
       && (cell (playGrid st) (Block.row b) (Block.col b) =? Block.val b)%Z)
       (blocks st)
  && forallb (fun p =>
       (cell (playGrid st) (fst p) (snd p) =? 0)%Z
       || existsb (Block.at_pos (fst p) (snd p)) (blocks st))
       all_cells.

(** ** More boards *)

(** A board on which moving left changes nothing. *)
Definition stN : Twenty :=
  mkTwenty [blk 0 0 2; blk 0 1 4]
    [[2; 4; 0; 0]; [0; 0; 0; 0]; [0; 0; 0; 0]; [0; 0; 0; 0]]%Z [].

(** The board of scenario B after the sweep to the left. *)
Definition stB_left : Twenty :=
  mkTwenty [Block.mk 0 0 8 true false 2]
    [[8; 0; 0; 0]; [0; 0; 0; 0]; [0; 0; 0; 0]; [0; 0; 0; 0]]%Z [].

(** Scenario A of the specification in row 0. *)
Definition stA : Twenty :=
  mkTwenty [blk 0 0 2; blk 0 1 2]
    [[2; 2; 0; 0]; [0; 0; 0; 0]; [0; 0; 0; 0]; [0; 0; 0; 0]]%Z [].

(** Scenario C of the specification: a full board without equal
    neighbours. *)
Definition stC : Twenty :=
  mkTwenty
    [blk 0 0 2; blk 0 1 4; blk 0 2 2; blk 0 3 4;
     blk 1 0 4; blk 1 1 2; blk 1 2 4; blk 1 3 2;
     blk 2 0 2; blk 2 1 4; blk 2 2 2; blk 2 3 4;
     blk 3 0 4; blk 3 1 2; blk 3 2 4; blk 3 3 2]
    [[2; 4; 2; 4]; [4; 2; 4; 2]; [2; 4; 2; 4]; [4; 2; 4; 2]]%Z [].

(** Column 1 holds 4, 2, empty, 2 from top to bottom. *)
Definition stD : Twenty :=
  mkTwenty [blk 0 1 4; blk 1 1 2; blk 3 1 2]
    [[0; 4; 0; 0]; [0; 2; 0; 0]; [0; 0; 0; 0]; [0; 2; 0; 0]]%Z [].

(** The state of [__init__] before its two spawns. *)
Definition st0 : Twenty :=
  mkTwenty []
    [[0; 0; 0; 0]; [0; 0; 0; 0]; [0; 0; 0; 0]; [0; 0; 0; 0]]%Z [].

(** The state [spawn_block] is expected to return when it puts the value
    [v] into the cell [(r, c)]: the grid [g'] and one more block. *)
Definition spawned (st : Twenty) (r c : nat) (v : Z) (g' : Grid) : Twenty :=
  mkTwenty (blocks st ++ [Block.init r c v]) g' (pressed st).

(** ** The grid alone

    The grid component of the sweep: the code of [move] with the operations
    on [self.blocks] left out.  Whenever the sweep returns, its grid is the
    one computed here. *)

(** Grid part of [slide_step]. *)
Definition gslide_step (g : Grid) (r c r' c' : nat) : result Grid :=
  v <- grid_get g r c ;;
  g1 <- grid_set g r' c' v ;;
  grid_set g1 r c 0%Z.

(** Grid part of [slide]. *)
Fixpoint gslide (fuel : nat) (d : direction) (g : Grid) (r c : nat)
  : result (Grid * nat * nat) :=
  match ahead d r c with
  | None => Ok (g, r, c)
  | Some (r', c') =>
      v' <- grid_get g r' c' ;;
      if (v' =? 0)%Z then
        match fuel with
        | 0 => OutOfFuel
        | S fuel' =>
            g' <- gslide_step g r c r' c' ;;
            gslide fuel' d g' r' c'
        end
      else Ok (g, r, c)
  end.

(** Grid part of [merge_step]. *)
Definition gmerge_step (g : Grid) (r c r' c' : nat) : result Grid :=
  v' <- grid_get g r' c' ;;
  g1 <- grid_set g r' c' (v' * 2)%Z ;;
  grid_set g1 r c 0%Z.

(** Grid part of [process_cell]. *)
Definition gprocess (d : direction) (g : Grid) (cell : nat * nat) : result Grid :=
  let '(r0, c0) := cell in
  v <- grid_get g r0 c0 ;;
  if (v =? 0)%Z then Ok g
  else
    '(g1, r, c) <- gslide (dist d r0 c0) d g r0 c0 ;;
    match ahead d r c with
    | None => Ok g1
    | Some (r', c') =>
        a <- grid_get g1 r' c' ;;
        b <- grid_get g1 r c ;;
        if (a =? b)%Z then gmerge_step g1 r c r' c' else Ok g1
    end.

(** Grid part of [for_each]. *)
Fixpoint gfor_each (d : direction) (cells : list (nat * nat)) (g : Grid)
  : result Grid :=
  match cells with
  | [] => Ok g
  | cell :: rest =>
      g' <- gprocess d g cell ;;
      gfor_each d rest g'
  end.

(** ** Calls of [double] in one move *)

(** No block has been doubled yet: the counters start at the call. *)
Definition undoubled (st : Twenty) : Prop :=
  Forall (fun b => Block.doubles b = 0) (blocks st).

(** ** Tiles that can move *)

(** Some tile has, directly ahead of it in direction [d], an empty cell or a
    tile of the same value. *)
Definition movable (d : direction) (g : Grid) : Prop :=
  exists r c r' c',
    r < 4 /\ c < 4 /\ cell g r c <> 0%Z /\ ahead d r c = Some (r', c') /\
    (cell g r' c' = 0%Z \/ cell g r' c' = cell g r c).

(** The same, decided. *)
Definition movableb (d : direction) (g : Grid) : bool :=
  existsb (fun p =>
    negb (cell g (fst p) (snd p) =? 0)%Z &&
    match ahead d (fst p) (snd p) with
    | Some t =>
        (cell g (fst t) (snd t) =? 0)%Z
        || (cell g (fst t) (snd t) =? cell g (fst p) (snd p))%Z
    | None => false
    end) all_cells.

(** No tile has an empty cell directly ahead of it in direction [d]. *)
Definition packed (d : direction) (g : Grid) : Prop :=
  forall r c r' c',
    r < 4 -> c < 4 -> cell g r c <> 0%Z -> ahead d r c = Some (r', c') ->
    cell g r' c' <> 0%Z.

(** The board is stuck: no empty cell, and no cell holds the value of the
    cell ahead of it in any direction. *)
Definition stuck (g : Grid) : Prop :=
  ~ has_empty g /\
  forall d r c r' c',
    r < 4 -> c < 4 -> ahead d r c = Some (r', c') ->
    cell g r' c' <> cell g r c.

(** Membership of a position in a list of positions. *)
Definition memc (p : nat * nat) (l : list (nat * nat)) : bool :=
  existsb (fun q => (fst q =? fst p) && (snd q =? snd p)) l.

(** The position has no neighbour ahead. *)
Definition at_edge (d : direction) (p : nat * nat) : bool :=
  match ahead d (fst p) (snd p) with
  | None => true
  | Some _ => false
  end.

(** The cells of [todo] lie on the grid, none was visited before, and each
    is visited after the cell ahead of it. *)
Fixpoint orderedb (d : direction) (done todo : list (nat * nat)) : bool :=
  match todo with
  | [] => true
  | p :: rest =>
      match ahead d (fst p) (snd p) with
      | None => false
      | Some t =>
          (memc t done || at_edge d t) && negb (memc p done)
          && (fst p <? 4) && (snd p <? 4)
          && orderedb d (done ++ [p]) rest
      end
  end.

(** No tile in one of [cells] has an empty cell ahead of it. *)
Definition settled (d : direction) (cells : list (nat * nat)) (g : Grid) : Prop :=
  forall r c, In (r, c) cells -> cell g r c <> 0%Z ->
  forall r' c', ahead d r c = Some (r', c') -> cell g r' c' <> 0%Z.

(** The cell ahead of a cell of [cells] is in [cells] or on the edge. *)
Definition ahead_closed (d : direction) (cells : list (nat * nat)) : Prop :=
  forall r c, In (r, c) cells ->
  forall r' c', ahead d r c = Some (r', c') ->
    In (r', c') cells \/ ahead d r' c' = None.

(** ** Values and flags of the tiles *)

(** A tile value of the game: 2, 4, 8, ... *)
Definition tile_value (v : Z) : Prop :=
  exists k : nat, v = (2 * 2 ^ Z.of_nat k)%Z.

(** Every registered block has a value satisfying [P]. *)
Definition tiles_are (P : Z -> Prop) (st : Twenty) : Prop :=
  Forall (fun b => P (Block.val b)) (blocks st).

(** The non-empty cells. *)
Definition occupied (g : Grid) : list (nat * nat) :=
  filter (fun p => negb (cell g (fst p) (snd p) =? 0)%Z) all_cells.

(** A block pulses exactly when [double] has run on it, and then [maxpulse]
    is off, as [pulse] leaves it. *)
Definition pulse_flagged (b : Block.t) : Prop :=
  (Block.pulsing b = true <-> 0 < Block.doubles b) /\
  (Block.pulsing b = true -> Block.maxpulse b = false).

(** No block pulses and none has been doubled: the state before a move once
    the animation of the previous one is over. *)
Definition at_rest (st : Twenty) : Prop :=
  Forall (fun b => Block.doubles b = 0 /\ Block.pulsing b = false) (blocks st).

(** ** [print_grid], [check_for_moves] and [update] *)

(** [str(element)] for an integer: its decimal writing. *)
Definition str_int (z : Z) : string := NilZero.string_of_int (Z.to_int z).

(** [' ' * n]; the count is a natural number, so that a negative count of
    Python gives the empty string. *)
Fixpoint spaces (n : nat) : string :=
  match n with
  | 0 => EmptyString
  | S k => String " "%char (spaces k)
  end.

(** What one pass of the inner loop of [print_grid] adds to [rowStr]: an
    empty cell is shown as a blank. *)
Definition cell_text (element : Z) : string :=
  let text := if (element =? 0)%Z then " "%string else str_int element in
  ("|   " ++ text ++ spaces (4 - String.length text))%string.

(** The inner loop of [print_grid]. *)
Fixpoint row_text (row : list Z) (rowStr : string) : string :=
  match row with
  | [] => rowStr
  | element :: rest => row_text rest (rowStr ++ cell_text element)%string
  end.

(** The two constant lines of [print_grid]. *)
Definition border : string := " ------- ------- ------- -------".

Definition blank : string := "|       |       |       |       |".

(** The outer loop of [print_grid]: four lines for each row. *)
Fixpoint print_rows (g : Grid) : list string :=
  match g with
  | [] => []
  | row :: rest =>
      [border; blank; (row_text row "" ++ "|")%string; blank] ++ print_rows rest
  end.

(** [Twenty.print_grid()]: the lines printed, in order. *)
Definition print_grid (st : Twenty) : list string :=
  print_rows (playGrid st) ++ [border].

(** [x in l] on a list of strings. *)
Definition mem_str (s : string) (l : list string) : bool :=
  existsb (String.eqb s) l.

(** [l.remove(x)]: drops the first occurrence, [ValueError] without one. *)
Fixpoint list_remove (s : string) (l : list string) : result (list string) :=
  match l with
  | [] => Raise ValueError
  | x :: t =>
      if (s =? x)%string then Ok t
      else t' <- list_remove s t ;; Ok (x :: t')
  end.

(** The state with [self.pressed] replaced. *)
Definition with_pressed (st : Twenty) (p : list string) : Twenty :=
  mkTwenty (blocks st) (playGrid st) p.

(** The loop of [check_for_moves] over the tuple [moves].  [is_key_down] is
    the method of the input object, which belongs to [game2d]: it is taken
    as a function of the key, the same for the whole call.  [rnd] gives the
    two random draws of the move made in a direction.  The result is the
    state and the lines printed. *)
Fixpoint check_loop (is_key_down : string -> bool) (rnd : string -> nat * nat)
    (moves : list string) (st : Twenty) (out : list string)
  : result (Twenty * list string) :=
  match moves with
  | [] => Ok (st, out)
  | direction :: rest =>
      if is_key_down direction && negb (mem_str direction (pressed st)) then
        st1 <- move direction st (fst (rnd direction)) (snd (rnd direction)) ;;
        check_loop is_key_down rnd rest
          (with_pressed st1 (pressed st1 ++ [direction]))
          (out ++ print_grid st1)
      else if negb (is_key_down direction) && mem_str direction (pressed st) then
        p <- list_remove direction (pressed st) ;;
        check_loop is_key_down rnd rest (with_pressed st p) out
      else check_loop is_key_down rnd rest st out
  end.

(** [Twenty.check_for_moves(theInput)] *)
Definition check_for_moves (is_key_down : string -> bool)
    (rnd : string -> nat * nat) (st : Twenty) : result (Twenty * list string) :=
  check_loop is_key_down rnd ["up"; "down"; "left"; "right"]%string st [].

(** [Twenty.update(theInput, dt)]; [dt] is not used by the code. *)
Definition update (is_key_down : string -> bool) (rnd : string -> nat * nat)
    (st : Twenty) : result (Twenty * list string) :=
  check_for_moves is_key_down rnd st.

(** Every cell holds a value that [str] writes with at most four
    characters and that is not negative. *)
Definition small_values (g : Grid) : Prop :=
  Forall (Forall (fun v => (0 <= v < 10000)%Z)) g.

(** The left arrow alone is down. *)
Definition left_down (s : string) : bool := (s =? "left")%string.

(** Draws that are all 0. *)
Definition zero_draws (s : string) : nat * nat := (0, 0).

(** * Proofs *)

Section ListSet.
Context {A : Type}.

Lemma list_set_some (l : list A) (i : nat) (x : A) :
  i < List.length l -> exists l', list_set l i x = Some l'.
Proof.
  revert i; induction l as [|h t IH]; intros [|i] Hi; simpl in *; try lia.
  - eauto.
  - destruct (IH i) as [t' Ht']; [lia|]. rewrite Ht'. eauto.
Qed.

Lemma list_set_length (l l' : list A) (i : nat) (x : A) :
  list_set l i x = Some l' -> List.length l' = List.length l.
Proof.
  revert i l'; induction l as [|h t IH]; intros [|i] l' H; simpl in *;
    try discriminate.
  - inversion H; reflexivity.
  - destruct (list_set t i x) eqn:E; inversion H; subst; simpl.
    f_equal; eauto.
Qed.

Lemma list_set_nth (l l' : list A) (i j : nat) (x dflt : A) :
  list_set l i x = Some l' ->
  nth j l' dflt = if j =? i then x else nth j l dflt.
Proof.
  revert i j l'; induction l as [|h t IH]; intros [|i] j l' H; simpl in *;
    try discriminate.
  - inversion H; subst. destruct j; reflexivity.
  - destruct (list_set t i x) eqn:E; inversion H; subst.
    destruct j; simpl; [reflexivity|]. eauto.
Qed.

Lemma list_set_Forall (P : A -> Prop) (l l' : list A) (i : nat) (x : A) :
  list_set l i x = Some l' -> Forall P l -> P x -> Forall P l'.
Proof.
  revert i l'; induction l as [|h t IH]; intros [|i] l' H HF Hx; simpl in *;
    try discriminate.
  - inversion H; subst. inversion HF; subst. constructor; assumption.
  - destruct (list_set t i x) eqn:E; inversion H; subst.
    inversion HF; subst. constructor; eauto.
Qed.

Lemma list_set_sum (f : A -> Z) (l l' : list A) (i : nat) (x dflt : A) :
  list_set l i x = Some l' ->
  zsum (map f l') = (zsum (map f l) - f (nth i l dflt) + f x)%Z.
Proof.
  revert i l'; induction l as [|h t IH]; intros [|i] l' H; simpl in *;
    try discriminate.
  - inversion H; subst; simpl. lia.
  - destruct (list_set t i x) eqn:E; inversion H; subst; simpl.
    rewrite (IH _ _ E). lia.
Qed.
End ListSet.

Lemma shape_line (g : Grid) (r : nat) :
  shape g -> r < 4 -> List.length (nth r g []) = 4.
Proof.
  intros [Hl HF] Hr. rewrite Forall_forall in HF. apply HF.
  apply nth_In. lia.
Qed.

Lemma grid_get_ok (g : Grid) (r c : nat) :
  shape g -> r < 4 -> c < 4 -> grid_get g r c = Ok (cell g r c).
Proof.
  intros Hs Hr Hc. unfold grid_get, cell.
  pose proof (shape_line g r Hs Hr) as Hline. destruct Hs as [Hl _].
  rewrite (nth_error_nth' g [] (n := r)) by lia.
  rewrite (nth_error_nth' (nth r g []) 0%Z (n := c)) by lia.
  reflexivity.
Qed.

Lemma grid_get_cell (g : Grid) (r c : nat) (v : Z) :
  grid_get g r c = Ok v -> cell g r c = v.
Proof.
  unfold grid_get, cell. intros H.
  destruct (nth_error g r) as [line|] eqn:E1; [|discriminate].
  destruct (nth_error line c) as [w|] eqn:E2; [|discriminate].
  inversion H; subst.
  rewrite (nth_error_nth _ _ [] E1). apply (nth_error_nth _ _ _ E2).
Qed.

(** What an assignment to a cell does, on grids of any shape. *)
Lemma grid_set_spec (g g' : Grid) (r c : nat) (v : Z) :
  grid_set g r c v = Ok g' ->
  (shape g -> shape g') /\
  (forall r' c', cell g' r' c' =
     if (r' =? r) && (c' =? c) then v else cell g r' c') /\
  grid_sum g' = (grid_sum g - cell g r c + v)%Z.
Proof.
  unfold grid_set. intros H.
  destruct (nth_error g r) as [line|] eqn:E1; [|discriminate].
  destruct (list_set line c v) as [line'|] eqn:E2; [|discriminate].
  destruct (list_set g r line') as [g1|] eqn:E3; [|discriminate].
  inversion H; subst g1; clear H.
  pose proof (nth_error_nth _ _ [] E1) as Hnth.
  split; [|split].
  - intros [Hl HF]. split.
    + rewrite (list_set_length _ _ _ _ E3). exact Hl.
    + apply (list_set_Forall _ _ _ _ _ E3 HF).
      rewrite (list_set_length _ _ _ _ E2).
      rewrite Forall_forall in HF. apply HF. eapply nth_error_In; eauto.
  - intros r' c'. unfold cell.
    rewrite (list_set_nth _ _ _ r' _ [] E3).
    destruct (r' =? r) eqn:Er; simpl; [|reflexivity].
    apply Nat.eqb_eq in Er; subst r'.
    rewrite (list_set_nth _ _ _ c' _ 0%Z E2). rewrite Hnth.
    destruct (c' =? c); reflexivity.
  - unfold grid_sum, cell.
    rewrite (list_set_sum zsum _ _ _ _ [] E3). rewrite Hnth.
    pose proof (list_set_sum (fun z => z) _ _ _ _ 0%Z E2) as Hs.
    rewrite !map_id in Hs. lia.
Qed.

Lemma grid_set_ok (g : Grid) (r c : nat) (v : Z) :
  shape g -> r < 4 -> c < 4 -> exists g', grid_set g r c v = Ok g'.
Proof.
  intros Hs Hr Hc. unfold grid_set.
  pose proof (shape_line g r Hs Hr) as Hline. destruct Hs as [Hl _].
  rewrite (nth_error_nth' g [] (n := r)) by lia.
  destruct (list_set_some (nth r g []) c v) as [line' E2]; [lia|].
  rewrite E2.
  destruct (list_set_some g r line') as [g' E3]; [lia|].
  rewrite E3. eauto.
Qed.

Lemma csum_set (F : nat -> nat -> Z -> Z) (g g' : Grid) (r c : nat) (v : Z) :
  r < 4 -> c < 4 -> grid_set g r c v = Ok g' ->
  csum F g' = (csum F g - F r c (cell g r c) + F r c v)%Z.
Proof.
  intros Hr Hc H. destruct (grid_set_spec _ _ _ _ _ H) as (_ & Hcell & _).
  unfold csum, all_cells; simpl. rewrite !Hcell.
  destruct r as [|[|[|[|r]]]]; try lia;
    destruct c as [|[|[|[|c]]]]; try lia; simpl; ring.
Qed.

(** ** Lists of blocks *)

Lemma at_pos_true (r c : nat) (b : Block.t) :
  Block.at_pos r c b = true <-> Block.pos b = (r, c).
Proof.
  unfold Block.at_pos, Block.pos. rewrite andb_true_iff, !Nat.eqb_eq.
  split; [intros [-> ->]; reflexivity | intros H; inversion H; auto].
Qed.

Lemma at_pos_false (r c : nat) (b : Block.t) :
  Block.at_pos r c b = false <-> Block.pos b <> (r, c).
Proof.
  rewrite <- at_pos_true. destruct (Block.at_pos r c b); split; congruence.
Qed.

Lemma map_upd_absent (f : Block.t -> Block.t) (r c : nat) (bs : list Block.t) :
  ~ In (r, c) (map Block.pos bs) -> map (upd f r c) bs = bs.
Proof.
  induction bs as [|b t IH]; simpl; intros H; [reflexivity|].
  rewrite IH by tauto. unfold upd.
  destruct (Block.at_pos r c b) eqn:E; [|reflexivity].
  apply at_pos_true in E. tauto.
Qed.

Lemma filter_absent (r c : nat) (bs : list Block.t) :
  ~ In (r, c) (map Block.pos bs) ->
  filter (fun b => negb (Block.at_pos r c b)) bs = bs.
Proof.
  induction bs as [|b t IH]; simpl; intros H; [reflexivity|].
  rewrite IH by tauto.
  destruct (Block.at_pos r c b) eqn:E; [|reflexivity].
  apply at_pos_true in E. tauto.
Qed.

Lemma mutate_first_map (f : Block.t -> Block.t) (r c : nat) (bs : list Block.t) :
  NoDup (map Block.pos bs) ->
  mutate_first f (Block.at_pos r c) bs = map (upd f r c) bs.
Proof.
  induction bs as [|b t IH]; simpl; intros H; [reflexivity|].
  inversion H as [|? ? Hnot Hnd]; subst. unfold upd at 1.
  destruct (Block.at_pos r c b) eqn:E.
  - apply at_pos_true in E. rewrite E in Hnot.
    rewrite map_upd_absent by assumption. reflexivity.
  - rewrite IH by assumption. reflexivity.
Qed.

Lemma remove_first_filter (r c : nat) (bs : list Block.t) :
  NoDup (map Block.pos bs) ->
  remove_first (Block.at_pos r c) bs =
  filter (fun b => negb (Block.at_pos r c b)) bs.
Proof.
  induction bs as [|b t IH]; simpl; intros H; [reflexivity|].
  inversion H as [|? ? Hnot Hnd]; subst.
  destruct (Block.at_pos r c b) eqn:E; simpl.
  - apply at_pos_true in E. rewrite E in Hnot.
    rewrite filter_absent by assumption. reflexivity.
  - rewrite IH by assumption. reflexivity.
Qed.

Lemma mutate_first_In (f : Block.t -> Block.t) (p : Block.t -> bool)
    (bs : list Block.t) (b' : Block.t) :
  In b' (mutate_first f p bs) ->
  In b' bs \/ exists b, In b bs /\ p b = true /\ b' = f b.
Proof.
  induction bs as [|b t IH]; simpl; [tauto|].
  destruct (p b) eqn:E; simpl.
  - intros [<-|H]; [right; exists b; auto | auto].
  - intros [<-|H]; [auto|].
    destruct (IH H) as [H'|(b0 & H1 & H2 & H3)]; [auto|].
    right; exists b0; auto.
Qed.

Lemma remove_first_In (p : Block.t -> bool) (bs : list Block.t) (b' : Block.t) :
  In b' (remove_first p bs) -> In b' bs.
Proof.
  induction bs as [|b t IH]; simpl; [tauto|].
  destruct (p b); simpl; [auto|]. intros [H|H]; auto.
Qed.

Lemma getBlock_ok (bs : list Block.t) (r c : nat) :
  (exists b, In b bs /\ Block.pos b = (r, c)) ->
  exists b, getBlock bs r c = Ok b.
Proof.
  intros (b & Hin & Hpos). unfold getBlock.
  destruct (find (Block.at_pos r c) bs) as [b0|] eqn:E; [eauto|].
  apply (find_none _ _ E) in Hin. apply at_pos_false in Hin. contradiction.
Qed.

Lemma NoDup_filter_le1 (r c : nat) (bs : list Block.t) :
  NoDup (map Block.pos bs) -> List.length (filter (Block.at_pos r c) bs) <= 1.
Proof.
  induction bs as [|b t IH]; simpl; intros H; [lia|].
  inversion H as [|? ? Hnot Hnd]; subst.
  destruct (Block.at_pos r c b) eqn:E; [|auto].
  apply at_pos_true in E. rewrite E in Hnot. simpl.
  assert (Hempty : filter (Block.at_pos r c) t = []).
  { destruct (filter (Block.at_pos r c) t) as [|x l] eqn:Ef; [reflexivity|].
    exfalso. apply Hnot.
    assert (Hx : In x (filter (Block.at_pos r c) t)) by (rewrite Ef; left; auto).
    apply filter_In in Hx. destruct Hx as [Hx1 Hx2]. apply at_pos_true in Hx2.
    rewrite <- Hx2. apply in_map. assumption. }
  rewrite Hempty. simpl. lia.
Qed.

Lemma filter_le1_NoDup (bs : list Block.t) :
  (forall r c, List.length (filter (Block.at_pos r c) bs) <= 1) ->
  NoDup (map Block.pos bs).
Proof.
  induction bs as [|b t IH]; simpl; intros H; [constructor|].
  constructor.
  - intros Hin. apply in_map_iff in Hin. destruct Hin as (x & Hx & Hin).
    specialize (H (Block.row b) (Block.col b)).
    assert (E : Block.at_pos (Block.row b) (Block.col b) b = true)
      by (apply at_pos_true; reflexivity).
    rewrite E in H. simpl in H.
    assert (Hx' : In x (filter (Block.at_pos (Block.row b) (Block.col b)) t)).
    { apply filter_In. split; [assumption|]. apply at_pos_true. exact Hx. }
    destruct (filter (Block.at_pos (Block.row b) (Block.col b)) t);
      simpl in *; [contradiction | lia].
  - apply IH. intros r c. specialize (H r c).
    destruct (Block.at_pos r c b); simpl in H; lia.
Qed.

Lemma getBlock_ok_pos (bs : list Block.t) (r c : nat) :
  In (r, c) (map Block.pos bs) -> exists b, getBlock bs r c = Ok b.
Proof.
  intros H. apply in_map_iff in H. destruct H as (b & Hb & Hin).
  apply getBlock_ok. eauto.
Qed.

Lemma map_pos_upd (f : Block.t -> Block.t) (r c : nat) (bs : list Block.t) :
  (forall b, Block.pos (f b) = Block.pos b) ->
  map Block.pos (map (upd f r c) bs) = map Block.pos bs.
Proof.
  intros Hf. rewrite map_map. apply map_ext. intros b. unfold upd.
  destruct (Block.at_pos r c b); auto.
Qed.

Lemma upd_upd (f h : Block.t -> Block.t) (r c : nat) (b : Block.t) :
  (forall b, Block.pos (f b) = Block.pos b) ->
  upd h r c (upd f r c b) = upd (fun x => h (f x)) r c b.
Proof.
  intros Hf. unfold upd. destruct (Block.at_pos r c b) eqn:E.
  - assert (E' : Block.at_pos r c (f b) = true)
      by (apply at_pos_true; rewrite Hf; apply at_pos_true; exact E).
    rewrite E'. reflexivity.
  - rewrite E. reflexivity.
Qed.

Lemma NoDup_map_filter (q : Block.t -> bool) (bs : list Block.t) :
  NoDup (map Block.pos bs) -> NoDup (map Block.pos (filter q bs)).
Proof.
  induction bs as [|b t IH]; simpl; intros H; [constructor|].
  inversion H as [|? ? Hnot Hnd]; subst.
  destruct (q b); simpl; [|auto]. constructor; [|auto].
  intros Hin. apply Hnot. apply in_map_iff in Hin.
  destruct Hin as (x & Hx & Hin). apply filter_In in Hin.
  rewrite <- Hx. apply in_map. tauto.
Qed.

Lemma NoDup_map_move (r c r' c' : nat) (bs : list Block.t) :
  NoDup (map Block.pos bs) ->
  ~ In (r', c') (map Block.pos bs) ->
  NoDup (map Block.pos (map (upd (Block.move r' c') r c) bs)).
Proof.
  induction bs as [|b t IH]; simpl; intros H Hfree; [constructor|].
  inversion H as [|? ? Hnot Hnd]; subst.
  constructor; [|apply IH; tauto].
  unfold upd at 1. destruct (Block.at_pos r c b) eqn:E.
  - apply at_pos_true in E. rewrite E in Hnot.
    rewrite map_upd_absent by assumption. simpl. tauto.
  - intros Hin. apply in_map_iff in Hin. destruct Hin as (x & Hx & Hin).
    apply in_map_iff in Hin. destruct Hin as (y & Hy & Hin). subst x.
    unfold upd in Hx. destruct (Block.at_pos r c y) eqn:Ey.
    + unfold Block.pos in Hx at 1; simpl in Hx. apply Hfree. left.
      symmetry; exact Hx.
    + apply Hnot. rewrite <- Hx. apply in_map. assumption.
Qed.

(** ** Consistency of the grid and the registry *)

Lemma tiles_at_le1 (bs : list Block.t) (r c : nat) (v : Z) :
  List.length (filter (Block.at_pos r c) bs) <= 1 ->
  List.length (tiles_at bs r c v) <= 1.
Proof.
  unfold tiles_at. induction bs as [|b t IH]; simpl; [lia|].
  destruct (Block.at_pos r c b); simpl.
  - destruct (filter (Block.at_pos r c) t) as [|x l] eqn:E; simpl; [|lia].
    intros _. specialize (IH ltac:(simpl; lia)).
    destruct (Block.val b =? v)%Z; simpl.
    + assert (Hnil : filter (fun b0 => Block.at_pos r c b0 && (Block.val b0 =? v)%Z) t = []).
      { destruct (filter (fun b0 => Block.at_pos r c b0 && (Block.val b0 =? v)%Z) t)
          as [|y l'] eqn:E'; [reflexivity|].
        assert (Hy : In y (filter (fun b0 => Block.at_pos r c b0 && (Block.val b0 =? v)%Z) t))
          by (rewrite E'; left; reflexivity).
        apply filter_In in Hy. destruct Hy as [Hy1 Hy2].
        apply andb_true_iff in Hy2. destruct Hy2 as [Hy2 _].
        assert (Hy' : In y (filter (Block.at_pos r c) t))
          by (apply filter_In; auto).
        rewrite E in Hy'. contradiction. }
      rewrite Hnil. simpl. lia.
    + exact IH.
  - exact IH.
Qed.

Lemma tiles_at_In (bs : list Block.t) (r c : nat) (v : Z) (b : Block.t) :
  In b (tiles_at bs r c v) <->
  In b bs /\ Block.pos b = (r, c) /\ Block.val b = v.
Proof.
  unfold tiles_at. rewrite filter_In, andb_true_iff, at_pos_true, Z.eqb_eq.
  tauto.
Qed.

Lemma length_pos_In (A : Type) (l : list A) :
  0 < List.length l -> exists x, In x l.
Proof.
  destruct l as [|x l]; simpl; [lia|]. eauto.
Qed.

Lemma In_length_pos (A : Type) (l : list A) (x : A) :
  In x l -> 0 < List.length l.
Proof.
  destruct l; simpl; [tauto | lia].
Qed.

Lemma wf_consistent (st : Twenty) : wf st <-> consistent st.
Proof.
  split.
  - intros [Hs Hnd Hb Hc]. unfold consistent. repeat split.
    + apply Hs.
    + apply Hs.
    + apply Forall_forall. intros b Hin.
      destruct (Hb b Hin) as (? & ? & ? & _). auto.
    + intros Hv. subst v.
      pose proof (tiles_at_le1 (blocks st) r c (cell (playGrid st) r c)
                    (NoDup_filter_le1 r c _ Hnd)) as Hle.
      specialize (Hc r c H H0 H1). apply in_map_iff in Hc.
      destruct Hc as (b & Hpos & Hin).
      assert (Hin' : In b (tiles_at (blocks st) r c (cell (playGrid st) r c))).
      { apply tiles_at_In. repeat split; auto.
        destruct (Hb b Hin) as (_ & _ & _ & Hval).
        inversion Hpos; subst. auto. }
      apply In_length_pos in Hin'. lia.
    + intros Hlen.
      destruct (length_pos_In _ (tiles_at (blocks st) r c v)) as [b Hin]; [lia|].
      apply tiles_at_In in Hin. destruct Hin as (Hin & Hpos & Hval).
      destruct (Hb b Hin) as (_ & _ & _ & Hcell).
      inversion Hpos; subst. auto.
    + intros r c. apply NoDup_filter_le1. assumption.
  - intros (Hs & HF & Hiff & Hle). rewrite Forall_forall in HF.
    constructor.
    + assumption.
    + apply filter_le1_NoDup. assumption.
    + intros b Hin. destruct (HF b Hin) as (Hr & Hc & Hv).
      repeat split; auto.
      apply (Hiff _ _ _ Hr Hc Hv).
      pose proof (tiles_at_le1 (blocks st) (Block.row b) (Block.col b)
                    (Block.val b) (Hle _ _)) as Hle1.
      assert (Hin' : In b (tiles_at (blocks st) (Block.row b) (Block.col b)
                             (Block.val b)))
        by (apply tiles_at_In; auto).
      apply In_length_pos in Hin'. lia.
    + intros r c Hr Hc Hv.
      pose proof (proj1 (Hiff r c _ Hr Hc Hv) eq_refl) as Hlen.
      destruct (length_pos_In _ (tiles_at (blocks st) r c (cell (playGrid st) r c)))
        as [b Hin]; [lia|].
      apply tiles_at_In in Hin. destruct Hin as (Hin & Hpos & _).
      rewrite <- Hpos. apply in_map. assumption.
Qed.

(** ** The elementary steps of a sweep *)

Lemma bind_ok (A B : Type) (m : result A) (k : A -> result B) (b : B) :
  bind m k = Ok b -> exists a, m = Ok a /\ k a = Ok b.
Proof.
  destruct m; simpl; intros H; try discriminate. eauto.
Qed.

(** Peels one [bind] off a hypothesis [bind m k = Ok b]. *)
Ltac bind_inv H :=
  let x := fresh "x" in
  let E := fresh "E" in
  apply bind_ok in H; destruct H as (x & E & H).

Lemma ahead_spec (d : direction) (r c r' c' : nat) :
  ahead d r c = Some (r', c') -> r < 4 -> c < 4 ->
  r' < 4 /\ c' < 4 /\ (r' =? r) && (c' =? c) = false /\
  (r =? r') && (c =? c') = false /\
  S (dist d r' c') = dist d r c /\ line d r' c' = line d r c.
Proof.
  intros H Hr Hc.
  assert (Hne : forall a b x y, (a, b) <> (x, y) -> (a =? x) && (b =? y) = false).
  { intros a b x y Hn. apply andb_false_iff.
    destruct (Nat.eqb_spec a x); [|auto]. destruct (Nat.eqb_spec b y); [|auto].
    subst. congruence. }
  destruct d; simpl in H;
    match type of H with
    | (if ?t then _ else _) = _ => destruct t eqn:E; [|discriminate]
    end;
    inversion H; subst; clear H;
    apply Nat.ltb_lt in E; cbv [dist line];
    repeat split; try lia; apply Hne; intros Hq; inversion Hq; lia.
Qed.

Lemma two_sets (g g1 g2 : Grid) (r c r' c' : nat) (w : Z) :
  r < 4 -> c < 4 -> r' < 4 -> c' < 4 ->
  (r =? r') && (c =? c') = false ->
  grid_set g r' c' w = Ok g1 ->
  grid_set g1 r c 0%Z = Ok g2 ->
  (shape g -> shape g2) /\
  (forall x y, cell g2 x y =
     if (x =? r) && (y =? c) then 0%Z
     else if (x =? r') && (y =? c') then w else cell g x y) /\
  grid_sum g2 = (grid_sum g - cell g r' c' + w - cell g r c)%Z /\
  (forall F, csum F g2 =
     (csum F g - F r' c' (cell g r' c') + F r' c' w
      - F r c (cell g r c) + F r c 0)%Z).
Proof.
  intros Hr Hc Hr' Hc' Hne H1 H2.
  destruct (grid_set_spec _ _ _ _ _ H1) as (Hs1 & Hc1 & Hsum1).
  destruct (grid_set_spec _ _ _ _ _ H2) as (Hs2 & Hc2 & Hsum2).
  assert (Hrc : cell g1 r c = cell g r c) by (rewrite Hc1, Hne; reflexivity).
  repeat split.
  - apply Hs2, Hs1; assumption.
  - apply Hs2, Hs1; assumption.
  - intros x y. rewrite Hc2, Hc1. reflexivity.
  - rewrite Hsum2, Hsum1, Hrc. ring.
  - intros F. rewrite (csum_set F _ _ _ _ _ Hr Hc H2).
    rewrite (csum_set F _ _ _ _ _ Hr' Hc' H1). rewrite Hrc. ring.
Qed.

Lemma slide_step_inv (st st' : Twenty) (r c r' c' : nat) :
  slide_step st r c r' c' = Ok st' ->
  exists g1,
    grid_set (playGrid st) r' c' (cell (playGrid st) r c) = Ok g1 /\
    grid_set g1 r c 0%Z = Ok (playGrid st') /\
    blocks st' =
      mutate_first (Block.move r' c') (Block.at_pos r c) (blocks st) /\
    pressed st' = pressed st.
Proof.
  unfold slide_step, on_block. intros H.
  bind_inv H. bind_inv H. bind_inv H. bind_inv H. bind_inv E2.
  inversion H; subst; clear H. inversion E2; subst; clear E2.
  apply grid_get_cell in E. subst. simpl. eauto.
Qed.

Lemma merge_step_inv (st st' : Twenty) (r c r' c' : nat) :
  merge_step st r c r' c' = Ok st' ->
  exists g1,
    grid_set (playGrid st) r' c' (cell (playGrid st) r' c' * 2)%Z = Ok g1 /\
    grid_set g1 r c 0%Z = Ok (playGrid st') /\
    blocks st' =
      remove_first (Block.at_pos r c)
        (mutate_first Block.pulse (Block.at_pos r' c')
           (mutate_first Block.double (Block.at_pos r' c') (blocks st))) /\
    pressed st' = pressed st.
Proof.
  unfold merge_step, on_block, removeBlock. intros H.
  bind_inv H. bind_inv H. bind_inv H. bind_inv H. bind_inv H. bind_inv H.
  bind_inv E2. bind_inv E3. bind_inv E4.
  inversion H; subst; clear H. inversion E2; subst; clear E2.
  inversion E3; subst; clear E3. inversion E4; subst; clear E4.
  apply grid_get_cell in E. subst. simpl. eauto.
Qed.

Lemma weight_nonzero (d : direction) (r c : nat) (v : Z) :
  v <> 0%Z -> weight d r c v = Z.of_nat (S (dist d r c)).
Proof.
  intros H. unfold weight. destruct (Z.eqb_spec v 0); [contradiction|reflexivity].
Qed.

Lemma weight_zero (d : direction) (r c : nat) : weight d r c 0%Z = 0%Z.
Proof. reflexivity. Qed.

Lemma slide1_grid (d : direction) (l : nat) (st st' : Twenty) :
  slide1 d l st st' ->
  (shape (playGrid st) -> shape (playGrid st')) /\
  grid_sum (playGrid st') = grid_sum (playGrid st) /\
  (potential d (playGrid st') < potential d (playGrid st))%Z /\
  has_empty (playGrid st').
Proof.
  intros [r c r' c' Hr Hc Hl Ha Hv Hz Hs].
  destruct (ahead_spec _ _ _ _ _ Ha Hr Hc) as (Hr' & Hc' & Hne' & Hne & Hd & _).
  destruct (slide_step_inv _ _ _ _ _ _ Hs) as (g1 & H1 & H2 & _).
  destruct (two_sets _ _ _ _ _ _ _ _ Hr Hc Hr' Hc' Hne H1 H2)
    as (Hshape & Hcell & Hsum & Hcsum).
  repeat split.
  - apply Hshape; assumption.
  - apply Hshape; assumption.
  - rewrite Hsum, Hz. ring.
  - unfold potential. rewrite Hcsum, Hz.
    rewrite !weight_zero, !weight_nonzero by assumption. lia.
  - exists r, c. repeat split; auto. rewrite Hcell, !Nat.eqb_refl. reflexivity.
Qed.

Lemma merge1_grid (d : direction) (l : nat) (st st' : Twenty) :
  merge1 d l st st' ->
  (shape (playGrid st) -> shape (playGrid st')) /\
  grid_sum (playGrid st') = grid_sum (playGrid st) /\
  (potential d (playGrid st') < potential d (playGrid st))%Z /\
  has_empty (playGrid st').
Proof.
  intros [r c r' c' Hr Hc Hl Ha Hv He Hs].
  destruct (ahead_spec _ _ _ _ _ Ha Hr Hc) as (Hr' & Hc' & Hne' & Hne & Hd & _).
  destruct (merge_step_inv _ _ _ _ _ _ Hs) as (g1 & H1 & H2 & _).
  destruct (two_sets _ _ _ _ _ _ _ _ Hr Hc Hr' Hc' Hne H1 H2)
    as (Hshape & Hcell & Hsum & Hcsum).
  repeat split.
  - apply Hshape; assumption.
  - apply Hshape; assumption.
  - rewrite Hsum, He. ring.
  - unfold potential. rewrite Hcsum, He.
    rewrite !weight_zero, !weight_nonzero by lia. lia.
  - exists r, c. repeat split; auto. rewrite Hcell, !Nat.eqb_refl. reflexivity.
Qed.

Lemma eqb_pair_true (x y r c : nat) :
  (x =? r) && (y =? c) = true <-> (x, y) = (r, c).
Proof.
  rewrite andb_true_iff, !Nat.eqb_eq.
  split; [intros [-> ->]; reflexivity | intros H; inversion H; auto].
Qed.

Lemma eqb_pair_false (x y r c : nat) :
  (x =? r) && (y =? c) = false <-> (x, y) <> (r, c).
Proof.
  rewrite <- eqb_pair_true. destruct ((x =? r) && (y =? c)); split; congruence.
Qed.

Lemma pos_double_pulse (b : Block.t) :
  Block.pos (Block.pulse (Block.double b)) = Block.pos b.
Proof. reflexivity. Qed.

Lemma pos_double (b : Block.t) : Block.pos (Block.double b) = Block.pos b.
Proof. reflexivity. Qed.

Lemma wf_free (st : Twenty) (r c : nat) :
  wf st -> cell (playGrid st) r c = 0%Z ->
  ~ In (r, c) (map Block.pos (blocks st)).
Proof.
  intros Hwf Hz Hin. apply in_map_iff in Hin. destruct Hin as (b & Hpos & Hin).
  destruct (wf_block _ Hwf b Hin) as (_ & _ & Hv & Hcell).
  inversion Hpos; subst. congruence.
Qed.

Lemma slide1_wf (d : direction) (l : nat) (st st' : Twenty) :
  wf st -> slide1 d l st st' -> wf st'.
Proof.
  intros Hwf [r c r' c' Hr Hc Hl Ha Hv Hz Hs].
  destruct (ahead_spec _ _ _ _ _ Ha Hr Hc) as (Hr' & Hc' & Hne' & Hne & _).
  destruct (slide_step_inv _ _ _ _ _ _ Hs) as (g1 & H1 & H2 & Hbs & _).
  destruct (two_sets _ _ _ _ _ _ _ _ Hr Hc Hr' Hc' Hne H1 H2)
    as (Hshape & Hcell & _).
  pose proof (wf_free _ _ _ Hwf Hz) as Hfree.
  rewrite (mutate_first_map _ _ _ _ (wf_nodup _ Hwf)) in Hbs.
  constructor.
  - apply Hshape, Hwf.
  - rewrite Hbs. apply NoDup_map_move; [apply Hwf | assumption].
  - intros b' Hin. rewrite Hbs in Hin. apply in_map_iff in Hin.
    destruct Hin as (b & <- & Hin).
    destruct (wf_block _ Hwf b Hin) as (Hbr & Hbc & Hbv & Hbcell).
    unfold upd. destruct (Block.at_pos r c b) eqn:E.
    + apply at_pos_true in E. inversion E; subst. simpl.
      repeat split; auto. rewrite Hcell, Hne', !Nat.eqb_refl. assumption.
    + repeat split; auto. rewrite Hcell.
      apply at_pos_false in E.
      assert (E1 : (Block.row b =? r) && (Block.col b =? c) = false)
        by (apply eqb_pair_false; exact E).
      assert (E2 : (Block.row b =? r') && (Block.col b =? c') = false).
      { apply eqb_pair_false. intros Hq. apply Hfree. rewrite <- Hq.
        apply (in_map Block.pos). assumption. }
      rewrite E1, E2. assumption.
  - intros x y Hx Hy Hnz. rewrite Hcell in Hnz. rewrite Hbs.
    destruct ((x =? r) && (y =? c)) eqn:E1; [contradiction|].
    destruct ((x =? r') && (y =? c')) eqn:E2.
    + apply eqb_pair_true in E2. inversion E2; subst.
      pose proof (wf_cell _ Hwf r c Hr Hc Hv) as Hin.
      apply in_map_iff in Hin. destruct Hin as (b0 & Hpos & Hin).
      apply in_map_iff. exists (upd (Block.move r' c') r c b0).
      split; [|apply in_map; assumption].
      unfold upd. rewrite (proj2 (at_pos_true r c b0) Hpos). reflexivity.
    + pose proof (wf_cell _ Hwf x y Hx Hy Hnz) as Hin.
      apply in_map_iff in Hin. destruct Hin as (b & Hpos & Hin).
      apply in_map_iff. exists (upd (Block.move r' c') r c b).
      split; [|apply in_map; assumption].
      unfold upd. apply eqb_pair_false in E1.
      rewrite (proj2 (at_pos_false r c b)); [assumption|]. congruence.
Qed.

Lemma merge_blocks (st : Twenty) (r c r' c' : nat) :
  NoDup (map Block.pos (blocks st)) ->
  remove_first (Block.at_pos r c)
    (mutate_first Block.pulse (Block.at_pos r' c')
       (mutate_first Block.double (Block.at_pos r' c') (blocks st))) =
  filter (fun b => negb (Block.at_pos r c b))
    (map (upd (fun x => Block.pulse (Block.double x)) r' c') (blocks st)).
Proof.
  intros Hnd.
  rewrite (mutate_first_map Block.double) by assumption.
  rewrite (mutate_first_map Block.pulse)
    by (rewrite map_pos_upd; [assumption | apply pos_double]).
  rewrite map_map.
  rewrite (map_ext _ (upd (fun x => Block.pulse (Block.double x)) r' c'))
    by (intros b; apply upd_upd, pos_double).
  apply remove_first_filter.
  rewrite map_pos_upd; [assumption | apply pos_double_pulse].
Qed.

Lemma merge1_wf (d : direction) (l : nat) (st st' : Twenty) :
  wf st -> merge1 d l st st' -> wf st'.
Proof.
  intros Hwf [r c r' c' Hr Hc Hl Ha Hv He Hs].
  destruct (ahead_spec _ _ _ _ _ Ha Hr Hc) as (Hr' & Hc' & Hne' & Hne & _).
  destruct (merge_step_inv _ _ _ _ _ _ Hs) as (g1 & H1 & H2 & Hbs & _).
  destruct (two_sets _ _ _ _ _ _ _ _ Hr Hc Hr' Hc' Hne H1 H2)
    as (Hshape & Hcell & _).
  rewrite (merge_blocks _ _ _ _ _ (wf_nodup _ Hwf)) in Hbs.
  constructor.
  - apply Hshape, Hwf.
  - rewrite Hbs. apply NoDup_map_filter.
    rewrite map_pos_upd; [apply Hwf | apply pos_double_pulse].
  - intros b' Hin. rewrite Hbs in Hin. apply filter_In in Hin.
    destruct Hin as [Hin Hnot]. apply in_map_iff in Hin.
    destruct Hin as (b & <- & Hin).
    destruct (wf_block _ Hwf b Hin) as (Hbr & Hbc & Hbv & Hbcell).
    unfold upd in *. destruct (Block.at_pos r' c' b) eqn:E.
    + apply at_pos_true in E. inversion E; subst. simpl.
      repeat split; auto; [lia|].
      rewrite Hcell, Hne', !Nat.eqb_refl. simpl. rewrite Hbcell. reflexivity.
    + repeat split; auto. rewrite Hcell.
      apply negb_true_iff in Hnot. apply at_pos_false in Hnot.
      apply at_pos_false in E.
      rewrite (proj2 (eqb_pair_false _ _ r c) Hnot).
      rewrite (proj2 (eqb_pair_false _ _ r' c') E). assumption.
  - intros x y Hx Hy Hnz. rewrite Hcell in Hnz. rewrite Hbs.
    destruct ((x =? r) && (y =? c)) eqn:E1; [contradiction|].
    apply eqb_pair_false in E1.
    assert (Hsrc : cell (playGrid st) x y <> 0%Z).
    { destruct ((x =? r') && (y =? c')) eqn:E2; [|assumption].
      apply eqb_pair_true in E2. inversion E2; subst. congruence. }
    pose proof (wf_cell _ Hwf x y Hx Hy Hsrc) as Hin.
    apply in_map_iff in Hin. destruct Hin as (b & Hpos & Hin).
    apply in_map_iff.
    exists (upd (fun x => Block.pulse (Block.double x)) r' c' b).
    assert (Hp : Block.pos (upd (fun x => Block.pulse (Block.double x)) r' c' b)
                 = (x, y)).
    { unfold upd. destruct (Block.at_pos r' c' b); auto. }
    split; [assumption|]. apply filter_In. split; [apply in_map; assumption|].
    apply negb_true_iff, at_pos_false. congruence.
Qed.

Lemma slide_step_ok (d : direction) (st : Twenty) (r c r' c' : nat) :
  wf st -> r < 4 -> c < 4 -> ahead d r c = Some (r', c') ->
  cell (playGrid st) r c <> 0%Z ->
  exists st', slide_step st r c r' c' = Ok st'.
Proof.
  intros Hwf Hr Hc Ha Hv.
  destruct (ahead_spec _ _ _ _ _ Ha Hr Hc) as (Hr' & Hc' & _).
  pose proof (wf_shape _ Hwf) as Hs.
  destruct (grid_set_ok (playGrid st) r' c' (cell (playGrid st) r c) Hs Hr' Hc')
    as [g1 H1].
  pose proof (proj1 (grid_set_spec _ _ _ _ _ H1) Hs) as Hs1.
  destruct (grid_set_ok g1 r c 0%Z Hs1 Hr Hc) as [g2 H2].
  destruct (getBlock_ok_pos _ _ _ (wf_cell _ Hwf r c Hr Hc Hv)) as [b Hb].
  unfold slide_step, on_block.
  rewrite (grid_get_ok _ _ _ Hs Hr Hc). simpl.
  rewrite H1; simpl. rewrite H2; simpl. rewrite Hb; simpl. eauto.
Qed.

Lemma merge_step_ok (d : direction) (st : Twenty) (r c r' c' : nat) :
  wf st -> r < 4 -> c < 4 -> ahead d r c = Some (r', c') ->
  cell (playGrid st) r c <> 0%Z ->
  cell (playGrid st) r' c' = cell (playGrid st) r c ->
  exists st', merge_step st r c r' c' = Ok st'.
Proof.
  intros Hwf Hr Hc Ha Hv He.
  destruct (ahead_spec _ _ _ _ _ Ha Hr Hc) as (Hr' & Hc' & _).
  pose proof (wf_shape _ Hwf) as Hs. pose proof (wf_nodup _ Hwf) as Hnd.
  destruct (grid_set_ok (playGrid st) r' c' (cell (playGrid st) r' c' * 2)%Z
              Hs Hr' Hc') as [g1 H1].
  pose proof (proj1 (grid_set_spec _ _ _ _ _ H1) Hs) as Hs1.
  destruct (grid_set_ok g1 r c 0%Z Hs1 Hr Hc) as [g2 H2].
  assert (Hv' : cell (playGrid st) r' c' <> 0%Z) by congruence.
  pose proof (wf_cell _ Hwf r' c' Hr' Hc' Hv') as Hin'.
  pose proof (wf_cell _ Hwf r c Hr Hc Hv) as Hin.
  destruct (getBlock_ok_pos _ _ _ Hin') as [b1 Hb1].
  destruct (getBlock_ok_pos
              (mutate_first Block.double (Block.at_pos r' c') (blocks st)) r' c')
    as [b2 Hb2].
  { rewrite mutate_first_map by assumption.
    rewrite map_pos_upd; [assumption | apply pos_double]. }
  destruct (getBlock_ok_pos
              (mutate_first Block.pulse (Block.at_pos r' c')
                 (mutate_first Block.double (Block.at_pos r' c') (blocks st)))
              r c) as [b3 Hb3].
  { rewrite (mutate_first_map Block.double) by assumption.
    rewrite (mutate_first_map Block.pulse)
      by (rewrite map_pos_upd; [assumption | apply pos_double]).
    rewrite map_pos_upd by reflexivity.
    rewrite map_pos_upd; [assumption | apply pos_double]. }
  unfold merge_step, on_block, removeBlock.
  rewrite (grid_get_ok _ _ _ Hs Hr' Hc'). simpl.
  rewrite H1; simpl. rewrite H2; simpl. rewrite Hb1; simpl.
  rewrite Hb2; simpl. rewrite Hb3; simpl. eauto.
Qed.

Lemma step_wf (d : direction) (st st' : Twenty) :
  wf st -> step d st st' -> wf st'.
Proof.
  intros Hwf [l H|l H]; [eapply slide1_wf | eapply merge1_wf]; eauto.
Qed.

Lemma step_grid (d : direction) (st st' : Twenty) :
  step d st st' ->
  grid_sum (playGrid st') = grid_sum (playGrid st) /\
  (potential d (playGrid st') < potential d (playGrid st))%Z /\
  has_empty (playGrid st').
Proof.
  intros [l H|l H];
    [apply slide1_grid in H | apply merge1_grid in H]; tauto.
Qed.

Lemma steps_grid (d : direction) (st st' : Twenty) :
  steps d st st' ->
  grid_sum (playGrid st') = grid_sum (playGrid st) /\
  (st' = st \/
   ((potential d (playGrid st') < potential d (playGrid st))%Z /\
    has_empty (playGrid st'))).
Proof.
  induction 1 as [x y H | x | x y z H1 IH1 H2 IH2].
  - apply step_grid in H. tauto.
  - auto.
  - destruct IH1 as [S1 [->|[P1 E1]]], IH2 as [S2 [->|[P2 E2]]];
      (split; [congruence|]); auto.
    right. split; [lia | assumption].
Qed.

(** ** Blocks and their ancestors across steps *)

Lemma descends_refl (d : direction) (bs : list Block.t) :
  descends d (fun _ => 0) bs bs.
Proof.
  intros b Hin. exists b. repeat split; auto. lia.
Qed.

Lemma descends_trans (d : direction) (k1 k2 : nat -> nat)
    (bs bs1 bs2 : list Block.t) :
  descends d k1 bs bs1 -> descends d k2 bs1 bs2 ->
  descends d (fun x => k1 x + k2 x) bs bs2.
Proof.
  intros H1 H2 b2 Hin2.
  destruct (H2 b2 Hin2) as (b1 & Hin1 & Hl1 & Hd1).
  destruct (H1 b1 Hin1) as (b & Hin & Hl & Hd).
  exists b. repeat split; auto; [congruence|]. rewrite Hl in Hd1. lia.
Qed.

Lemma descends_weaken (d : direction) (k k' : nat -> nat) (bs bs' : list Block.t) :
  (forall x, k x <= k' x) -> descends d k bs bs' -> descends d k' bs bs'.
Proof.
  intros Hk H b' Hin. destruct (H b' Hin) as (b & Hb & Hl & Hd).
  exists b. repeat split; auto. specialize (Hk (line_of d b)). lia.
Qed.

Lemma slide1_descends (d : direction) (l : nat) (st st' : Twenty) :
  slide1 d l st st' -> descends d (fun _ => 0) (blocks st) (blocks st').
Proof.
  intros [r c r' c' Hr Hc Hl Ha Hv Hz Hs].
  destruct (ahead_spec _ _ _ _ _ Ha Hr Hc) as (_ & _ & _ & _ & _ & Hline).
  destruct (slide_step_inv _ _ _ _ _ _ Hs) as (_ & _ & _ & Hbs & _).
  intros b' Hin. rewrite Hbs in Hin.
  apply mutate_first_In in Hin. destruct Hin as [Hin|(b & Hin & Hat & ->)].
  - exists b'. repeat split; auto. lia.
  - exists b. repeat split; auto; [|simpl; lia].
    apply at_pos_true in Hat. inversion Hat; subst.
    unfold line_of; simpl. assumption.
Qed.

Lemma merge1_descends (d : direction) (l : nat) (st st' : Twenty) :
  merge1 d l st st' -> descends d (once l) (blocks st) (blocks st').
Proof.
  intros [r c r' c' Hr Hc Hl Ha Hv He Hs].
  destruct (ahead_spec _ _ _ _ _ Ha Hr Hc) as (_ & _ & _ & _ & _ & Hline).
  destruct (merge_step_inv _ _ _ _ _ _ Hs) as (_ & _ & _ & Hbs & _).
  assert (Hd : forall b1,
    In b1 (mutate_first Block.double (Block.at_pos r' c') (blocks st)) ->
    exists b, In b (blocks st) /\ line_of d b1 = line_of d b /\
              Block.doubles b1 <= Block.doubles b + once l (line_of d b)).
  { intros b1 Hin. apply mutate_first_In in Hin.
    destruct Hin as [Hin|(b & Hin & Hat & ->)].
    - exists b1. repeat split; auto. lia.
    - exists b. repeat split; auto.
      apply at_pos_true in Hat. inversion Hat; subst.
      unfold line_of, once; simpl. rewrite Hline, Nat.eqb_refl. lia. }
  intros b' Hin. rewrite Hbs in Hin. apply remove_first_In in Hin.
  apply mutate_first_In in Hin. destruct Hin as [Hin|(b1 & Hin & Hat & ->)].
  - apply Hd; assumption.
  - destruct (Hd b1 Hin) as (b & Hb & Hl1 & Hd1). exists b. auto.
Qed.

(** ** One cell of a sweep *)

Lemma slide_run (d : direction) (fuel : nat) :
  forall (st : Twenty) (r c : nat),
    wf st -> r < 4 -> c < 4 -> cell (playGrid st) r c <> 0%Z ->
    dist d r c <= fuel ->
    exists st1 r1 c1,
      slide fuel d st r c = Ok (st1, r1, c1) /\
      steps d st st1 /\ wf st1 /\ r1 < 4 /\ c1 < 4 /\
      cell (playGrid st1) r1 c1 <> 0%Z /\
      line d r1 c1 = line d r c /\
      descends d (fun _ => 0) (blocks st) (blocks st1).
Proof.
  assert (Hstay : forall st r c,
    wf st -> r < 4 -> c < 4 -> cell (playGrid st) r c <> 0%Z ->
    steps d st st /\ wf st /\ r < 4 /\ c < 4 /\
    cell (playGrid st) r c <> 0%Z /\ line d r c = line d r c /\
    descends d (fun _ => 0) (blocks st) (blocks st)).
  { intros st r c Hwf Hr Hc Hv.
    split; [apply rt_refl|]. repeat (split; [assumption|]).
    split; [reflexivity | apply descends_refl]. }
  induction fuel as [|fuel IH]; intros st r c Hwf Hr Hc Hv Hfuel.
  - simpl. destruct (ahead d r c) as [[r' c']|] eqn:Ha.
    + destruct (ahead_spec _ _ _ _ _ Ha Hr Hc) as (_ & _ & _ & _ & Hd & _). lia.
    + exists st, r, c. split; [reflexivity | auto].
  - simpl. destruct (ahead d r c) as [[r' c']|] eqn:Ha.
    + destruct (ahead_spec _ _ _ _ _ Ha Hr Hc)
        as (Hr' & Hc' & Hne' & Hne & Hd & Hline).
      rewrite (grid_get_ok _ _ _ (wf_shape _ Hwf) Hr' Hc'). simpl.
      destruct (Z.eqb_spec (cell (playGrid st) r' c') 0) as [Hz|Hnz].
      * destruct (slide_step_ok d st r c r' c' Hwf Hr Hc Ha Hv) as [st' Hs].
        rewrite Hs. simpl.
        assert (H1 : slide1 d (line d r c) st st')
          by exact (slide1_intro d _ st st' r c r' c' Hr Hc eq_refl Ha Hv Hz Hs).
        pose proof (slide1_wf _ _ _ _ Hwf H1) as Hwf'.
        assert (Hv' : cell (playGrid st') r' c' <> 0%Z).
        { destruct (slide_step_inv _ _ _ _ _ _ Hs) as (g1 & G1 & G2 & _).
          destruct (two_sets _ _ _ _ _ _ _ _ Hr Hc Hr' Hc' Hne G1 G2)
            as (_ & Hcell & _).
          rewrite Hcell, Hne', !Nat.eqb_refl. assumption. }
        destruct (IH st' r' c' Hwf' Hr' Hc' Hv' ltac:(lia))
          as (st1 & r1 & c1 & Hrun & Hsteps & Hwf1 & Hr1 & Hc1 & Hv1 & Hl1 & Hdesc).
        exists st1, r1, c1. split; [exact Hrun|].
        split.
        { eapply rt_trans; [apply rt_step, (step_slide _ _ _ _ H1) | exact Hsteps]. }
        repeat (split; [assumption|]).
        split; [congruence|].
        eapply descends_weaken;
          [|exact (descends_trans _ _ _ _ _ _ (slide1_descends _ _ _ _ H1) Hdesc)].
        intros x; simpl; lia.
      * exists st, r, c. split; [reflexivity | auto].
    + exists st, r, c. split; [reflexivity | auto].
Qed.

Lemma slide_step_fuel (st : Twenty) (r c r' c' : nat) :
  slide_step st r c r' c' <> OutOfFuel.
Proof.
  unfold slide_step, on_block, getBlock, grid_get, grid_set.
  repeat match goal with
         | |- context [match ?x with _ => _ end] => destruct x; simpl
         end; discriminate.
Qed.

(** The loop always stops before the fuel given by [process_cell] runs out,
    whatever the state. *)
Lemma slide_total (d : direction) (fuel : nat) :
  forall (st : Twenty) (r c : nat),
    dist d r c <= fuel -> slide fuel d st r c <> OutOfFuel.
Proof.
  induction fuel as [|fuel IH]; intros st r c Hfuel; simpl;
    destruct (ahead d r c) as [[r' c']|] eqn:Ha; try discriminate.
  - exfalso. destruct d; simpl in Ha; cbv [dist] in Hfuel;
      match type of Ha with
      | (if ?t then _ else _) = _ => destruct t eqn:E; [|discriminate]
      end; apply Nat.ltb_lt in E; lia.
  - assert (Hd : dist d r' c' <= fuel).
    { destruct d; simpl in Ha;
        match type of Ha with
        | (if ?t then _ else _) = _ => destruct t eqn:E; [|discriminate]
        end; apply Nat.ltb_lt in E; inversion Ha; subst;
        cbv [dist] in *; lia. }
    assert (Hg : grid_get (playGrid st) r' c' <> OutOfFuel).
    { unfold grid_get.
      repeat match goal with
             | |- context [match ?x with _ => _ end] => destruct x; simpl
             end; discriminate. }
    destruct (grid_get (playGrid st) r' c') as [v| |]; simpl;
      try discriminate; [|congruence].
    destruct (v =? 0)%Z; [|discriminate].
    pose proof (slide_step_fuel st r c r' c') as Hs.
    destruct (slide_step st r c r' c') as [st'| |]; simpl;
      try discriminate; [|congruence].
    apply IH. assumption.
Qed.

Lemma process_cell_run (d : direction) (st : Twenty) (r0 c0 : nat) :
  wf st -> r0 < 4 -> c0 < 4 ->
  exists st',
    process_cell d st (r0, c0) = Ok st' /\ steps d st st' /\ wf st' /\
    descends d (once (line d r0 c0)) (blocks st) (blocks st').
Proof.
  intros Hwf Hr0 Hc0. unfold process_cell.
  rewrite (grid_get_ok _ _ _ (wf_shape _ Hwf) Hr0 Hc0). simpl.
  assert (Hzero : descends d (once (line d r0 c0)) (blocks st) (blocks st)).
  { eapply descends_weaken; [|apply descends_refl]. intros x; apply Nat.le_0_l. }
  destruct (Z.eqb_spec (cell (playGrid st) r0 c0) 0) as [Hz|Hv].
  { exists st. repeat (split; [first [reflexivity | apply rt_refl | assumption]|]).
    assumption. }
  destruct (slide_run d (dist d r0 c0) st r0 c0 Hwf Hr0 Hc0 Hv (le_n _))
    as (st1 & r & c & Hrun & Hsteps & Hwf1 & Hr & Hc & Hv1 & Hline & Hdesc).
  rewrite Hrun. simpl.
  assert (Hdesc1 : descends d (once (line d r0 c0)) (blocks st) (blocks st1)).
  { eapply descends_weaken; [|exact Hdesc]. intros x; apply Nat.le_0_l. }
  destruct (ahead d r c) as [[r' c']|] eqn:Ha.
  2:{ exists st1. repeat (split; [first [reflexivity | assumption]|]). assumption. }
  destruct (ahead_spec _ _ _ _ _ Ha Hr Hc) as (Hr' & Hc' & _).
  rewrite (grid_get_ok _ _ _ (wf_shape _ Hwf1) Hr' Hc'). simpl.
  rewrite (grid_get_ok _ _ _ (wf_shape _ Hwf1) Hr Hc). simpl.
  destruct (Z.eqb_spec (cell (playGrid st1) r' c') (cell (playGrid st1) r c))
    as [He|Hne].
  2:{ exists st1. repeat (split; [first [reflexivity | assumption]|]). assumption. }
  destruct (merge_step_ok d st1 r c r' c' Hwf1 Hr Hc Ha Hv1 He) as [st' Hs].
  pose proof (merge1_intro d _ st1 st' r c r' c' Hr Hc Hline Ha Hv1 He Hs) as Hm.
  exists st'. split; [exact Hs|]. split; [|split].
  - eapply rt_trans; [exact Hsteps | apply rt_step, (step_merge _ _ _ _ Hm)].
  - eapply merge1_wf; eauto.
  - eapply descends_weaken;
      [|exact (descends_trans _ _ _ _ _ _ Hdesc (merge1_descends _ _ _ _ Hm))].
    intros x; simpl; lia.
Qed.

Lemma for_each_run (d : direction) (cells : list (nat * nat)) :
  forall st, wf st -> Forall in_grid cells ->
  exists st',
    for_each d cells st = Ok st' /\ steps d st st' /\ wf st' /\
    descends d (cells_in_line d cells) (blocks st) (blocks st').
Proof.
  induction cells as [|[r0 c0] rest IH]; intros st Hwf Hcells.
  - exists st. simpl. repeat (split; [first [reflexivity | apply rt_refl | assumption]|]).
    apply descends_refl.
  - inversion Hcells as [|? ? [Hr0 Hc0] Hrest]; subst. simpl in Hr0, Hc0.
    destruct (process_cell_run d st r0 c0 Hwf Hr0 Hc0)
      as (st1 & Hp & Hsteps1 & Hwf1 & Hdesc1).
    destruct (IH st1 Hwf1 Hrest) as (st' & Hf & Hsteps & Hwf' & Hdesc).
    exists st'. cbn [for_each]. rewrite Hp. cbn [bind]. split; [exact Hf|].
    split; [eapply rt_trans; eauto|]. split; [assumption|].
    eapply descends_weaken;
      [|exact (descends_trans _ _ _ _ _ _ Hdesc1 Hdesc)].
    intros x. unfold cells_in_line, once; simpl.
    rewrite (Nat.eqb_sym x). destruct (line d r0 c0 =? x); simpl; lia.
Qed.

Lemma sweep_cells_in_grid (d : direction) : Forall in_grid (sweep_cells d).
Proof.
  destruct d; simpl; repeat constructor.
Qed.

Lemma sweep_cells_in_line (d : direction) (x : nat) :
  cells_in_line d (sweep_cells d) x <= 3.
Proof.
  destruct d; destruct x as [|[|[|[|x]]]]; cbv; lia.
Qed.

Lemma sweep_run (d : direction) (st : Twenty) :
  wf st ->
  exists st',
    sweep d st = Ok st' /\ steps d st st' /\ wf st' /\
    descends d (fun _ => 3) (blocks st) (blocks st').
Proof.
  intros Hwf.
  destruct (for_each_run d (sweep_cells d) st Hwf (sweep_cells_in_grid d))
    as (st' & Hf & Hsteps & Hwf' & Hdesc).
  exists st'. repeat (split; [assumption|]).
  eapply descends_weaken; [|exact Hdesc]. apply sweep_cells_in_line.
Qed.

(** ** The direction argument *)

Lemma bind_ret (A : Type) (m : result A) : bind m (fun x => Ok x) = m.
Proof. destruct m; reflexivity. Qed.

Lemma sweeps_direction (s : string) (st : Twenty) :
  sweeps s st =
  match direction_of s with
  | Some d => sweep d st
  | None => Ok st
  end.
Proof.
  unfold sweeps, direction_of.
  destruct (String.eqb_spec s "up") as [->|H1]; simpl.
  { rewrite bind_ret. reflexivity. }
  destruct (String.eqb_spec s "down") as [->|H2]; simpl.
  { rewrite bind_ret. reflexivity. }
  destruct (String.eqb_spec s "right") as [->|H3]; simpl.
  { rewrite bind_ret. reflexivity. }
  destruct (String.eqb_spec s "left") as [->|H4]; simpl; reflexivity.
Qed.

Lemma valid_direction_of (s : string) :
  valid_direction s <-> exists d, direction_of s = Some d.
Proof.
  unfold valid_direction, direction_of. split.
  - simpl. intros [<-|[<-|[<-|[<-|[]]]]]; simpl; eauto.
  - intros [d Hd].
    destruct (String.eqb_spec s "up") as [->|H1]; [simpl; auto|].
    destruct (String.eqb_spec s "down") as [->|H2]; [simpl; auto|].
    destruct (String.eqb_spec s "right") as [->|H3]; [simpl; auto|].
    destruct (String.eqb_spec s "left") as [->|H4]; [simpl; auto 6|].
    discriminate.
Qed.

(** ** Spawning *)

Lemma scan_empty_spec (g : Grid) (cells : list (nat * nat)) :
  shape g -> Forall in_grid cells ->
  forall acc,
    scan_empty g cells acc =
    Ok (acc ++ filter (fun p => (cell g (fst p) (snd p) =? 0)%Z) cells).
Proof.
  intros Hs. induction cells as [|[r c] rest IH]; intros Hcells acc; simpl.
  - rewrite app_nil_r. reflexivity.
  - inversion Hcells as [|? ? [Hr Hc] Hrest]; subst. simpl in Hr, Hc.
    rewrite (grid_get_ok _ _ _ Hs Hr Hc). simpl. rewrite (IH Hrest).
    destruct (cell g r c =? 0)%Z; [rewrite <- app_assoc|]; reflexivity.
Qed.

Lemma all_cells_In (r c : nat) : In (r, c) all_cells <-> r < 4 /\ c < 4.
Proof.
  unfold all_cells. rewrite in_prod_iff, !in_seq. lia.
Qed.

Lemma all_cells_in_grid : Forall in_grid all_cells.
Proof.
  apply Forall_forall. intros [r c] H. apply all_cells_In in H. exact H.
Qed.

Lemma all_cells_NoDup : NoDup all_cells.
Proof.
  unfold all_cells.
  apply (proj2 (NoDup_nth_error _)). intros i j Hi.
  do 16 (destruct i as [|i]; [do 16 (destruct j as [|j]; [simpl; congruence|]);
                              destruct j; discriminate|]).
  simpl in Hi. lia.
Qed.

Lemma scan_all (g : Grid) :
  shape g -> scan_empty g all_cells [] = Ok (empties g).
Proof.
  intros Hs. apply (scan_empty_spec g all_cells Hs all_cells_in_grid []).
Qed.

Lemma empties_In (g : Grid) (r c : nat) :
  In (r, c) (empties g) <-> r < 4 /\ c < 4 /\ cell g r c = 0%Z.
Proof.
  unfold empties. rewrite filter_In, all_cells_In, Z.eqb_eq. simpl. tauto.
Qed.

Lemma empties_NoDup (g : Grid) : NoDup (empties g).
Proof. apply NoDup_filter, all_cells_NoDup. Qed.

Lemma has_empty_empties (g : Grid) : has_empty g <-> empties g <> [].
Proof.
  split.
  - intros (r & c & H) Hnil.
    apply empties_In in H. rewrite Hnil in H. contradiction.
  - intros H. destruct (empties g) as [|[r c] l] eqn:E; [contradiction|].
    exists r, c. apply empties_In. rewrite E. left; reflexivity.
Qed.

Lemma choice_nil (A : Type) (d : nat) : @choice A [] d = Raise IndexError.
Proof.
  unfold choice. simpl. destruct d; reflexivity.
Qed.

Lemma choice_ok (A : Type) (l : list A) (d : nat) :
  l <> [] ->
  exists x, choice l d = Ok x /\
            nth_error l (d mod List.length l) = Some x /\ In x l.
Proof.
  intros Hl. unfold choice.
  assert (Hlt : d mod List.length l < List.length l).
  { apply Nat.mod_upper_bound. destruct l; [contradiction | discriminate]. }
  destruct (nth_error l (d mod List.length l)) as [x|] eqn:E.
  - exists x. repeat split; auto. eapply nth_error_In; eauto.
  - apply nth_error_None in E. lia.
Qed.

Lemma choice_inv (A : Type) (l : list A) (d : nat) (x : A) :
  choice l d = Ok x -> nth_error l (d mod List.length l) = Some x /\ In x l.
Proof.
  unfold choice. destruct (nth_error l (d mod List.length l)) as [y|] eqn:E;
    [|discriminate].
  intros H; inversion H; subst. split; [reflexivity|].
  eapply nth_error_In; eauto.
Qed.

Lemma spawn_block_full (st : Twenty) (dv dl : nat) :
  shape (playGrid st) -> empties (playGrid st) = [] ->
  spawn_block st dv dl = Raise IndexError.
Proof.
  intros Hs He. unfold spawn_block.
  destruct (choice_ok _ SPAWNABLE dv ltac:(discriminate)) as (v & Hv & _).
  rewrite Hv; cbn [bind]. rewrite (scan_all _ Hs); cbn [bind].
  rewrite He, choice_nil. reflexivity.
Qed.

Lemma spawn_block_ok (st : Twenty) (dv dl : nat) :
  shape (playGrid st) -> empties (playGrid st) <> [] ->
  exists v r c g',
    nth_error SPAWNABLE (dv mod 2) = Some v /\
    nth_error (empties (playGrid st))
      (dl mod List.length (empties (playGrid st))) = Some (r, c) /\
    grid_set (playGrid st) r c v = Ok g' /\
    spawn_block st dv dl =
      Ok (mkTwenty (blocks st ++ [Block.init r c v]) g' (pressed st)).
Proof.
  intros Hs He. unfold spawn_block.
  destruct (choice_ok _ SPAWNABLE dv ltac:(discriminate)) as (v & Hv & Hnv & _).
  destruct (choice_ok _ (empties (playGrid st)) dl He)
    as ([r c] & Hl & Hnl & Hin).
  apply empties_In in Hin. destruct Hin as (Hr & Hc & Hz).
  destruct (grid_set_ok (playGrid st) r c v Hs Hr Hc) as [g' Hg].
  exists v, r, c, g'. split; [exact Hnv|]. split; [exact Hnl|].
  split; [exact Hg|].
  rewrite Hv; cbn [bind]. rewrite (scan_all _ Hs); cbn [bind].
  rewrite Hl; cbn [bind fst snd]. rewrite Hg. reflexivity.
Qed.

Lemma spawn_block_inv (st st' : Twenty) (dv dl : nat) :
  shape (playGrid st) -> spawn_block st dv dl = Ok st' ->
  exists v r c,
    In v SPAWNABLE /\ r < 4 /\ c < 4 /\ cell (playGrid st) r c = 0%Z /\
    grid_set (playGrid st) r c v = Ok (playGrid st') /\
    blocks st' = blocks st ++ [Block.init r c v] /\
    pressed st' = pressed st.
Proof.
  intros Hs H. unfold spawn_block in H.
  bind_inv H. bind_inv H. bind_inv H. bind_inv H.
  inversion H; subst; clear H. simpl.
  rewrite (scan_all _ Hs) in E0. inversion E0; subst; clear E0.
  apply choice_inv in E. apply choice_inv in E1.
  destruct x1 as [r c]. destruct E1 as [_ Hin]. apply empties_In in Hin.
  exists x, r, c. simpl in *. tauto.
Qed.

Lemma spawn_block_wf (st st' : Twenty) (dv dl : nat) :
  wf st -> spawn_block st dv dl = Ok st' -> wf st'.
Proof.
  intros Hwf H.
  destruct (spawn_block_inv _ _ _ _ (wf_shape _ Hwf) H)
    as (v & r & c & Hv & Hr & Hc & Hz & Hg & Hbs & _).
  destruct (grid_set_spec _ _ _ _ _ Hg) as (Hshape & Hcell & _).
  pose proof (wf_free _ _ _ Hwf Hz) as Hfree.
  assert (Hv0 : v <> 0%Z) by (simpl in Hv; lia).
  constructor.
  - apply Hshape, Hwf.
  - rewrite Hbs, map_app. apply NoDup_app.
    + apply Hwf.
    + simpl. constructor; [simpl; tauto | constructor].
    + intros p Hp [<-|[]]. exact (Hfree Hp).
  - intros b Hin. rewrite Hbs in Hin. apply in_app_iff in Hin.
    destruct Hin as [Hin|[<-|[]]].
    + destruct (wf_block _ Hwf b Hin) as (Hbr & Hbc & Hbv & Hbcell).
      repeat split; auto. rewrite Hcell.
      assert (E : (Block.row b =? r) && (Block.col b =? c) = false).
      { apply eqb_pair_false. intros Hq. apply Hfree. rewrite <- Hq.
        apply (in_map Block.pos). assumption. }
      rewrite E. assumption.
    + simpl. repeat split; auto. rewrite Hcell, !Nat.eqb_refl. reflexivity.
  - intros x y Hx Hy Hnz. rewrite Hbs, map_app. apply in_app_iff.
    rewrite Hcell in Hnz.
    destruct ((x =? r) && (y =? c)) eqn:E.
    + apply eqb_pair_true in E. inversion E; subst. right. left. reflexivity.
    + left. apply (wf_cell _ Hwf); assumption.
Qed.

Lemma grid_eqb_eq (g1 g2 : Grid) : grid_eqb g1 g2 = true <-> g1 = g2.
Proof.
  assert (Hline : forall l1 l2, line_eqb l1 l2 = true <-> l1 = l2).
  { induction l1 as [|x t1 IH]; intros [|y t2]; simpl;
      try (split; [discriminate | congruence]); [tauto|].
    rewrite andb_true_iff, Z.eqb_eq, IH.
    split; [intros [-> ->]; reflexivity | intros H; inversion H; auto]. }
  revert g2. induction g1 as [|l1 t1 IH]; intros [|l2 t2]; simpl;
    try (split; [discriminate | congruence]); [tauto|].
  rewrite andb_true_iff, Hline, IH.
  split; [intros [-> ->]; reflexivity | intros H; inversion H; auto].
Qed.

(** ** A whole call of [move] *)

Lemma spawn_block_blocks (st st' : Twenty) (dv dl : nat) :
  spawn_block st dv dl = Ok st' -> exists b, blocks st' = blocks st ++ [b].
Proof.
  unfold spawn_block. intros H.
  bind_inv H. bind_inv H. bind_inv H. bind_inv H.
  inversion H; subst; simpl. eauto.
Qed.

Lemma spawn_block_changes (st : Twenty) (dv dl : nat) :
  spawn_block st dv dl <> Ok st.
Proof.
  intros H. apply spawn_block_blocks in H. destruct H as [b Hb].
  apply (f_equal (@List.length _)) in Hb. rewrite length_app in Hb.
  simpl in Hb. lia.
Qed.

Lemma move_unfold (s : string) (st st1 : Twenty) (dv dl : nat) :
  sweeps s st = Ok st1 ->
  (playGrid st1 = playGrid st -> move s st dv dl = Ok st1) /\
  (playGrid st1 <> playGrid st -> move s st dv dl = spawn_block st1 dv dl).
Proof.
  intros H. unfold move. rewrite H. cbn [bind].
  destruct (grid_eqb (playGrid st) (playGrid st1)) eqn:E; simpl.
  - apply grid_eqb_eq in E. split; [reflexivity | congruence].
  - split; [|reflexivity]. intros Heq. symmetry in Heq.
    apply grid_eqb_eq in Heq. congruence.
Qed.

Lemma grid_eq_dec (g1 g2 : Grid) : g1 = g2 \/ g1 <> g2.
Proof.
  destruct (grid_eqb g1 g2) eqn:E.
  - left. apply grid_eqb_eq. exact E.
  - right. intros H. apply grid_eqb_eq in H. congruence.
Qed.

Lemma move_run (s : string) (d : direction) (st : Twenty) (dv dl : nat) :
  wf st -> direction_of s = Some d ->
  exists st1,
    sweeps s st = Ok st1 /\ steps d st st1 /\ wf st1 /\
    descends d (fun _ => 3) (blocks st) (blocks st1) /\
    grid_sum (playGrid st1) = grid_sum (playGrid st) /\
    ((st1 = st /\ move s st dv dl = Ok st) \/
     (playGrid st1 <> playGrid st /\ has_empty (playGrid st1) /\
      exists st', spawn_block st1 dv dl = Ok st' /\
                  move s st dv dl = Ok st' /\ wf st')).
Proof.
  intros Hwf Hd.
  destruct (sweep_run d st Hwf) as (st1 & Hsw & Hsteps & Hwf1 & Hdesc).
  assert (Hsweeps : sweeps s st = Ok st1)
    by (rewrite sweeps_direction, Hd; exact Hsw).
  destruct (steps_grid _ _ _ Hsteps) as [Hsum Hcases].
  destruct (move_unfold s st st1 dv dl Hsweeps) as [Hsame Hdiff].
  exists st1. do 5 (split; [assumption|]).
  destruct (grid_eq_dec (playGrid st1) (playGrid st)) as [Heq|Hne].
  - left. destruct Hcases as [->|[Hpot _]]; [auto|].
    rewrite Heq in Hpot. lia.
  - right. destruct Hcases as [->|[_ Hempty]]; [congruence|].
    split; [assumption|]. split; [assumption|].
    destruct (spawn_block_ok st1 dv dl (wf_shape _ Hwf1)
                (proj1 (has_empty_empties _) Hempty))
      as (v & r & c & g' & _ & _ & _ & Hsp).
    eexists. split; [exact Hsp|]. split; [rewrite Hdiff; assumption|].
    eapply spawn_block_wf; eauto.
Qed.

(** ** Soundness of the decision procedure *)

Lemma nodupb_NoDup (l : list (nat * nat)) : nodupb l = true -> NoDup l.
Proof.
  induction l as [|[r c] t IH]; simpl; intros H; [constructor|].
  apply andb_true_iff in H. destruct H as [H1 H2].
  constructor; [|auto]. intros Hin.
  apply negb_true_iff in H1.
  assert (Hex : existsb (fun q => (fst q =? r) && (snd q =? c)) t = true).
  { apply existsb_exists. exists (r, c). simpl. rewrite !Nat.eqb_refl. auto. }
  congruence.
Qed.

Lemma wf_check_sound (st : Twenty) : wf_check st = true -> consistent st.
Proof.
  unfold wf_check. rewrite !andb_true_iff.
  intros [[[[H1 H2] H3] H4] H5]. apply wf_consistent. constructor.
  - split; [apply Nat.eqb_eq; assumption|].
    apply Forall_forall. intros l Hl. rewrite forallb_forall in H2.
    apply Nat.eqb_eq, H2, Hl.
  - apply nodupb_NoDup. assumption.
  - intros b Hb. rewrite forallb_forall in H4. specialize (H4 b Hb).
    rewrite !andb_true_iff, !Nat.ltb_lt, negb_true_iff, Z.eqb_neq, Z.eqb_eq in H4.
    tauto.
  - intros r c Hr Hc Hnz. rewrite forallb_forall in H5.
    specialize (H5 (r, c) (proj2 (all_cells_In r c) (conj Hr Hc))).
    simpl in H5. apply orb_true_iff in H5. destruct H5 as [H5|H5].
    + apply Z.eqb_eq in H5. contradiction.
    + apply existsb_exists in H5. destruct H5 as (b & Hb & Hat).
      apply at_pos_true in Hat. rewrite <- Hat. apply in_map. assumption.
Qed.

Lemma stB_consistent : consistent stB.
Proof. apply wf_check_sound. reflexivity. Qed.

Lemma stN_consistent : consistent stN.
Proof. apply wf_check_sound. reflexivity. Qed.

Lemma valid_left : valid_direction "left".
Proof. unfold valid_direction; simpl; tauto. Qed.

(** ** The engine on a few boards *)

Example scenario_A_left :
  sweeps "left" stA =
  Ok (mkTwenty [Block.mk 0 0 4 true false 1]
        [[4; 0; 0; 0]; [0; 0; 0; 0]; [0; 0; 0; 0]; [0; 0; 0; 0]]%Z []).
Proof. reflexivity. Qed.

Example scenario_C_stuck :
  consistent stC /\
  move "up" stC 0 0 = Ok stC /\ move "down" stC 0 0 = Ok stC /\
  move "left" stC 0 0 = Ok stC /\ move "right" stC 0 0 = Ok stC /\
  spawn_block stC 0 0 = Raise IndexError.
Proof.
  split; [apply wf_check_sound; reflexivity|].
  repeat split; reflexivity.
Qed.

Example column_down :
  sweeps "down" stD =
  Ok (mkTwenty [Block.mk 3 1 8 true false 2]
        [[0; 0; 0; 0]; [0; 0; 0; 0]; [0; 0; 0; 0]; [0; 8; 0; 0]]%Z []).
Proof. reflexivity. Qed.

Example column_up :
  sweeps "up" stD =
  Ok (mkTwenty [Block.mk 0 1 4 false false 0; Block.mk 1 1 4 true false 1]
        [[0; 4; 0; 0]; [0; 4; 0; 0]; [0; 0; 0; 0]; [0; 0; 0; 0]]%Z []).
Proof. reflexivity. Qed.

Example scenario_B_right :
  sweeps "right" stB =
  Ok (mkTwenty [Block.mk 0 2 4 true false 1; Block.mk 0 3 4 false false 0]
        [[0; 0; 4; 4]; [0; 0; 0; 0]; [0; 0; 0; 0]; [0; 0; 0; 0]]%Z []).
Proof. reflexivity. Qed.

(** ** Properties of the engine *)

(** C5.  In every call of [move] the spawn runs exactly when the grid left
    by the sweep differs from the grid captured on entry.  The two grids are
    compared cell by cell ([grid_eqb] decides their equality); when they are
    equal the call returns the state left by the sweep, when they differ it
    returns what [spawn_block] returns on that state, and the two outcomes
    are never the same. *)
Theorem spawn_iff_grid_changed (s : string) (st st1 : Twenty) (dv dl : nat) :
  sweeps s st = Ok st1 ->
  (move s st dv dl = spawn_block st1 dv dl <-> playGrid st1 <> playGrid st) /\
  (move s st dv dl = Ok st1 <-> playGrid st1 = playGrid st) /\
  (grid_eqb (playGrid st) (playGrid st1) = true <-> playGrid st1 = playGrid st).
Proof.
  intros H. destruct (move_unfold s st st1 dv dl H) as [Hsame Hdiff].
  pose proof (spawn_block_changes st1 dv dl) as Hch.
  split; [|split].
  - split; [|exact Hdiff]. intros Hm Heq. apply Hch.
    rewrite <- Hm. apply Hsame. assumption.
  - split; [|exact Hsame]. intros Hm.
    destruct (grid_eq_dec (playGrid st1) (playGrid st)) as [Heq|Hne];
      [assumption|].
    exfalso. apply Hch. rewrite <- (Hdiff Hne). assumption.
  - rewrite grid_eqb_eq. split; congruence.
Qed.

Lemma spawn_iff_grid_changed_witness :
  sweeps "left" stN = Ok stN /\
  (move "left" stN 0 0 = spawn_block stN 0 0 <-> playGrid stN <> playGrid stN) /\
  (move "left" stN 0 0 = Ok stN <-> playGrid stN = playGrid stN) /\
  (grid_eqb (playGrid stN) (playGrid stN) = true <-> playGrid stN = playGrid stN).
Proof.
  split; [reflexivity|].
  apply (spawn_iff_grid_changed "left" stN stN 0 0). reflexivity.
Defined.

(** C6.  A move in a valid direction that leaves the grid of a consistent
    state as it was returns the very state it started from: the sweep changed
    nothing, so the comparison with the captured grid does not call
    [spawn_block], and every block keeps its row, column and value. *)
Theorem noop_move_unchanged (s : string) (st st' : Twenty) (dv dl : nat) :
  consistent st -> valid_direction s ->
  move s st dv dl = Ok st' -> playGrid st' = playGrid st ->
  st' = st /\ sweeps s st = Ok st /\ blocks st' = blocks st.
Proof.
  intros Hc Hs Hm Hg. apply wf_consistent in Hc.
  apply valid_direction_of in Hs. destruct Hs as [d Hd].
  destruct (move_run s d st dv dl Hc Hd)
    as (st1 & Hsw & _ & Hwf1 & _ & Hsum & [[-> Hmv]|(Hne & _ & st2 & Hsp & Hmv & _)]).
  - rewrite Hmv in Hm. inversion Hm; subst. auto.
  - exfalso. rewrite Hmv in Hm. inversion Hm; subst st2.
    destruct (spawn_block_inv _ _ _ _ (wf_shape _ Hwf1) Hsp)
      as (v & r & c & Hv & Hr & Hcc & Hz & Hset & _).
    destruct (grid_set_spec _ _ _ _ _ Hset) as (_ & _ & Hsum').
    rewrite Hg, Hz, Hsum in Hsum'. simpl in Hv. lia.
Qed.

Lemma noop_move_unchanged_witness :
  consistent stN /\ valid_direction "left" /\
  move "left" stN 0 0 = Ok stN /\ playGrid stN = playGrid stN /\
  stN = stN /\ sweeps "left" stN = Ok stN /\ blocks stN = blocks stN.
Proof.
  split; [exact stN_consistent|]. split; [exact valid_left|].
  split; [reflexivity|]. split; [reflexivity|].
  apply (noop_move_unchanged "left" stN stN 0 0
           stN_consistent valid_left eq_refl eq_refl).
Defined.

(** C7 as amended.  A direction other than the four named ones is not
    rejected: none of the four blocks of [move] runs, the grid equals the
    captured one, and the call returns the state unchanged, for every
    state. *)
Theorem move_unknown_direction (s : string) (st : Twenty) (dv dl : nat) :
  ~ valid_direction s -> move s st dv dl = Ok st.
Proof.
  intros Hs.
  assert (Hd : direction_of s = None).
  { destruct (direction_of s) as [d|] eqn:E; [|reflexivity].
    exfalso. apply Hs, valid_direction_of. eauto. }
  assert (Hsw : sweeps s st = Ok st) by (rewrite sweeps_direction, Hd; reflexivity).
  apply (move_unfold s st st dv dl Hsw). reflexivity.
Qed.

Lemma sideways_invalid : ~ valid_direction "sideways".
Proof.
  unfold valid_direction; simpl. intros [H|[H|[H|[H|[]]]]]; discriminate.
Qed.

Lemma move_unknown_direction_witness :
  ~ valid_direction "sideways" /\ move "sideways" stB 0 0 = Ok stB.
Proof.
  split; [exact sideways_invalid|].
  apply (move_unknown_direction "sideways" stB 0 0 sideways_invalid).
Defined.

(** C7, counterexample.  [move] called with ["sideways"] on the board of
    scenario B raises nothing and returns the board. *)
Lemma move_sideways_returns :
  ~ valid_direction "sideways" /\
  move "sideways" stB 0 0 = Ok stB /\
  ~ (exists e, move "sideways" stB 0 0 = Raise e).
Proof.
  split; [exact sideways_invalid|]. split; [reflexivity|].
  intros [e He]. vm_compute in He. discriminate.
Qed.

(** C10.  When the sweep of a move in a valid direction has changed the grid
    of a consistent state, the grid has an empty cell: the list of candidates
    that [spawn_block] builds is not empty, the choice among them cannot
    fail, and the spawn returns a state. *)
Theorem spawn_after_sweep_has_room (s : string) (st st1 : Twenty) :
  consistent st -> valid_direction s ->
  sweeps s st = Ok st1 -> playGrid st1 <> playGrid st ->
  has_empty (playGrid st1) /\
  (exists acc, scan_empty (playGrid st1) all_cells [] = Ok acc /\ acc <> []) /\
  (forall dv dl, exists st', spawn_block st1 dv dl = Ok st').
Proof.
  intros Hc Hs Hsw Hne. apply wf_consistent in Hc.
  apply valid_direction_of in Hs. destruct Hs as [d Hd].
  destruct (move_run s d st 0 0 Hc Hd)
    as (st2 & Hsw2 & _ & Hwf1 & _ & _ & Hcases).
  rewrite Hsw in Hsw2. inversion Hsw2; subst st2; clear Hsw2.
  destruct Hcases as [[-> _]|(_ & Hempty & _)]; [congruence|].
  pose proof (proj1 (has_empty_empties _) Hempty) as Hacc.
  split; [assumption|]. split.
  - exists (empties (playGrid st1)). split; [|assumption].
    apply scan_all, Hwf1.
  - intros dv dl.
    destruct (spawn_block_ok st1 dv dl (wf_shape _ Hwf1) Hacc)
      as (v & r & c & g' & _ & _ & _ & Hsp).
    eauto.
Qed.

Lemma spawn_after_sweep_has_room_witness :
  consistent stB /\ valid_direction "left" /\
  sweeps "left" stB = Ok stB_left /\ playGrid stB_left <> playGrid stB /\
  has_empty (playGrid stB_left) /\
  (exists acc, scan_empty (playGrid stB_left) all_cells [] = Ok acc /\ acc <> []) /\
  (forall dv dl, exists st', spawn_block stB_left dv dl = Ok st').
Proof.
  assert (Hne : playGrid stB_left <> playGrid stB) by (simpl; discriminate).
  split; [exact stB_consistent|]. split; [exact valid_left|].
  split; [reflexivity|]. split; [exact Hne|].
  apply (spawn_after_sweep_has_room "left" stB stB_left
           stB_consistent valid_left eq_refl Hne).
Defined.

(** C4.  The sweep of a move in a valid direction keeps the sum of the grid
    of a consistent state.  The whole call returns a state; when the sweep
    changed the grid that state has one more block, of value 2 or 4, and its
    grid sums to the old sum plus that value; when the sweep changed nothing
    the sum is the old one. *)
Theorem move_grid_sum (s : string) (st : Twenty) (dv dl : nat) :
  consistent st -> valid_direction s ->
  exists st1 st',
    sweeps s st = Ok st1 /\ move s st dv dl = Ok st' /\
    grid_sum (playGrid st1) = grid_sum (playGrid st) /\
    ((playGrid st1 <> playGrid st /\
      exists r c v,
        blocks st' = blocks st1 ++ [Block.init r c v] /\
        (v = 2 \/ v = 4)%Z /\
        grid_sum (playGrid st') = (grid_sum (playGrid st) + v)%Z) \/
     (playGrid st1 = playGrid st /\
      grid_sum (playGrid st') = grid_sum (playGrid st))).
Proof.
  intros Hc Hs. apply wf_consistent in Hc.
  apply valid_direction_of in Hs. destruct Hs as [d Hd].
  destruct (move_run s d st dv dl Hc Hd)
    as (st1 & Hsw & _ & Hwf1 & _ & Hsum & [[-> Hmv]|(Hne & _ & st' & Hsp & Hmv & _)]).
  - exists st, st. repeat (split; [assumption|]). right. auto.
  - exists st1, st'. repeat (split; [assumption|]). left. split; [assumption|].
    destruct (spawn_block_inv _ _ _ _ (wf_shape _ Hwf1) Hsp)
      as (v & r & c & Hv & Hr & Hcc & Hz & Hset & Hbs & _).
    destruct (grid_set_spec _ _ _ _ _ Hset) as (_ & _ & Hsum').
    exists r, c, v. split; [assumption|]. split.
    + simpl in Hv. destruct Hv as [<-|[<-|[]]]; auto.
    + rewrite Hsum', Hz, Hsum. ring.
Qed.

Lemma move_grid_sum_witness :
  consistent stB /\ valid_direction "left" /\
  exists st1 st',
    sweeps "left" stB = Ok st1 /\ move "left" stB 1 3 = Ok st' /\
    grid_sum (playGrid st1) = grid_sum (playGrid stB) /\
    ((playGrid st1 <> playGrid stB /\
      exists r c v,
        blocks st' = blocks st1 ++ [Block.init r c v] /\
        (v = 2 \/ v = 4)%Z /\
        grid_sum (playGrid st') = (grid_sum (playGrid stB) + v)%Z) \/
     (playGrid st1 = playGrid stB /\
      grid_sum (playGrid st') = grid_sum (playGrid stB))).
Proof.
  split; [exact stB_consistent|]. split; [exact valid_left|].
  apply (move_grid_sum "left" stB 1 3 stB_consistent valid_left).
Defined.

(** ** A fresh game *)

Lemma st0_cell (x y : nat) : cell (playGrid st0) x y = 0%Z.
Proof.
  unfold cell.
  destruct x as [|[|[|[|[|x]]]]]; destruct y as [|[|[|[|[|y]]]]];
    reflexivity.
Qed.

Lemma filter_length_zsum (A : Type) (f : A -> bool) (l : list A) :
  Z.of_nat (List.length (filter f l)) =
  zsum (map (fun x => if f x then 1%Z else 0%Z) l).
Proof.
  induction l as [|x t IH]; [reflexivity|].
  cbn [filter map zsum]. destruct (f x); cbn [List.length];
    rewrite ?Nat2Z.inj_succ; lia.
Qed.

Lemma empties_length_csum (g : Grid) :
  Z.of_nat (List.length (empties g)) =
  csum (fun _ _ v => if (v =? 0)%Z then 1%Z else 0%Z) g.
Proof.
  unfold empties, csum. apply filter_length_zsum.
Qed.

(** Writing a non-zero value into an empty cell leaves one empty cell less. *)
Lemma empties_length_set (g g' : Grid) (r c : nat) (v : Z) :
  r < 4 -> c < 4 -> cell g r c = 0%Z -> v <> 0%Z ->
  grid_set g r c v = Ok g' ->
  S (List.length (empties g')) = List.length (empties g).
Proof.
  intros Hr Hc Hz Hv H.
  pose proof (csum_set (fun _ _ v => if (v =? 0)%Z then 1%Z else 0%Z)
                _ _ _ _ _ Hr Hc H) as Hs.
  rewrite <- !empties_length_csum in Hs. rewrite Hz in Hs. simpl in Hs.
  destruct (Z.eqb_spec v 0); [contradiction|]. lia.
Qed.

Lemma init_run (dv1 dl1 dv2 dl2 : nat) :
  exists v1 r1 c1 v2 r2 c2 st,
    init dv1 dl1 dv2 dl2 = Ok st /\
    blocks st = [Block.init r1 c1 v1; Block.init r2 c2 v2] /\
    In v1 SPAWNABLE /\ In v2 SPAWNABLE /\
    r1 < 4 /\ c1 < 4 /\ r2 < 4 /\ c2 < 4 /\ (r1, c1) <> (r2, c2) /\
    (forall x y, cell (playGrid st) x y =
       if (x =? r2) && (y =? c2) then v2
       else if (x =? r1) && (y =? c1) then v1 else 0%Z) /\
    List.length (empties (playGrid st)) = 14 /\
    wf st.
Proof.
  assert (Hwf0 : wf st0) by (apply wf_consistent, wf_check_sound; reflexivity).
  assert (He0 : empties (playGrid st0) <> []) by (vm_compute; discriminate).
  destruct (spawn_block_ok st0 dv1 dl1 (wf_shape _ Hwf0) He0)
    as (v1 & r1 & c1 & g1 & Hv1 & Hl1 & Hg1 & Hsp1).
  apply nth_error_In in Hv1. apply nth_error_In in Hl1.
  apply empties_In in Hl1. destruct Hl1 as (Hr1 & Hc1 & Hz1).
  pose proof (spawn_block_wf _ _ _ _ Hwf0 Hsp1) as Hwf1.
  destruct (grid_set_spec _ _ _ _ _ Hg1) as (_ & Hcell1 & _).
  assert (Hv1' : v1 <> 0%Z) by (simpl in Hv1; lia).
  pose proof (empties_length_set _ _ _ _ _ Hr1 Hc1 Hz1 Hv1' Hg1) as Hlen1.
  assert (He1 : empties g1 <> []).
  { intros Hnil. rewrite Hnil in Hlen1. vm_compute in Hlen1. discriminate. }
  destruct (spawn_block_ok _ dv2 dl2 (wf_shape _ Hwf1) He1)
    as (v2 & r2 & c2 & g2 & Hv2 & Hl2 & Hg2 & Hsp2).
  simpl in Hv2, Hl2, Hg2.
  apply nth_error_In in Hv2. apply nth_error_In in Hl2.
  apply empties_In in Hl2. destruct Hl2 as (Hr2 & Hc2 & Hz2).
  pose proof (spawn_block_wf _ _ _ _ Hwf1 Hsp2) as Hwf2.
  destruct (grid_set_spec _ _ _ _ _ Hg2) as (_ & Hcell2 & _).
  assert (Hv2' : v2 <> 0%Z) by (simpl in Hv2; lia).
  pose proof (empties_length_set _ _ _ _ _ Hr2 Hc2 Hz2 Hv2' Hg2) as Hlen2.
  exists v1, r1, c1, v2, r2, c2. eexists.
  split.
  { unfold init. fold st0. rewrite Hsp1. cbn [bind]. exact Hsp2. }
  simpl. split; [reflexivity|].
  repeat (split; [assumption|]).
  split.
  { intros Heq. inversion Heq; subst.
    rewrite Hcell1, !Nat.eqb_refl in Hz2. simpl in Hz2. contradiction. }
  split.
  { intros x y. rewrite Hcell2, Hcell1, st0_cell. reflexivity. }
  split; [|exact Hwf2].
  assert (H16 : List.length (empties (playGrid st0)) = 16) by reflexivity.
  rewrite H16 in Hlen1. lia.
Qed.

(** C9.  A fresh game, whatever the four random draws, is a state with
    exactly two registered tiles, each of value 2 or 4, at two distinct
    positions of the grid; the grid holds their values there and 0 in the
    fourteen other cells. *)
Theorem fresh_game_two_tiles (dv1 dl1 dv2 dl2 : nat) :
  exists st b1 b2,
    init dv1 dl1 dv2 dl2 = Ok st /\
    blocks st = [b1; b2] /\
    (Block.val b1 = 2 \/ Block.val b1 = 4)%Z /\
    (Block.val b2 = 2 \/ Block.val b2 = 4)%Z /\
    Block.pos b1 <> Block.pos b2 /\
    in_grid (Block.pos b1) /\ in_grid (Block.pos b2) /\
    shape (playGrid st) /\
    cell (playGrid st) (Block.row b1) (Block.col b1) = Block.val b1 /\
    cell (playGrid st) (Block.row b2) (Block.col b2) = Block.val b2 /\
    (forall r c, (r, c) <> Block.pos b1 -> (r, c) <> Block.pos b2 ->
       cell (playGrid st) r c = 0%Z) /\
    List.length (empties (playGrid st)) = 14.
Proof.
  destruct (init_run dv1 dl1 dv2 dl2)
    as (v1 & r1 & c1 & v2 & r2 & c2 & st & Hinit & Hbs & Hv1 & Hv2 &
        Hr1 & Hc1 & Hr2 & Hc2 & Hne & Hcell & Hlen & Hwf).
  assert (Hval : forall v, In v SPAWNABLE -> (v = 2 \/ v = 4)%Z).
  { simpl. intros v [<-|[<-|[]]]; auto. }
  exists st, (Block.init r1 c1 v1), (Block.init r2 c2 v2).
  unfold Block.pos, in_grid; simpl.
  split; [assumption|]. split; [assumption|].
  split; [auto|]. split; [auto|]. split; [assumption|].
  split; [auto|]. split; [auto|]. split; [apply Hwf|].
  split.
  { rewrite Hcell, !Nat.eqb_refl. simpl.
    rewrite (proj2 (eqb_pair_false r1 c1 r2 c2) Hne). reflexivity. }
  split.
  { rewrite Hcell, !Nat.eqb_refl. reflexivity. }
  split; [|assumption].
  intros r c H1 H2. rewrite Hcell.
  rewrite (proj2 (eqb_pair_false r c r2 c2) H2).
  rewrite (proj2 (eqb_pair_false r c r1 c1) H1). reflexivity.
Qed.

(** C3.  The consistency invariant holds in every fresh game, is kept by
    every spawn that returns, and is kept by every move in a valid
    direction, which always returns. *)
Theorem consistency_preserved :
  (forall dv1 dl1 dv2 dl2,
     exists st, init dv1 dl1 dv2 dl2 = Ok st /\ consistent st) /\
  (forall st dv dl st',
     consistent st -> spawn_block st dv dl = Ok st' -> consistent st') /\
  (forall st s dv dl,
     consistent st -> valid_direction s ->
     exists st', move s st dv dl = Ok st' /\ consistent st').
Proof.
  split; [|split].
  - intros dv1 dl1 dv2 dl2.
    destruct (init_run dv1 dl1 dv2 dl2)
      as (v1 & r1 & c1 & v2 & r2 & c2 & st & Hinit &
          _ & _ & _ & _ & _ & _ & _ & _ & _ & _ & Hwf).
    exists st. split; [assumption|]. apply wf_consistent. exact Hwf.
  - intros st dv dl st' Hc Hsp. apply wf_consistent.
    apply wf_consistent in Hc. eapply spawn_block_wf; eauto.
  - intros st s dv dl Hc Hs. apply wf_consistent in Hc.
    apply valid_direction_of in Hs. destruct Hs as [d Hd].
    destruct (move_run s d st dv dl Hc Hd)
      as (st1 & _ & _ & _ & _ & _ & [[-> Hmv]|(_ & _ & st' & _ & Hmv & Hwf')]).
    + exists st. split; [assumption|]. apply wf_consistent. assumption.
    + exists st'. split; [assumption|]. apply wf_consistent. assumption.
Qed.

Lemma consistency_preserved_witness :
  consistent stB /\ valid_direction "left" /\
  exists st', move "left" stB 1 3 = Ok st' /\ consistent st'.
Proof.
  split; [exact stB_consistent|]. split; [exact valid_left|].
  apply (proj2 (proj2 consistency_preserved) stB "left"%string 1 3
           stB_consistent valid_left).
Defined.

Lemma NoDup_index_unique (A : Type) (l : list A) (i j : nat) (x : A) :
  NoDup l -> nth_error l i = Some x -> nth_error l j = Some x -> i = j.
Proof.
  intros Hnd Hi Hj. apply (proj1 (NoDup_nth_error l) Hnd).
  - apply nth_error_Some. congruence.
  - congruence.
Qed.

(** C8.  On a 4 by 4 grid without an empty cell [spawn_block] fails, with
    the [IndexError] that [random.choice] raises on the empty list of
    candidates (the failure the specification calls GridFull).  With an empty
    cell it returns: it has put a value of [SPAWNABLE] into an empty cell,
    changed no other cell and appended exactly one block for that cell.  The
    choice is uniform: for every empty cell and every value of [SPAWNABLE],
    exactly one pair of indices, below 2 and below the number of empty cells,
    makes [spawn_block] put that value into that cell. *)
Theorem spawn_block_spec (st : Twenty) :
  shape (playGrid st) ->
  (~ has_empty (playGrid st) ->
   forall dv dl, spawn_block st dv dl = Raise IndexError) /\
  (has_empty (playGrid st) ->
   forall dv dl, exists r c v g',
     r < 4 /\ c < 4 /\ cell (playGrid st) r c = 0%Z /\ (v = 2 \/ v = 4)%Z /\
     spawn_block st dv dl = Ok (spawned st r c v g') /\
     cell g' r c = v /\
     (forall x y, (x, y) <> (r, c) -> cell g' x y = cell (playGrid st) x y)) /\
  (forall r c v,
     r < 4 -> c < 4 -> cell (playGrid st) r c = 0%Z -> (v = 2 \/ v = 4)%Z ->
     exists g' iv il,
       grid_set (playGrid st) r c v = Ok g' /\
       iv < 2 /\ il < List.length (empties (playGrid st)) /\
       spawn_block st iv il = Ok (spawned st r c v g') /\
       (forall jv jl g'',
          jv < 2 -> jl < List.length (empties (playGrid st)) ->
          spawn_block st jv jl = Ok (spawned st r c v g'') ->
          jv = iv /\ jl = il)).
Proof.
  intros Hs. split; [|split].
  - intros Hfull dv dl. apply spawn_block_full; [assumption|].
    destruct (empties (playGrid st)) eqn:E; [reflexivity|].
    exfalso. apply Hfull, has_empty_empties. rewrite E. discriminate.
  - intros Hroom dv dl.
    destruct (spawn_block_ok st dv dl Hs (proj1 (has_empty_empties _) Hroom))
      as (v & r & c & g' & Hv & Hl & Hg & Hsp).
    apply nth_error_In in Hv. apply nth_error_In in Hl.
    apply empties_In in Hl. destruct Hl as (Hr & Hc & Hz).
    destruct (grid_set_spec _ _ _ _ _ Hg) as (_ & Hcell & _).
    exists r, c, v, g'. repeat (split; [assumption|]).
    split; [simpl in Hv; destruct Hv as [<-|[<-|[]]]; auto|].
    split; [exact Hsp|]. split.
    + rewrite Hcell, !Nat.eqb_refl. reflexivity.
    + intros x y Hxy. rewrite Hcell.
      rewrite (proj2 (eqb_pair_false x y r c) Hxy). reflexivity.
  - intros r c v Hr Hc Hz Hv.
    assert (Hin : In (r, c) (empties (playGrid st)))
      by (apply empties_In; auto).
    assert (Hne : empties (playGrid st) <> [])
      by (intros E; rewrite E in Hin; contradiction).
    destruct (In_nth_error _ _ Hin) as [il Hil].
    assert (Hil' : il < List.length (empties (playGrid st)))
      by (apply nth_error_Some; congruence).
    assert (Hiv : exists iv, iv < 2 /\ nth_error SPAWNABLE iv = Some v).
    { destruct Hv as [->| ->]; [exists 0 | exists 1]; split; auto. }
    destruct Hiv as (iv & Hiv' & Hiv).
    assert (Hspawn : forall jv jl r' c' v',
      jv < 2 -> jl < List.length (empties (playGrid st)) ->
      forall g2, spawn_block st jv jl = Ok (spawned st r' c' v' g2) ->
      nth_error SPAWNABLE jv = Some v' /\
      nth_error (empties (playGrid st)) jl = Some (r', c') /\
      grid_set (playGrid st) r' c' v' = Ok g2).
    { intros jv jl r' c' v' Hjv Hjl g2 Hsp.
      destruct (spawn_block_ok st jv jl Hs Hne)
        as (v2 & r2 & c2 & g3 & Hv2 & Hl2 & Hg2 & Hsp2).
      rewrite Hsp2 in Hsp. inversion Hsp as [[Hb Hgg]].
      apply app_inj_tail in Hb. destruct Hb as [_ Hb].
      inversion Hb; subst.
      rewrite Nat.mod_small in Hv2 by exact Hjv.
      rewrite Nat.mod_small in Hl2 by exact Hjl. auto. }
    destruct (spawn_block_ok st iv il Hs Hne)
      as (v2 & r2 & c2 & g' & Hv2 & Hl2 & Hg2 & Hsp2).
    rewrite Nat.mod_small in Hv2 by exact Hiv'.
    rewrite Nat.mod_small in Hl2 by exact Hil'.
    assert (v2 = v) by congruence. assert ((r2, c2) = (r, c)) as Hp by congruence.
    inversion Hp; subst.
    exists g', iv, il. repeat (split; [assumption|]).
    intros jv jl g'' Hjv Hjl Hsp.
    destruct (Hspawn jv jl r c v Hjv Hjl g'' Hsp) as (Hjv' & Hjl' & _).
    split.
    + apply (NoDup_index_unique _ SPAWNABLE jv iv v); auto.
      repeat constructor; simpl; intuition discriminate.
    + apply (NoDup_index_unique _ (empties (playGrid st)) jl il (r, c)); auto.
      apply empties_NoDup.
Qed.

Lemma spawn_block_spec_witness :
  shape (playGrid stB) /\
  (has_empty (playGrid stB) ->
   forall dv dl, exists r c v g',
     r < 4 /\ c < 4 /\ cell (playGrid stB) r c = 0%Z /\ (v = 2 \/ v = 4)%Z /\
     spawn_block stB dv dl = Ok (spawned stB r c v g') /\
     cell g' r c = v /\
     (forall x y, (x, y) <> (r, c) -> cell g' x y = cell (playGrid stB) x y)).
Proof.
  assert (Hs : shape (playGrid stB)) by (split; repeat constructor).
  split; [exact Hs|]. apply (proj1 (proj2 (spawn_block_spec stB Hs))).
Defined.

(** ** The sweep and the grid alone *)

Lemma slide_step_grid (st st' : Twenty) (r c r' c' : nat) :
  slide_step st r c r' c' = Ok st' ->
  gslide_step (playGrid st) r c r' c' = Ok (playGrid st').
Proof.
  unfold slide_step, gslide_step. intros H.
  bind_inv H. bind_inv H. bind_inv H. bind_inv H.
  inversion H; subst; simpl. rewrite E; cbn [bind]. rewrite E0; cbn [bind].
  assumption.
Qed.

Lemma merge_step_grid (st st' : Twenty) (r c r' c' : nat) :
  merge_step st r c r' c' = Ok st' ->
  gmerge_step (playGrid st) r c r' c' = Ok (playGrid st').
Proof.
  unfold merge_step, gmerge_step. intros H.
  bind_inv H. bind_inv H. bind_inv H. bind_inv H. bind_inv H. bind_inv H.
  inversion H; subst; simpl. rewrite E; cbn [bind]. rewrite E0; cbn [bind].
  assumption.
Qed.

Lemma slide_grid (d : direction) (fuel : nat) :
  forall st r c st1 r1 c1,
    slide fuel d st r c = Ok (st1, r1, c1) ->
    gslide fuel d (playGrid st) r c = Ok (playGrid st1, r1, c1).
Proof.
  induction fuel as [|fuel IH]; intros st r c st1 r1 c1 H; simpl in *;
    destruct (ahead d r c) as [[r' c']|]; try (inversion H; subst; reflexivity).
  - bind_inv H. rewrite E; cbn [bind].
    destruct (x =? 0)%Z; [discriminate | inversion H; subst; reflexivity].
  - bind_inv H. rewrite E; cbn [bind].
    destruct (x =? 0)%Z; [|inversion H; subst; reflexivity].
    bind_inv H. rewrite (slide_step_grid _ _ _ _ _ _ E0); cbn [bind].
    apply IH. assumption.
Qed.

Lemma process_cell_grid (d : direction) (st st' : Twenty) (p : nat * nat) :
  process_cell d st p = Ok st' ->
  gprocess d (playGrid st) p = Ok (playGrid st').
Proof.
  destruct p as [r0 c0]. unfold process_cell, gprocess. intros H.
  bind_inv H. rewrite E; cbn [bind].
  destruct (x =? 0)%Z; [inversion H; subst; reflexivity|].
  bind_inv H. destruct x0 as [[st1 r] c].
  rewrite (slide_grid _ _ _ _ _ _ _ _ E0); cbn [bind].
  destruct (ahead d r c) as [[r' c']|]; [|inversion H; subst; reflexivity].
  bind_inv H. rewrite E1; cbn [bind]. bind_inv H. rewrite E2; cbn [bind].
  destruct (x0 =? x1)%Z; [|inversion H; subst; reflexivity].
  apply merge_step_grid. assumption.
Qed.

Lemma for_each_grid (d : direction) (cells : list (nat * nat)) :
  forall st st', for_each d cells st = Ok st' ->
                 gfor_each d cells (playGrid st) = Ok (playGrid st').
Proof.
  induction cells as [|p rest IH]; intros st st' H; cbn [for_each gfor_each] in *.
  - inversion H; subst; reflexivity.
  - bind_inv H. rewrite (process_cell_grid _ _ _ _ E); cbn [bind]. auto.
Qed.

Lemma gfor_each_app (d : direction) (l1 l2 : list (nat * nat)) (g g' : Grid) :
  gfor_each d (l1 ++ l2) g = Ok g' ->
  exists g1, gfor_each d l1 g = Ok g1 /\ gfor_each d l2 g1 = Ok g'.
Proof.
  revert g. induction l1 as [|p l1 IH]; intros g H; simpl in *.
  - eauto.
  - bind_inv H. rewrite E; cbn [bind]. auto.
Qed.

(** *** Rows other than the one being swept are untouched *)

Lemma list_set_nth_error_other (A : Type) (l l' : list A) (i j : nat) (x : A) :
  list_set l i x = Some l' -> j <> i -> nth_error l' j = nth_error l j.
Proof.
  revert i j l'; induction l as [|h t IH]; intros [|i] j l' H Hne; simpl in *;
    try discriminate.
  - inversion H; subst. destruct j; [contradiction | reflexivity].
  - destruct (list_set t i x) eqn:E; inversion H; subst.
    destruct j; simpl; [reflexivity|]. eapply IH; eauto.
Qed.

Lemma grid_set_other_row (g g' : Grid) (r0 c : nat) (v : Z) (r : nat) :
  grid_set g r0 c v = Ok g' -> r <> r0 -> nth_error g' r = nth_error g r.
Proof.
  unfold grid_set. intros H Hne.
  destruct (nth_error g r0) as [l|]; [|discriminate].
  destruct (list_set l c v) as [l'|]; [|discriminate].
  destruct (list_set g r0 l') as [g1|] eqn:E; [|discriminate].
  inversion H; subst. eapply list_set_nth_error_other; eauto.
Qed.

Lemma gslide_left_other_row (fuel : nat) (r : nat) :
  forall g r0 c g1 r1 c1,
    gslide fuel Left g r0 c = Ok (g1, r1, c1) -> r <> r0 ->
    r1 = r0 /\ nth_error g1 r = nth_error g r.
Proof.
  induction fuel as [|fuel IH]; intros g r0 c g1 r1 c1 H Hne;
    cbn [gslide ahead] in H;
    destruct (0 <? c); try (inversion H; subst; auto; fail);
    bind_inv H; (destruct (x =? 0)%Z; [|inversion H; subst; auto]);
    try discriminate.
  bind_inv H. destruct (IH _ _ _ _ _ _ H Hne) as [-> Hrow]. split; [reflexivity|].
  rewrite Hrow. unfold gslide_step in E0.
  bind_inv E0. bind_inv E0.
  rewrite (grid_set_other_row _ _ _ _ _ _ E0 Hne).
  apply (grid_set_other_row _ _ _ _ _ _ E2 Hne).
Qed.

Lemma gprocess_left_other_row (g g' : Grid) (r0 c0 r : nat) :
  gprocess Left g (r0, c0) = Ok g' -> r <> r0 ->
  nth_error g' r = nth_error g r.
Proof.
  unfold gprocess. intros H Hne. bind_inv H.
  destruct (x =? 0)%Z; [inversion H; subst; reflexivity|].
  bind_inv H. destruct x0 as [[g1 r1] c1].
  destruct (gslide_left_other_row _ r _ _ _ _ _ _ E0 Hne) as [-> Hrow].
  cbn [ahead] in H.
  destruct (0 <? c1); [|inversion H; subst; assumption].
  bind_inv H. bind_inv H.
  destruct (x0 =? x1)%Z; [|inversion H; subst; assumption].
  unfold gmerge_step in H. bind_inv H. bind_inv H.
  rewrite (grid_set_other_row _ _ _ _ _ _ H Hne).
  rewrite (grid_set_other_row _ _ _ _ _ _ E4 Hne). assumption.
Qed.

Lemma gfor_each_left_other_rows (cells : list (nat * nat)) (r : nat) :
  Forall (fun p => r <> fst p) cells ->
  forall g g', gfor_each Left cells g = Ok g' ->
               nth_error g' r = nth_error g r.
Proof.
  induction 1 as [|[r0 c0] rest Hp Hrest IH]; intros g g' H; simpl in H.
  - inversion H; subst; reflexivity.
  - bind_inv H. rewrite (IH _ _ H).
    eapply gprocess_left_other_row; eauto.
Qed.

Lemma left_cells_split (r : nat) :
  r < 4 ->
  exists before after,
    sweep_cells Left = before ++ [(r, 1); (r, 2); (r, 3)] ++ after /\
    Forall (fun p => r <> fst p) before /\
    Forall (fun p => r <> fst p) after.
Proof.
  intros Hr.
  exists (list_prod (seq 0 r) [1; 2; 3]),
         (list_prod (seq (S r) (3 - r)) [1; 2; 3]).
  destruct r as [|[|[|[|r]]]]; try lia;
    (split; [reflexivity|]);
    split; simpl; repeat (constructor; [simpl; lia|]); constructor.
Qed.

(** The three cells of a row [2,0,2,4] swept to the left. *)
Lemma row_B_left (g g' : Grid) (r : nat) :
  r < 4 -> nth_error g r = Some [2; 0; 2; 4]%Z ->
  gfor_each Left [(r, 1); (r, 2); (r, 3)] g = Ok g' ->
  nth_error g' r = Some [8; 0; 0; 0]%Z.
Proof.
  intros Hr Hrow H.
  destruct r as [|[|[|[|r]]]]; try lia.
  - destruct g as [|l0 g]; simpl in Hrow; [discriminate|].
    inversion Hrow; subst. vm_compute in H. inversion H; reflexivity.
  - destruct g as [|l0 [|l1 g]]; simpl in Hrow; try discriminate.
    inversion Hrow; subst. vm_compute in H. inversion H; reflexivity.
  - destruct g as [|l0 [|l1 [|l2 g]]]; simpl in Hrow; try discriminate.
    inversion Hrow; subst. vm_compute in H. inversion H; reflexivity.
  - destruct g as [|l0 [|l1 [|l2 [|l3 g]]]]; simpl in Hrow; try discriminate.
    inversion Hrow; subst. vm_compute in H. inversion H; reflexivity.
Qed.

(** C1 as amended.  In a consistent state whose row [r] is [2,0,2,4], the
    sweep of [move] to the left, before any spawn, leaves row [r] equal to
    [8,0,0,0]: the two 2-tiles merge into a 4, and the 4 that slides next to
    it merges with it in the same move. *)
Theorem scenario_B_left (st : Twenty) (r : nat) :
  consistent st -> r < 4 ->
  nth_error (playGrid st) r = Some [2; 0; 2; 4]%Z ->
  exists st',
    sweeps "left" st = Ok st' /\
    nth_error (playGrid st') r = Some [8; 0; 0; 0]%Z.
Proof.
  intros Hc Hr Hrow. apply wf_consistent in Hc.
  destruct (sweep_run Left st Hc) as (st' & Hsw & _).
  exists st'. split.
  { rewrite sweeps_direction. exact Hsw. }
  apply for_each_grid in Hsw.
  destruct (left_cells_split r Hr) as (before & after & Hcells & Hb & Ha).
  rewrite Hcells in Hsw.
  apply gfor_each_app in Hsw. destruct Hsw as (g1 & H1 & Hsw).
  apply gfor_each_app in Hsw. destruct Hsw as (g2 & H2 & H3).
  rewrite (gfor_each_left_other_rows _ _ Ha _ _ H3).
  apply (row_B_left g1 g2 r Hr); [|assumption].
  rewrite (gfor_each_left_other_rows _ _ Hb _ _ H1). assumption.
Qed.

Lemma scenario_B_left_witness :
  consistent stB /\ 0 < 4 /\
  nth_error (playGrid stB) 0 = Some [2; 0; 2; 4]%Z /\
  exists st',
    sweeps "left" stB = Ok st' /\
    nth_error (playGrid st') 0 = Some [8; 0; 0; 0]%Z.
Proof.
  split; [exact stB_consistent|]. split; [lia|]. split; [reflexivity|].
  apply (scenario_B_left stB 0 stB_consistent ltac:(lia) eq_refl).
Defined.

(** C1, counterexample.  On the board of scenario B the sweep to the left
    turns row 0, which is [2,0,2,4], into [8,0,0,0] and not into
    [4,4,0,0]. *)
Lemma scenario_B_not_4400 :
  consistent stB /\
  nth_error (playGrid stB) 0 = Some [2; 0; 2; 4]%Z /\
  exists st',
    sweeps "left" stB = Ok st' /\
    nth_error (playGrid st') 0 = Some [8; 0; 0; 0]%Z /\
    nth_error (playGrid st') 0 <> Some [4; 4; 0; 0]%Z.
Proof.
  split; [exact stB_consistent|]. split; [reflexivity|].
  exists stB_left. split; [reflexivity|]. split; [reflexivity|].
  simpl. discriminate.
Qed.

(** ** Properties: calls of [double] in one move *)

(** C2 as amended.  In one call of [move] in a valid direction on a
    consistent state, [double] runs at most once for each cell the sweep
    visits, on the block resting next to it in the same line; a line has
    three such cells, so no block registered when the call returns has been
    doubled more than three times. *)
Theorem doubles_at_most_three (s : string) (st st' : Twenty) (dv dl : nat) :
  consistent st -> valid_direction s -> undoubled st ->
  move s st dv dl = Ok st' ->
  Forall (fun b => Block.doubles b <= 3) (blocks st').
Proof.
  intros Hc Hs Hun Hm. apply wf_consistent in Hc.
  apply valid_direction_of in Hs. destruct Hs as [d Hd].
  unfold undoubled in Hun. rewrite Forall_forall in Hun.
  destruct (move_run s d st dv dl Hc Hd)
    as (st1 & _ & _ & _ & Hdesc & _ & [[-> Hmv]|(_ & _ & st2 & Hsp & Hmv & _)]);
    rewrite Hmv in Hm; inversion Hm; subst; apply Forall_forall; intros b Hb.
  - rewrite (Hun b Hb). lia.
  - destruct (spawn_block_blocks _ _ _ _ Hsp) as [b0 Hbs].
    assert (Hb0 : Block.doubles b0 = 0).
    { unfold spawn_block in Hsp.
      bind_inv Hsp. bind_inv Hsp. bind_inv Hsp. bind_inv Hsp.
      inversion Hsp; subst; simpl in Hbs.
      apply app_inv_head in Hbs. inversion Hbs; subst. reflexivity. }
    rewrite Hbs in Hb. apply in_app_iff in Hb. destruct Hb as [Hb|[<-|[]]].
    + destruct (Hdesc b Hb) as (b1 & Hb1 & _ & Hle).
      rewrite (Hun b1 Hb1) in Hle. lia.
    + lia.
Qed.

Lemma stB_undoubled : undoubled stB.
Proof. repeat constructor. Qed.

Lemma doubles_at_most_three_witness :
  consistent stB /\ valid_direction "left" /\ undoubled stB /\
  move "left" stB 0 0 =
    Ok (mkTwenty [Block.mk 0 0 8 true false 2; blk 0 1 2]
          [[8; 2; 0; 0]; [0; 0; 0; 0]; [0; 0; 0; 0]; [0; 0; 0; 0]]%Z []) /\
  Forall (fun b => Block.doubles b <= 3)
         [Block.mk 0 0 8 true false 2; blk 0 1 2].
Proof.
  split; [exact stB_consistent|]. split; [exact valid_left|].
  split; [exact stB_undoubled|]. split; [reflexivity|].
  apply (doubles_at_most_three "left" stB _ 0 0
           stB_consistent valid_left stB_undoubled eq_refl).
Defined.

(** C2, counterexample.  Moving the board of scenario B to the left doubles
    the block of cell (0,0) twice in the one call: from 2 to 4 when the other
    2 reaches it, from 4 to 8 when the 4 reaches it. *)
Lemma scenario_B_doubles_twice :
  consistent stB /\ valid_direction "left" /\ undoubled stB /\
  exists st' b,
    move "left" stB 0 0 = Ok st' /\ In b (blocks st') /\
    Block.doubles b = 2 /\
    ~ Forall (fun b => Block.doubles b <= 1) (blocks st').
Proof.
  split; [exact stB_consistent|]. split; [exact valid_left|].
  split; [exact stB_undoubled|].
  eexists. exists (Block.mk 0 0 8 true false 2).
  split; [reflexivity|]. split; [left; reflexivity|]. split; [reflexivity|].
  intros H. inversion H as [|? ? Hle _]; subst. simpl in Hle. lia.
Qed.

(** The bound of three is reached: in the row [2,2,4,8] moved to the left
    the block of cell (0,0) is doubled by each of the three other tiles. *)
Example three_doubles_reached :
  sweeps "left"
    (mkTwenty [blk 0 0 2; blk 0 1 2; blk 0 2 4; blk 0 3 8]
       [[2; 2; 4; 8]; [0; 0; 0; 0]; [0; 0; 0; 0]; [0; 0; 0; 0]]%Z []) =
  Ok (mkTwenty [Block.mk 0 0 16 true false 3]
        [[16; 0; 0; 0]; [0; 0; 0; 0]; [0; 0; 0; 0]; [0; 0; 0; 0]]%Z []).
Proof. reflexivity. Qed.

(** * Further properties of the engine *)

(** ** What one cell of a sweep does to the grid *)

Lemma pair_eq_dec (p q : nat * nat) : p = q \/ p <> q.
Proof.
  destruct p as [a b], q as [x y].
  destruct (Nat.eq_dec a x) as [->|H]; [|right; congruence].
  destruct (Nat.eq_dec b y) as [->|H]; [left; reflexivity | right; congruence].
Qed.

Lemma gslide_step_spec (d : direction) (g g' : Grid) (r c r' c' : nat) :
  r < 4 -> c < 4 -> ahead d r c = Some (r', c') ->
  gslide_step g r c r' c' = Ok g' ->
  forall x y, cell g' x y =
    if (x =? r) && (y =? c) then 0%Z
    else if (x =? r') && (y =? c') then cell g r c else cell g x y.
Proof.
  intros Hr Hc Ha H. unfold gslide_step in H.
  destruct (ahead_spec _ _ _ _ _ Ha Hr Hc) as (Hr' & Hc' & _ & Hne & _).
  bind_inv H. bind_inv H. apply grid_get_cell in E. subst x.
  destruct (two_sets _ _ _ _ _ _ _ _ Hr Hc Hr' Hc' Hne E0 H) as (_ & Hcell & _).
  exact Hcell.
Qed.

Lemma gslide_spec (d : direction) (fuel : nat) :
  forall g r c g1 r1 c1,
    r < 4 -> c < 4 -> gslide fuel d g r c = Ok (g1, r1, c1) ->
    r1 < 4 /\ c1 < 4 /\ dist d r1 c1 <= dist d r c /\
    cell g1 r1 c1 = cell g r c /\
    ((r1, c1) <> (r, c) -> cell g1 r c = 0%Z /\ cell g r1 c1 = 0%Z) /\
    (forall x y, (x, y) <> (r, c) -> (x, y) <> (r1, c1) ->
       cell g1 x y = cell g x y) /\
    (forall r' c', ahead d r1 c1 = Some (r', c') -> cell g1 r' c' <> 0%Z) /\
    ((r1, c1) = (r, c) -> g1 = g).
Proof.
  assert (Hstay : forall g r c, r < 4 -> c < 4 ->
    (forall r' c', ahead d r c = Some (r', c') -> cell g r' c' <> 0%Z) ->
    r < 4 /\ c < 4 /\ dist d r c <= dist d r c /\
    cell g r c = cell g r c /\
    ((r, c) <> (r, c) -> cell g r c = 0%Z /\ cell g r c = 0%Z) /\
    (forall x y, (x, y) <> (r, c) -> (x, y) <> (r, c) ->
       cell g x y = cell g x y) /\
    (forall r' c', ahead d r c = Some (r', c') -> cell g r' c' <> 0%Z) /\
    ((r, c) = (r, c) -> g = g)).
  { intros g r c Hr Hc Hx. repeat (split; [auto; try congruence|]). auto. }
  induction fuel as [|fuel IH]; intros g r c g1 r1 c1 Hr Hc H; simpl in H;
    destruct (ahead d r c) as [[r' c']|] eqn:Ha.
  - bind_inv H. apply grid_get_cell in E.
    destruct (Z.eqb_spec x 0); [discriminate|]. inversion H; subst.
    apply Hstay; auto. intros r'' c'' Hq. rewrite Ha in Hq. inversion Hq; subst. congruence.
  - inversion H; subst. apply Hstay; auto. intros ? ? Hq. congruence.
  - bind_inv H. apply grid_get_cell in E.
    destruct (Z.eqb_spec x 0) as [Hz|Hnz].
    + bind_inv H. subst x.
      destruct (ahead_spec _ _ _ _ _ Ha Hr Hc) as (Hr' & Hc' & Hne' & Hne & Hd & _).
      pose proof (gslide_step_spec _ _ _ _ _ _ _ Hr Hc Ha E0) as Hcell.
      destruct (IH _ _ _ _ _ _ Hr' Hc' H)
        as (Hr1 & Hc1 & Hd1 & Hv & Hmoved & Hframe & Hexit & _).
      assert (Hrr : (r, c) <> (r', c')) by (apply eqb_pair_false; exact Hne).
      assert (Hne1 : (r1, c1) <> (r, c)).
      { intros Hq. inversion Hq; subst. lia. }
      assert (Hnew : cell x0 r' c' = cell g r c).
      { rewrite Hcell, Hne', !Nat.eqb_refl. reflexivity. }
      split; [assumption|]. split; [assumption|]. split; [lia|].
      split; [congruence|]. split; [|split; [|split; [assumption|]]].
      * intros _. split.
        -- rewrite Hframe; [|congruence|congruence].
           rewrite Hcell, !Nat.eqb_refl. reflexivity.
        -- destruct (pair_eq_dec (r1, c1) (r', c')) as [Hq|Hq].
           ++ inversion Hq; subst. assumption.
           ++ destruct (Hmoved Hq) as [_ Hz1].
              rewrite Hcell in Hz1.
              rewrite (proj2 (eqb_pair_false r1 c1 r c) Hne1) in Hz1.
              rewrite (proj2 (eqb_pair_false r1 c1 r' c') Hq) in Hz1.
              assumption.
      * intros x y Hx1 Hx2.
        destruct (pair_eq_dec (x, y) (r', c')) as [Hq|Hq].
        -- inversion Hq; subst.
           destruct (Hmoved ltac:(congruence)) as [Hz1 _]. congruence.
        -- rewrite Hframe by assumption. rewrite Hcell.
           rewrite (proj2 (eqb_pair_false x y r c) Hx1).
           rewrite (proj2 (eqb_pair_false x y r' c') Hq). reflexivity.
      * intros Hq. contradiction.
    + inversion H; subst. apply Hstay; auto.
      intros r'' c'' Hq. rewrite Ha in Hq. inversion Hq; subst. congruence.
  - inversion H; subst. apply Hstay; auto. intros ? ? Hq. congruence.
Qed.

Lemma gprocess_outcome (d : direction) (g g' : Grid) (r0 c0 : nat) :
  r0 < 4 -> c0 < 4 -> gprocess d g (r0, c0) = Ok g' ->
  (cell g r0 c0 = 0%Z /\ g' = g) \/
  (cell g r0 c0 <> 0%Z /\
   exists r1 c1,
     r1 < 4 /\ c1 < 4 /\ dist d r1 c1 <= dist d r0 c0 /\
     ((r1, c1) <> (r0, c0) -> cell g r1 c1 = 0%Z) /\
     ((cell g' r1 c1 = cell g r0 c0 /\
       ((r1, c1) <> (r0, c0) -> cell g' r0 c0 = 0%Z) /\
       (forall x y, (x, y) <> (r0, c0) -> (x, y) <> (r1, c1) ->
          cell g' x y = cell g x y) /\
       (forall r' c', ahead d r1 c1 = Some (r', c') ->
          cell g' r' c' <> 0%Z /\ cell g' r' c' <> cell g r0 c0) /\
       ((r1, c1) = (r0, c0) -> g' = g)) \/
      (exists r' c',
         ahead d r1 c1 = Some (r', c') /\
         cell g r' c' = cell g r0 c0 /\
         cell g' r' c' = (cell g r0 c0 * 2)%Z /\
         cell g' r1 c1 = 0%Z /\ cell g' r0 c0 = 0%Z /\
         (forall x y, (x, y) <> (r0, c0) -> (x, y) <> (r1, c1) ->
            (x, y) <> (r', c') -> cell g' x y = cell g x y)))).
Proof.
  intros Hr0 Hc0 H. unfold gprocess in H.
  bind_inv H. apply grid_get_cell in E. subst x.
  destruct (Z.eqb_spec (cell g r0 c0) 0) as [Hz|Hv].
  { left. inversion H; subst. split; [assumption | reflexivity]. }
  right. split; [assumption|].
  bind_inv H. destruct x as [[g1 r1] c1].
  destruct (gslide_spec _ _ _ _ _ _ _ _ Hr0 Hc0 E)
    as (Hr1 & Hc1 & Hd1 & Hval & Hmoved & Hframe & Hexit & Hsame).
  exists r1, c1. do 3 (split; [assumption|]).
  split; [intros Hq; apply Hmoved; assumption|].
  destruct (ahead d r1 c1) as [[r' c']|] eqn:Ha.
  2:{ inversion H; subst g'. left. split; [assumption|].
      split; [intros Hq; apply Hmoved; assumption|].
      split; [assumption|]. split; [intros ? ? Hq; discriminate | assumption]. }
  bind_inv H. bind_inv H.
  apply grid_get_cell in E0. apply grid_get_cell in E1. subst x x0.
  destruct (ahead_spec _ _ _ _ _ Ha Hr1 Hc1) as (Hr' & Hc' & Hne' & Hne & Hd & _).
  destruct (Z.eqb_spec (cell g1 r' c') (cell g1 r1 c1)) as [Heq|Hneq].
  - right. exists r', c'. split; [reflexivity|].
    unfold gmerge_step in H. bind_inv H. bind_inv H.
    apply grid_get_cell in E0. subst x.
    destruct (two_sets _ _ _ _ _ _ _ _ Hr1 Hc1 Hr' Hc' Hne E1 H)
      as (_ & Hcell & _).
    assert (Ht0 : (r', c') <> (r0, c0)) by (intros Hq; inversion Hq; subst; lia).
    assert (Ht1 : (r', c') <> (r1, c1)) by (apply eqb_pair_false; exact Hne').
    assert (Hold : cell g1 r' c' = cell g r' c') by (apply Hframe; assumption).
    split; [congruence|]. split.
    { rewrite Hcell, Hne', !Nat.eqb_refl. simpl. congruence. }
    split.
    { rewrite Hcell, !Nat.eqb_refl. reflexivity. }
    split.
    { rewrite Hcell.
      destruct (pair_eq_dec (r0, c0) (r1, c1)) as [Hq|Hq].
      - inversion Hq; subst. rewrite !Nat.eqb_refl. reflexivity.
      - rewrite (proj2 (eqb_pair_false r0 c0 r1 c1) Hq).
        rewrite (proj2 (eqb_pair_false r0 c0 r' c')) by congruence.
        apply Hmoved. congruence. }
    intros x y H0 H1 H2. rewrite Hcell.
    rewrite (proj2 (eqb_pair_false x y r1 c1) H1).
    rewrite (proj2 (eqb_pair_false x y r' c') H2).
    apply Hframe; assumption.
  - inversion H; subst g'. left. split; [assumption|].
    split; [intros Hq; apply Hmoved; assumption|].
    split; [assumption|].
    split; [|assumption].
    intros r'' c'' Hq. inversion Hq; subst.
    split; [apply Hexit; reflexivity | congruence].
Qed.

Lemma memc_In (p : nat * nat) (l : list (nat * nat)) :
  memc p l = true <-> In p l.
Proof.
  unfold memc. rewrite existsb_exists. split.
  - intros ([a b] & Hin & Hq). destruct p as [x y]. simpl in Hq.
    apply eqb_pair_true in Hq. congruence.
  - intros Hin. exists p. split; [assumption|]. rewrite !Nat.eqb_refl. reflexivity.
Qed.

Lemma gprocess_settles (d : direction) (done : list (nat * nat))
    (g g1 : Grid) (r0 c0 r' c' : nat) :
  r0 < 4 -> c0 < 4 -> ~ In (r0, c0) done ->
  ahead d r0 c0 = Some (r', c') ->
  ahead_closed d done -> settled d done g ->
  gprocess d g (r0, c0) = Ok g1 ->
  settled d (done ++ [(r0, c0)]) g1.
Proof.
  intros Hr0 Hc0 Hnew Ha0 Hclosed Hset H.
  assert (Hbehind : forall r c x y, In (r, c) done ->
            ahead d r c = Some (x, y) -> (x, y) <> (r0, c0)).
  { intros r c x y Hin Ha Hq. inversion Hq; subst.
    destruct (Hclosed _ _ Hin _ _ Ha) as [Hd|Hd]; [contradiction | congruence]. }
  destruct (gprocess_outcome _ _ _ _ _ Hr0 Hc0 H)
    as [[Hz ->]|(Hv & r1 & c1 & Hr1 & Hc1 & Hd1 & Hwas &
                 [(Hq1 & Hp0 & Hframe & Hexit & _)|
                  (rt & ct & Hat & Ht & Ht' & Hq0 & Hp0 & Hframe)])];
    intros r c Hin Hnz x y Ha; apply in_app_iff in Hin.
  - destruct Hin as [Hin|[Hq|[]]]; [eapply Hset; eauto|].
    inversion Hq; subst. contradiction.
  - destruct (pair_eq_dec (r, c) (r1, c1)) as [Hq|Hnq].
    { inversion Hq; subst. apply (Hexit _ _ Ha). }
    destruct (pair_eq_dec (r, c) (r0, c0)) as [Hq|Hnp].
    { inversion Hq; subst. rewrite Hp0 in Hnz by congruence. contradiction. }
    destruct Hin as [Hin|[Hq|[]]]; [|congruence].
    rewrite Hframe in Hnz by assumption.
    pose proof (Hset _ _ Hin Hnz _ _ Ha) as Hy.
    pose proof (Hbehind _ _ _ _ Hin Ha) as Hyp.
    destruct (pair_eq_dec (x, y) (r1, c1)) as [Hq|Hyq].
    + inversion Hq; subst. congruence.
    + rewrite Hframe by assumption. assumption.
  - assert (Hnp : (r, c) <> (r0, c0)) by (intros Hq; inversion Hq; subst; contradiction).
    assert (Hnq : (r, c) <> (r1, c1)) by (intros Hq; inversion Hq; subst; contradiction).
    destruct Hin as [Hin|[Hq|[]]]; [|congruence].
    assert (Hold : cell g r c <> 0%Z).
    { destruct (pair_eq_dec (r, c) (rt, ct)) as [Hq|Hnt].
      - inversion Hq; subst. congruence.
      - rewrite <- (Hframe _ _ Hnp Hnq Hnt). assumption. }
    pose proof (Hset _ _ Hin Hold _ _ Ha) as Hy.
    pose proof (Hbehind _ _ _ _ Hin Ha) as Hyp.
    assert (Hyq : (x, y) <> (r1, c1)).
    { intros Hq. inversion Hq; subst.
      destruct (pair_eq_dec (r1, c1) (r0, c0)) as [Hq'|Hq']; [congruence|].
      apply Hy, Hwas. assumption. }
    destruct (pair_eq_dec (x, y) (rt, ct)) as [Hq|Hnt].
    + inversion Hq; subst. rewrite Ht'. lia.
    + rewrite (Hframe _ _ Hyp Hyq Hnt). assumption.
Qed.

Lemma ahead_closed_snoc (d : direction) (done : list (nat * nat))
    (r0 c0 r' c' : nat) :
  ahead_closed d done -> ahead d r0 c0 = Some (r', c') ->
  In (r', c') done \/ ahead d r' c' = None ->
  ahead_closed d (done ++ [(r0, c0)]).
Proof.
  intros Hclosed Ha Ht r c Hin x y Hxy. apply in_app_iff in Hin.
  destruct Hin as [Hin|[Hq|[]]].
  - destruct (Hclosed _ _ Hin _ _ Hxy) as [H|H]; [left; apply in_app_iff|]; auto.
  - inversion Hq; subst. rewrite Ha in Hxy. inversion Hxy; subst.
    destruct Ht as [H|H]; [left; apply in_app_iff|]; auto.
Qed.

Lemma gfor_each_settles (d : direction) (todo : list (nat * nat)) :
  forall done g g',
    orderedb d done todo = true ->
    ahead_closed d done -> settled d done g ->
    gfor_each d todo g = Ok g' ->
    settled d (done ++ todo) g'.
Proof.
  induction todo as [|[r0 c0] rest IH]; intros done g g' Hord Hclosed Hset H.
  - simpl in H. inversion H; subst. rewrite app_nil_r. assumption.
  - simpl in Hord. destruct (ahead d r0 c0) as [[r' c']|] eqn:Ha; [|discriminate].
    rewrite !andb_true_iff in Hord.
    destruct Hord as [[[[Ht Hnew] Hr0] Hc0] Hrest].
    apply Nat.ltb_lt in Hr0, Hc0. apply negb_true_iff in Hnew.
    assert (Hnew' : ~ In (r0, c0) done).
    { intros Hin. apply memc_In in Hin. congruence. }
    assert (Ht' : In (r', c') done \/ ahead d r' c' = None).
    { apply orb_true_iff in Ht. destruct Ht as [Ht|Ht].
      - left. apply memc_In. assumption.
      - right. unfold at_edge in Ht. simpl in Ht.
        destruct (ahead d r' c'); [discriminate | reflexivity]. }
    cbn [gfor_each] in H. bind_inv H.
    pose proof (gprocess_settles _ _ _ _ _ _ _ _ Hr0 Hc0 Hnew' Ha Hclosed Hset E)
      as Hset1.
    pose proof (ahead_closed_snoc _ _ _ _ _ _ Hclosed Ha Ht') as Hclosed1.
    replace (done ++ (r0, c0) :: rest) with ((done ++ [(r0, c0)]) ++ rest)
      by (rewrite <- app_assoc; reflexivity).
    eapply IH; eauto.
Qed.

Lemma sweep_cells_ordered (d : direction) : orderedb d [] (sweep_cells d) = true.
Proof. destruct d; reflexivity. Qed.

Lemma sweep_cells_complete (d : direction) (r c r' c' : nat) :
  r < 4 -> c < 4 -> ahead d r c = Some (r', c') -> In (r, c) (sweep_cells d).
Proof.
  intros Hr Hc Ha.
  destruct d;
    destruct r as [|[|[|[|r]]]]; try lia;
    destruct c as [|[|[|[|c]]]]; try lia;
    simpl in Ha; try discriminate; simpl; tauto.
Qed.

(** X1.  The sweep of a move in direction [d] on a consistent state
    returns, and in the grid it leaves no tile has an empty cell directly
    ahead of it: every line is packed against the edge the move goes to. *)
Theorem sweep_packs (s : string) (d : direction) (st : Twenty) :
  consistent st -> direction_of s = Some d ->
  exists st1, sweeps s st = Ok st1 /\ packed d (playGrid st1).
Proof.
  intros Hc Hd. apply wf_consistent in Hc.
  destruct (sweep_run d st Hc) as (st1 & Hsw & _).
  exists st1. split; [rewrite sweeps_direction, Hd; exact Hsw|].
  apply for_each_grid in Hsw.
  assert (Hfinal : settled d (sweep_cells d) (playGrid st1)).
  { apply (gfor_each_settles d (sweep_cells d) [] (playGrid st) (playGrid st1)
             (sweep_cells_ordered d)); [| |exact Hsw].
    - intros r c [].
    - intros r c []. }
  intros r c r' c' Hr Hcc Hnz Ha.
  apply (Hfinal r c (sweep_cells_complete _ _ _ _ _ Hr Hcc Ha) Hnz _ _ Ha).
Qed.

(** ** When a move changes the board *)

Lemma movableb_movable (d : direction) (g : Grid) :
  movableb d g = true <-> movable d g.
Proof.
  unfold movableb, movable. rewrite existsb_exists. split.
  - intros ([r c] & Hin & H). simpl in H. apply all_cells_In in Hin.
    apply andb_true_iff in H. destruct H as [Hnz H].
    apply negb_true_iff, Z.eqb_neq in Hnz.
    destruct (ahead d r c) as [[r' c']|] eqn:Ha; [|discriminate]. simpl in H.
    exists r, c, r', c'. repeat (split; [tauto|]).
    apply orb_true_iff in H. rewrite !Z.eqb_eq in H. exact H.
  - intros (r & c & r' & c' & Hr & Hc & Hnz & Ha & H).
    exists (r, c). split; [apply all_cells_In; auto|]. simpl.
    rewrite Ha. simpl. apply andb_true_iff. split.
    + apply negb_true_iff, Z.eqb_neq. assumption.
    + apply orb_true_iff. rewrite !Z.eqb_eq. exact H.
Qed.

Lemma slide_blocked (d : direction) (fuel : nat) (st : Twenty) (r c : nat) :
  shape (playGrid st) -> r < 4 -> c < 4 ->
  (forall r' c', ahead d r c = Some (r', c') ->
     cell (playGrid st) r' c' <> 0%Z) ->
  slide fuel d st r c = Ok (st, r, c).
Proof.
  intros Hs Hr Hc Hb.
  destruct fuel; simpl; destruct (ahead d r c) as [[r' c']|] eqn:Ha;
    try reflexivity;
    destruct (ahead_spec _ _ _ _ _ Ha Hr Hc) as (Hr' & Hc' & _);
    rewrite (grid_get_ok _ _ _ Hs Hr' Hc'); simpl;
    destruct (Z.eqb_spec (cell (playGrid st) r' c') 0) as [Hz|Hnz];
    try reflexivity; exfalso; exact (Hb _ _ eq_refl Hz).
Qed.

Lemma process_cell_idle (d : direction) (st : Twenty) (r c : nat) :
  shape (playGrid st) -> r < 4 -> c < 4 -> ~ movable d (playGrid st) ->
  process_cell d st (r, c) = Ok st.
Proof.
  intros Hs Hr Hc Hno. unfold process_cell.
  rewrite (grid_get_ok _ _ _ Hs Hr Hc). simpl.
  destruct (Z.eqb_spec (cell (playGrid st) r c) 0) as [Hz|Hv]; [reflexivity|].
  assert (Hb : forall r' c', ahead d r c = Some (r', c') ->
            cell (playGrid st) r' c' <> 0%Z /\
            cell (playGrid st) r' c' <> cell (playGrid st) r c).
  { intros r' c' Ha. split; intros Hq; apply Hno;
      exists r, c, r', c'; auto 10. }
  rewrite slide_blocked; auto; [|intros r' c' Ha; apply (Hb _ _ Ha)].
  simpl. destruct (ahead d r c) as [[r' c']|] eqn:Ha; [|reflexivity].
  destruct (ahead_spec _ _ _ _ _ Ha Hr Hc) as (Hr' & Hc' & _).
  rewrite (grid_get_ok _ _ _ Hs Hr' Hc'). simpl.
  rewrite (grid_get_ok _ _ _ Hs Hr Hc). simpl.
  destruct (Z.eqb_spec (cell (playGrid st) r' c') (cell (playGrid st) r c))
    as [Heq|Hne]; [|reflexivity].
  exfalso. apply (proj2 (Hb _ _ eq_refl)). assumption.
Qed.

Lemma for_each_idle (d : direction) (cells : list (nat * nat)) (st : Twenty) :
  shape (playGrid st) -> Forall in_grid cells -> ~ movable d (playGrid st) ->
  for_each d cells st = Ok st.
Proof.
  intros Hs Hcells Hno. induction Hcells as [|[r c] rest [Hr Hc] _ IH].
  - reflexivity.
  - cbn [for_each]. rewrite (process_cell_idle d st r c Hs Hr Hc Hno).
    cbn [bind]. exact IH.
Qed.

Lemma for_each_app (d : direction) (l1 l2 : list (nat * nat)) (st : Twenty) :
  for_each d (l1 ++ l2) st = bind (for_each d l1 st) (for_each d l2).
Proof.
  revert st. induction l1 as [|p l1 IH]; intros st; simpl; [reflexivity|].
  destruct (process_cell d st p); simpl; auto.
Qed.

Lemma gprocess_moves (d : direction) (g g' : Grid) (r c r' c' : nat) :
  r < 4 -> c < 4 -> cell g r c <> 0%Z -> ahead d r c = Some (r', c') ->
  cell g r' c' = 0%Z \/ cell g r' c' = cell g r c ->
  gprocess d g (r, c) = Ok g' ->
  cell g' r c = 0%Z.
Proof.
  intros Hr Hc Hv Ha Hm H.
  destruct (ahead_spec _ _ _ _ _ Ha Hr Hc) as (_ & _ & Hne' & _).
  apply eqb_pair_false in Hne'.
  destruct (gprocess_outcome _ _ _ _ _ Hr Hc H)
    as [[Hz _]|(_ & r1 & c1 & _ & _ & _ & _ &
                [(_ & Hp0 & Hframe & Hexit & _)|(rt & ct & _ & _ & _ & _ & Hp0 & _)])];
    [contradiction| |assumption].
  destruct (pair_eq_dec (r1, c1) (r, c)) as [Hq|Hq]; [|auto].
  exfalso. inversion Hq; subst.
  destruct (Hexit _ _ Ha) as [H1 H2].
  rewrite Hframe in H1, H2 by assumption. destruct Hm; congruence.
Qed.

Lemma steps_potential (d : direction) (st st' : Twenty) :
  steps d st st' ->
  (potential d (playGrid st') <= potential d (playGrid st))%Z.
Proof.
  intros H. destruct (steps_grid _ _ _ H) as [_ [->|[Hlt _]]]; lia.
Qed.

Lemma movable_dec (d : direction) (g : Grid) : movable d g \/ ~ movable d g.
Proof.
  destruct (movableb d g) eqn:E.
  - left. apply movableb_movable. assumption.
  - right. intros H. apply movableb_movable in H. congruence.
Qed.

Lemma sweep_movable (s : string) (d : direction) (st : Twenty) :
  wf st -> direction_of s = Some d ->
  exists st1,
    sweeps s st = Ok st1 /\
    (playGrid st1 <> playGrid st <-> movable d (playGrid st)) /\
    (~ movable d (playGrid st) -> st1 = st).
Proof.
  intros Hc Hd.
  assert (Hidle : ~ movable d (playGrid st) -> sweeps s st = Ok st).
  { intros Hno. rewrite sweeps_direction, Hd.
    apply for_each_idle; [apply Hc | apply sweep_cells_in_grid | assumption]. }
  destruct (movable_dec d (playGrid st)) as [Hm|Hno].
  - destruct Hm as (r & c & r' & c' & Hr & Hcc & Hv & Ha & Hm).
    pose proof (sweep_cells_complete _ _ _ _ _ Hr Hcc Ha) as Hin.
    apply in_split in Hin. destruct Hin as (l1 & l2 & Hsplit).
    pose proof (sweep_cells_in_grid d) as Hgrid. rewrite Hsplit in Hgrid.
    apply Forall_app in Hgrid. destruct Hgrid as [Hg1 Hg2].
    inversion Hg2 as [|? ? _ Hg3]; subst.
    destruct (for_each_run d l1 st Hc Hg1) as (sta & Hfa & Hsa & Hwa & _).
    destruct (process_cell_run d sta r c Hwa Hr Hcc) as (stb & Hfb & Hsb & Hwb & _).
    destruct (for_each_run d l2 stb Hwb Hg3) as (st1 & Hf1 & Hs1 & Hw1 & _).
    assert (Hsw : sweeps s st = Ok st1).
    { rewrite sweeps_direction, Hd. unfold sweep. rewrite Hsplit.
      rewrite for_each_app, Hfa. cbn [bind for_each]. rewrite Hfb. exact Hf1. }
    exists st1. split; [exact Hsw|]. split.
    + split; [intros _; exists r, c, r', c'; auto 10|]. intros _ Heq.
      pose proof (steps_potential _ _ _ Hsa) as Pa.
      pose proof (steps_potential _ _ _ Hsb) as Pb.
      pose proof (steps_potential _ _ _ Hs1) as P1.
      rewrite Heq in P1.
      destruct (steps_grid _ _ _ Hsa) as [_ [->|[Hlt _]]]; [|lia].
      destruct (steps_grid _ _ _ Hsb) as [_ [->|[Hlt _]]]; [|lia].
      apply process_cell_grid in Hfb.
      pose proof (gprocess_moves _ _ _ _ _ _ _ Hr Hcc Hv Ha Hm Hfb). congruence.
    + intros Hno. exfalso. apply Hno. exists r, c, r', c'; auto 10.
  - exists st. split; [auto|]. split.
    + split; [congruence | intros; contradiction].
    + reflexivity.
Qed.

(** X2.  On a consistent state the sweep of a move in direction [d] changes
    the grid exactly when some tile has, directly ahead of it, an empty cell
    or a tile of the same value; when no tile has, the whole call returns the
    state as it was. *)
Theorem sweep_changes_iff_movable (s : string) (d : direction) (st : Twenty)
    (dv dl : nat) :
  consistent st -> direction_of s = Some d ->
  exists st1,
    sweeps s st = Ok st1 /\
    (playGrid st1 <> playGrid st <-> movable d (playGrid st)) /\
    (movableb d (playGrid st) = false -> move s st dv dl = Ok st).
Proof.
  intros Hc Hd. apply wf_consistent in Hc.
  destruct (sweep_movable s d st Hc Hd) as (st1 & Hsw & Hiff & Hidle).
  exists st1. split; [assumption|]. split; [assumption|].
  intros Hb.
  assert (Hno : ~ movable d (playGrid st)).
  { intros H. apply movableb_movable in H. congruence. }
  rewrite (Hidle Hno) in Hsw.
  apply (move_unfold s st st dv dl Hsw). reflexivity.
Qed.

Lemma left_is_Left : direction_of "left" = Some Left.
Proof. reflexivity. Qed.

Lemma sweep_packs_witness :
  consistent stB /\ direction_of "left" = Some Left /\
  exists st1, sweeps "left" stB = Ok st1 /\ packed Left (playGrid st1).
Proof.
  split; [exact stB_consistent|]. split; [exact left_is_Left|].
  apply (sweep_packs "left" Left stB stB_consistent left_is_Left).
Defined.

Lemma sweep_changes_iff_movable_witness :
  consistent stB /\ direction_of "left" = Some Left /\
  exists st1,
    sweeps "left" stB = Ok st1 /\
    (playGrid st1 <> playGrid stB <-> movable Left (playGrid stB)) /\
    (movableb Left (playGrid stB) = false -> move "left" stB 0 0 = Ok stB).
Proof.
  split; [exact stB_consistent|]. split; [exact left_is_Left|].
  apply (sweep_changes_iff_movable "left" Left stB 0 0
           stB_consistent left_is_Left).
Defined.

(** ** The failures of a move *)

Lemma gprocess_changed (d : direction) (g g' : Grid) (r0 c0 : nat) :
  r0 < 4 -> c0 < 4 -> gprocess d g (r0, c0) = Ok g' ->
  g' = g \/ has_empty g'.
Proof.
  intros Hr0 Hc0 H.
  destruct (gprocess_outcome _ _ _ _ _ Hr0 Hc0 H)
    as [[_ ->]|(_ & r1 & c1 & _ & _ & _ & _ &
                [(_ & Hp0 & _ & _ & Hsame)|(rt & ct & _ & _ & _ & _ & Hp0 & _)])].
  - left; reflexivity.
  - destruct (pair_eq_dec (r1, c1) (r0, c0)) as [Hq|Hq]; [left; auto|].
    right. exists r0, c0. auto.
  - right. exists r0, c0. auto.
Qed.

Lemma gfor_each_changed (d : direction) (cells : list (nat * nat)) :
  Forall in_grid cells ->
  forall g g', gfor_each d cells g = Ok g' -> g' = g \/ has_empty g'.
Proof.
  induction 1 as [|[r c] rest [Hr Hc] _ IH]; intros g g' H; simpl in H.
  - inversion H; auto.
  - bind_inv H. simpl in Hr, Hc.
    destruct (IH _ _ H) as [Heq|He]; [|auto]. subst g'.
    apply (gprocess_changed d g x r c Hr Hc E).
Qed.

Lemma on_block_cases (f : Block.t -> Block.t) (bs : list Block.t) (r c : nat) :
  (exists bs', on_block f bs r c = Ok bs') \/
  on_block f bs r c = Raise ValueError.
Proof.
  unfold on_block, getBlock.
  destruct (find (Block.at_pos r c) bs); simpl; eauto.
Qed.

Lemma removeBlock_cases (bs : list Block.t) (r c : nat) :
  (exists bs', removeBlock bs r c = Ok bs') \/
  removeBlock bs r c = Raise ValueError.
Proof.
  unfold removeBlock, getBlock.
  destruct (find (Block.at_pos r c) bs); simpl; eauto.
Qed.

Lemma slide_step_cases (st : Twenty) (r c r' c' : nat) :
  shape (playGrid st) -> r < 4 -> c < 4 -> r' < 4 -> c' < 4 ->
  (exists st', slide_step st r c r' c' = Ok st' /\ shape (playGrid st')) \/
  slide_step st r c r' c' = Raise ValueError.
Proof.
  intros Hs Hr Hc Hr' Hc'. unfold slide_step.
  rewrite (grid_get_ok _ _ _ Hs Hr Hc). cbn [bind].
  destruct (grid_set_ok (playGrid st) r' c' (cell (playGrid st) r c) Hs Hr' Hc')
    as [g1 H1].
  pose proof (proj1 (grid_set_spec _ _ _ _ _ H1) Hs) as Hs1.
  destruct (grid_set_ok g1 r c 0%Z Hs1 Hr Hc) as [g2 H2].
  pose proof (proj1 (grid_set_spec _ _ _ _ _ H2) Hs1) as Hs2.
  rewrite H1; cbn [bind]. rewrite H2; cbn [bind].
  destruct (on_block_cases (Block.move r' c') (blocks st) r c) as [[bs E]|E];
    rewrite E; cbn [bind]; [left | right; reflexivity].
  eexists. split; [reflexivity | exact Hs2].
Qed.

Lemma merge_step_cases (st : Twenty) (r c r' c' : nat) :
  shape (playGrid st) -> r < 4 -> c < 4 -> r' < 4 -> c' < 4 ->
  (exists st', merge_step st r c r' c' = Ok st' /\ shape (playGrid st')) \/
  merge_step st r c r' c' = Raise ValueError.
Proof.
  intros Hs Hr Hc Hr' Hc'. unfold merge_step.
  rewrite (grid_get_ok _ _ _ Hs Hr' Hc'). cbn [bind].
  destruct (grid_set_ok (playGrid st) r' c' (cell (playGrid st) r' c' * 2)%Z
              Hs Hr' Hc') as [g1 H1].
  pose proof (proj1 (grid_set_spec _ _ _ _ _ H1) Hs) as Hs1.
  destruct (grid_set_ok g1 r c 0%Z Hs1 Hr Hc) as [g2 H2].
  pose proof (proj1 (grid_set_spec _ _ _ _ _ H2) Hs1) as Hs2.
  rewrite H1; cbn [bind]. rewrite H2; cbn [bind].
  destruct (on_block_cases Block.double (blocks st) r' c') as [[bs1 E1]|E1];
    rewrite E1; cbn [bind]; [|right; reflexivity].
  destruct (on_block_cases Block.pulse bs1 r' c') as [[bs2 E2]|E2];
    rewrite E2; cbn [bind]; [|right; reflexivity].
  destruct (removeBlock_cases bs2 r c) as [[bs3 E3]|E3];
    rewrite E3; cbn [bind]; [left | right; reflexivity].
  eexists. split; [reflexivity | exact Hs2].
Qed.

Lemma slide_cases (d : direction) (fuel : nat) :
  forall st r c,
    shape (playGrid st) -> r < 4 -> c < 4 -> dist d r c <= fuel ->
    (exists st1 r1 c1, slide fuel d st r c = Ok (st1, r1, c1) /\
                       shape (playGrid st1) /\ r1 < 4 /\ c1 < 4) \/
    slide fuel d st r c = Raise ValueError.
Proof.
  induction fuel as [|fuel IH]; intros st r c Hs Hr Hc Hfuel; simpl;
    destruct (ahead d r c) as [[r' c']|] eqn:Ha;
    try (left; exists st, r, c; auto; fail);
    destruct (ahead_spec _ _ _ _ _ Ha Hr Hc) as (Hr' & Hc' & _ & _ & Hd & _);
    try lia.
  rewrite (grid_get_ok _ _ _ Hs Hr' Hc'). cbn [bind].
  destruct (cell (playGrid st) r' c' =? 0)%Z;
    [|left; exists st, r, c; auto].
  destruct (slide_step_cases st r c r' c' Hs Hr Hc Hr' Hc') as [(st' & E & Hs')|E];
    rewrite E; cbn [bind]; [|right; reflexivity].
  apply IH; auto. lia.
Qed.

Lemma process_cell_cases (d : direction) (st : Twenty) (r c : nat) :
  shape (playGrid st) -> r < 4 -> c < 4 ->
  (exists st', process_cell d st (r, c) = Ok st' /\ shape (playGrid st')) \/
  process_cell d st (r, c) = Raise ValueError.
Proof.
  intros Hs Hr Hc. unfold process_cell.
  rewrite (grid_get_ok _ _ _ Hs Hr Hc). cbn [bind].
  destruct (cell (playGrid st) r c =? 0)%Z; [left; eauto|].
  destruct (slide_cases d (dist d r c) st r c Hs Hr Hc (le_n _))
    as [(st1 & r1 & c1 & E & Hs1 & Hr1 & Hc1)|E];
    rewrite E; cbn [bind]; [|right; reflexivity].
  destruct (ahead d r1 c1) as [[r' c']|] eqn:Ha; [|left; eauto].
  destruct (ahead_spec _ _ _ _ _ Ha Hr1 Hc1) as (Hr' & Hc' & _).
  rewrite (grid_get_ok _ _ _ Hs1 Hr' Hc'). cbn [bind].
  rewrite (grid_get_ok _ _ _ Hs1 Hr1 Hc1). cbn [bind].
  destruct (cell (playGrid st1) r' c' =? cell (playGrid st1) r1 c1)%Z;
    [|left; eauto].
  apply merge_step_cases; assumption.
Qed.

Lemma for_each_cases (d : direction) (cells : list (nat * nat)) :
  forall st, shape (playGrid st) -> Forall in_grid cells ->
  (exists st', for_each d cells st = Ok st' /\ shape (playGrid st')) \/
  for_each d cells st = Raise ValueError.
Proof.
  induction cells as [|[r c] rest IH]; intros st Hs Hcells; cbn [for_each].
  - left; eauto.
  - inversion Hcells as [|? ? [Hr Hc] Hrest]; subst. simpl in Hr, Hc.
    destruct (process_cell_cases d st r c Hs Hr Hc) as [(st1 & E & Hs1)|E];
      rewrite E; cbn [bind]; [|right; reflexivity].
    apply IH; assumption.
Qed.


(** X3.  On a 4 by 4 grid, whatever the registry holds, the sweep of a move
    returns or raises the [ValueError] of [getBlock], and so does the whole
    call: no index leaves the grid, the loops end, and the spawn that follows
    a changed grid always finds an empty cell. *)
Theorem move_failures (s : string) (st : Twenty) (dv dl : nat) :
  shape (playGrid st) ->
  ((exists st1, sweeps s st = Ok st1 /\ shape (playGrid st1)) \/
   sweeps s st = Raise ValueError) /\
  ((exists st', move s st dv dl = Ok st') \/
   move s st dv dl = Raise ValueError).
Proof.
  intros Hs.
  assert (Hsw : (exists st1, sweeps s st = Ok st1 /\ shape (playGrid st1) /\
                   (playGrid st1 = playGrid st \/ has_empty (playGrid st1))) \/
                sweeps s st = Raise ValueError).
  { rewrite sweeps_direction. destruct (direction_of s) as [d|]; [|left; eauto].
    destruct (for_each_cases d (sweep_cells d) st Hs (sweep_cells_in_grid d))
      as [(st1 & E & Hs1)|E]; [left | right; assumption].
    exists st1. split; [assumption|]. split; [assumption|].
    apply for_each_grid in E.
    apply (gfor_each_changed d _ (sweep_cells_in_grid d) _ _ E). }
  split; [destruct Hsw as [(st1 & E & Hs1 & _)|E]; eauto|].
  destruct Hsw as [(st1 & E & Hs1 & Hch)|E].
  - destruct (move_unfold s st st1 dv dl E) as [Hsame Hdiff].
    destruct (grid_eq_dec (playGrid st1) (playGrid st)) as [Heq|Hne].
    + left. rewrite (Hsame Heq). eauto.
    + left. rewrite (Hdiff Hne). destruct Hch as [Heq|He]; [contradiction|].
      destruct (spawn_block_ok st1 dv dl Hs1 (proj1 (has_empty_empties _) He))
        as (v & r & c & g' & _ & _ & _ & Hsp).
      eauto.
  - right. unfold move. rewrite E. reflexivity.
Qed.

(** A registry that lacks the block of a tile that has to move. *)
Example move_without_block :
  sweeps "right" (mkTwenty [] (playGrid stB) []) = Raise ValueError.
Proof. reflexivity. Qed.

Lemma stB_shape : shape (playGrid stB).
Proof. split; repeat constructor. Qed.

Lemma move_failures_witness :
  shape (playGrid stB) /\
  ((exists st1, sweeps "up" stB = Ok st1 /\ shape (playGrid st1)) \/
   sweeps "up" stB = Raise ValueError) /\
  ((exists st', move "up" stB 0 0 = Ok st') \/
   move "up" stB 0 0 = Raise ValueError).
Proof.
  split; [exact stB_shape|]. apply (move_failures "up" stB 0 0 stB_shape).
Defined.

(** ** Values of the tiles *)

Lemma tile_value_double (v : Z) : tile_value v -> tile_value (v * 2).
Proof.
  intros [k ->]. exists (S k). rewrite Nat2Z.inj_succ, Z.pow_succ_r by lia. ring.
Qed.

Lemma tile_value_spawnable (v : Z) : In v SPAWNABLE -> tile_value v.
Proof.
  simpl. intros [<-|[<-|[]]]; [exists 0 | exists 1]; reflexivity.
Qed.

Lemma step_tiles (P : Z -> Prop) (d : direction) (st st' : Twenty) :
  (forall v, P v -> P (v * 2)%Z) ->
  step d st st' -> tiles_are P st -> tiles_are P st'.
Proof.
  intros Hdouble Hstep Hall. unfold tiles_are in *.
  rewrite Forall_forall in *.
  destruct Hstep as [l [r c r' c' _ _ _ _ _ _ Hs]|l [r c r' c' _ _ _ _ _ _ Hs]].
  - destruct (slide_step_inv _ _ _ _ _ _ Hs) as (_ & _ & _ & Hbs & _).
    intros b Hin. rewrite Hbs in Hin. apply mutate_first_In in Hin.
    destruct Hin as [Hin|(b0 & Hin & _ & ->)]; [auto|]. simpl. auto.
  - destruct (merge_step_inv _ _ _ _ _ _ Hs) as (_ & _ & _ & Hbs & _).
    assert (Hd : forall b1,
      In b1 (mutate_first Block.double (Block.at_pos r' c') (blocks st)) ->
      P (Block.val b1)).
    { intros b1 Hin. apply mutate_first_In in Hin.
      destruct Hin as [Hin|(b0 & Hin & _ & ->)]; [auto|]. simpl. auto. }
    intros b Hin. rewrite Hbs in Hin. apply remove_first_In in Hin.
    apply mutate_first_In in Hin.
    destruct Hin as [Hin|(b0 & Hin & _ & ->)]; [auto|]. simpl. auto.
Qed.

Lemma steps_tiles (P : Z -> Prop) (d : direction) (st st' : Twenty) :
  (forall v, P v -> P (v * 2)%Z) ->
  steps d st st' -> tiles_are P st -> tiles_are P st'.
Proof.
  intros Hdouble H. induction H; eauto using step_tiles.
Qed.

Lemma spawn_tiles (st st' : Twenty) (dv dl : nat) :
  shape (playGrid st) -> spawn_block st dv dl = Ok st' ->
  tiles_are tile_value st -> tiles_are tile_value st'.
Proof.
  intros Hs Hsp Hall.
  destruct (spawn_block_inv _ _ _ _ Hs Hsp)
    as (v & r & c & Hv & _ & _ & _ & _ & Hbs & _).
  unfold tiles_are in *. rewrite Hbs. apply Forall_app. split; [assumption|].
  constructor; [|constructor]. simpl. apply tile_value_spawnable. assumption.
Qed.

Lemma tiles_cells (st : Twenty) :
  wf st -> tiles_are tile_value st ->
  forall r c, r < 4 -> c < 4 ->
    cell (playGrid st) r c = 0%Z \/ tile_value (cell (playGrid st) r c).
Proof.
  intros Hwf Hall r c Hr Hc.
  destruct (Z.eq_dec (cell (playGrid st) r c) 0) as [Hz|Hnz]; [auto|]. right.
  pose proof (wf_cell _ Hwf r c Hr Hc Hnz) as Hin.
  apply in_map_iff in Hin. destruct Hin as (b & Hpos & Hin).
  destruct (wf_block _ Hwf b Hin) as (_ & _ & _ & Hcell).
  inversion Hpos; subst. rewrite Hcell.
  unfold tiles_are in Hall. rewrite Forall_forall in Hall. auto.
Qed.

(** X4.  Every tile is a power of two from 2 on: this holds in a fresh
    game, is kept by every spawn on a consistent state, and is kept by every
    move in a valid direction on a consistent state, for the blocks and for
    the cells of the grid. *)
Theorem tile_values_invariant :
  (forall dv1 dl1 dv2 dl2 st,
     init dv1 dl1 dv2 dl2 = Ok st -> tiles_are tile_value st) /\
  (forall st dv dl st',
     consistent st -> tiles_are tile_value st ->
     spawn_block st dv dl = Ok st' -> tiles_are tile_value st') /\
  (forall st s dv dl st',
     consistent st -> valid_direction s -> tiles_are tile_value st ->
     move s st dv dl = Ok st' ->
     tiles_are tile_value st' /\
     forall r c, r < 4 -> c < 4 ->
       cell (playGrid st') r c = 0%Z \/ tile_value (cell (playGrid st') r c)).
Proof.
  split; [|split].
  - intros dv1 dl1 dv2 dl2 st Hinit.
    destruct (init_run dv1 dl1 dv2 dl2)
      as (v1 & r1 & c1 & v2 & r2 & c2 & st' & Hinit' & Hbs & Hv1 & Hv2 & _).
    rewrite Hinit in Hinit'. inversion Hinit'; subst st'.
    unfold tiles_are. rewrite Hbs.
    repeat constructor; simpl; apply tile_value_spawnable; assumption.
  - intros st dv dl st' Hc Hall Hsp. apply wf_consistent in Hc.
    eapply spawn_tiles; eauto. apply Hc.
  - intros st s dv dl st' Hc Hs Hall Hm. apply wf_consistent in Hc.
    apply valid_direction_of in Hs. destruct Hs as [d Hd].
    destruct (move_run s d st dv dl Hc Hd)
      as (st1 & _ & Hsteps & Hwf1 & _ & _ &
          [[-> Hmv]|(_ & _ & st2 & Hsp & Hmv & Hwf2)]);
      rewrite Hmv in Hm; inversion Hm; subst.
    + split; [assumption | apply tiles_cells; assumption].
    + assert (Hall' : tiles_are tile_value st').
      { eapply spawn_tiles; [apply Hwf1 | exact Hsp |].
        eapply steps_tiles; eauto. apply tile_value_double. }
      split; [assumption | apply tiles_cells; assumption].
Qed.

Lemma stB_tiles : tiles_are tile_value stB.
Proof.
  repeat constructor; simpl; [exists 0 | exists 0 | exists 1]; reflexivity.
Qed.

Lemma tile_values_invariant_witness :
  consistent stB /\ valid_direction "left" /\ tiles_are tile_value stB /\
  move "left" stB 0 0 =
    Ok (mkTwenty [Block.mk 0 0 8 true false 2; blk 0 1 2]
          [[8; 2; 0; 0]; [0; 0; 0; 0]; [0; 0; 0; 0]; [0; 0; 0; 0]]%Z []) /\
  tiles_are tile_value
    (mkTwenty [Block.mk 0 0 8 true false 2; blk 0 1 2]
       [[8; 2; 0; 0]; [0; 0; 0; 0]; [0; 0; 0; 0]; [0; 0; 0; 0]]%Z []).
Proof.
  split; [exact stB_consistent|]. split; [exact valid_left|].
  split; [exact stB_tiles|]. split; [reflexivity|].
  apply (proj2 (proj2 tile_values_invariant) stB "left"%string 0 0 _
           stB_consistent valid_left stB_tiles eq_refl).
Defined.

(** ** The registry and the grid *)

Lemma getBlock_In (bs : list Block.t) (r c : nat) (b : Block.t) :
  getBlock bs r c = Ok b -> In b bs /\ Block.pos b = (r, c).
Proof.
  unfold getBlock.
  destruct (find (Block.at_pos r c) bs) as [b0|] eqn:E; [|discriminate].
  intros H; inversion H; subst. apply find_some in E.
  destruct E as [E1 E2]. apply at_pos_true in E2. auto.
Qed.

Lemma getBlock_absent (bs : list Block.t) (r c : nat) :
  ~ In (r, c) (map Block.pos bs) -> getBlock bs r c = Raise ValueError.
Proof.
  intros H. unfold getBlock.
  destruct (find (Block.at_pos r c) bs) as [b|] eqn:E; [|reflexivity].
  exfalso. apply H. apply find_some in E. destruct E as [E1 E2].
  apply at_pos_true in E2. rewrite <- E2. apply in_map. assumption.
Qed.

(** X5.  In a consistent state [getBlock] and the grid agree: at an empty
    cell of the grid it raises [ValueError], at any other cell it returns a
    registered block of that row and column whose value is the value of the
    cell. *)
Theorem getBlock_agrees_with_grid (st : Twenty) (r c : nat) :
  consistent st -> r < 4 -> c < 4 ->
  (cell (playGrid st) r c = 0%Z ->
   getBlock (blocks st) r c = Raise ValueError) /\
  (cell (playGrid st) r c <> 0%Z ->
   exists b, getBlock (blocks st) r c = Ok b /\ In b (blocks st) /\
             Block.row b = r /\ Block.col b = c /\
             Block.val b = cell (playGrid st) r c).
Proof.
  intros Hc Hr Hcc. apply wf_consistent in Hc. split.
  - intros Hz. apply getBlock_absent. apply wf_free; assumption.
  - intros Hnz.
    destruct (getBlock_ok_pos _ _ _ (wf_cell _ Hc r c Hr Hcc Hnz)) as [b Hb].
    exists b. split; [assumption|].
    destruct (getBlock_In _ _ _ _ Hb) as [Hin Hpos].
    destruct (wf_block _ Hc b Hin) as (_ & _ & _ & Hcell).
    inversion Hpos; subst. auto.
Qed.

Lemma getBlock_agrees_with_grid_witness :
  consistent stB /\ 0 < 4 /\ 3 < 4 /\
  (cell (playGrid stB) 0 3 = 0%Z ->
   getBlock (blocks stB) 0 3 = Raise ValueError) /\
  (cell (playGrid stB) 0 3 <> 0%Z ->
   exists b, getBlock (blocks stB) 0 3 = Ok b /\ In b (blocks stB) /\
             Block.row b = 0 /\ Block.col b = 3 /\
             Block.val b = cell (playGrid stB) 0 3).
Proof.
  split; [exact stB_consistent|]. split; [lia|]. split; [lia|].
  apply (getBlock_agrees_with_grid stB 0 3 stB_consistent); lia.
Defined.

Lemma find_snoc (f : Block.t -> bool) (l : list Block.t) (b : Block.t) :
  find f (l ++ [b]) =
  match find f l with
  | Some x => Some x
  | None => if f b then Some b else None
  end.
Proof.
  induction l as [|x l IH]; simpl; [reflexivity|].
  destruct (f x); [reflexivity | exact IH].
Qed.

(** X6.  After a spawn on a consistent state the new block is the last of
    the registry, [getBlock] at its position returns it, the grid holds its
    value there, and at every other position [getBlock] and the grid answer
    as before the spawn. *)
Theorem spawn_then_getBlock (st st' : Twenty) (dv dl : nat) :
  consistent st -> spawn_block st dv dl = Ok st' ->
  exists b,
    blocks st' = blocks st ++ [b] /\
    getBlock (blocks st') (Block.row b) (Block.col b) = Ok b /\
    cell (playGrid st') (Block.row b) (Block.col b) = Block.val b /\
    (forall r c, (r, c) <> Block.pos b ->
       getBlock (blocks st') r c = getBlock (blocks st) r c /\
       cell (playGrid st') r c = cell (playGrid st) r c).
Proof.
  intros Hc Hsp. apply wf_consistent in Hc.
  destruct (spawn_block_inv _ _ _ _ (wf_shape _ Hc) Hsp)
    as (v & r & c & Hv & Hr & Hcc & Hz & Hset & Hbs & _).
  destruct (grid_set_spec _ _ _ _ _ Hset) as (_ & Hcell & _).
  pose proof (getBlock_absent _ _ _ (wf_free _ _ _ Hc Hz)) as Habs.
  exists (Block.init r c v). simpl. split; [assumption|].
  unfold getBlock in *. rewrite Hbs, !find_snoc.
  split; [|split].
  - destruct (find (Block.at_pos r c) (blocks st)); [discriminate|].
    unfold Block.at_pos. simpl. rewrite !Nat.eqb_refl. reflexivity.
  - rewrite Hcell, !Nat.eqb_refl. reflexivity.
  - intros x y Hxy. unfold Block.pos in Hxy; simpl in Hxy. split.
    + rewrite find_snoc.
      destruct (find (Block.at_pos x y) (blocks st)); [reflexivity|].
      unfold Block.at_pos; simpl.
      rewrite (proj2 (eqb_pair_false x y r c) Hxy). reflexivity.
    + rewrite Hcell, (proj2 (eqb_pair_false x y r c) Hxy). reflexivity.
Qed.

Lemma spawn_then_getBlock_witness :
  consistent stB /\
  exists st',
    spawn_block stB 1 0 = Ok st' /\
    exists b,
      blocks st' = blocks stB ++ [b] /\
      getBlock (blocks st') (Block.row b) (Block.col b) = Ok b /\
      cell (playGrid st') (Block.row b) (Block.col b) = Block.val b /\
      (forall r c, (r, c) <> Block.pos b ->
         getBlock (blocks st') r c = getBlock (blocks stB) r c /\
         cell (playGrid st') r c = cell (playGrid stB) r c).
Proof.
  split; [exact stB_consistent|].
  exists (mkTwenty [blk 0 0 2; blk 0 2 2; blk 0 3 4; blk 0 1 4]
            [[2; 4; 2; 4]; [0; 0; 0; 0]; [0; 0; 0; 0]; [0; 0; 0; 0]]%Z []).
  split; [reflexivity|].
  apply (spawn_then_getBlock stB _ 1 0 stB_consistent eq_refl).
Defined.

Lemma filter_split_length (A : Type) (f : A -> bool) (l : list A) :
  List.length (filter f l) + List.length (filter (fun x => negb (f x)) l)
  = List.length l.
Proof.
  induction l as [|x l IH]; simpl; [reflexivity|].
  destruct (f x); simpl; lia.
Qed.

Lemma occupied_blocks (st : Twenty) :
  wf st -> List.length (blocks st) = List.length (occupied (playGrid st)).
Proof.
  intros Hwf. rewrite <- (length_map Block.pos).
  apply Permutation_length, NoDup_Permutation.
  - apply Hwf.
  - apply NoDup_filter, all_cells_NoDup.
  - intros [r c]. unfold occupied. rewrite filter_In, all_cells_In. simpl.
    rewrite negb_true_iff, Z.eqb_neq. split.
    + intros Hin. apply in_map_iff in Hin. destruct Hin as (b & Hpos & Hin).
      destruct (wf_block _ Hwf b Hin) as (Hbr & Hbc & Hbv & Hcell).
      inversion Hpos; subst. repeat split; auto. congruence.
    + intros [[Hr Hc] Hnz]. apply (wf_cell _ Hwf); assumption.
Qed.


Lemma blocks_plus_empties (st : Twenty) :
  wf st ->
  List.length (blocks st) + List.length (empties (playGrid st)) = 16.
Proof.
  intros Hwf. rewrite (occupied_blocks _ Hwf). unfold occupied, empties.
  pose proof (filter_split_length _
    (fun p => (cell (playGrid st) (fst p) (snd p) =? 0)%Z) all_cells) as H.
  change (List.length all_cells) with 16 in H. lia.
Qed.

(** X7.  In a consistent state the registry holds one block for each
    non-empty cell: the number of blocks and the number of empty cells add up
    to 16.  With 16 blocks every spawn fails with [IndexError]; with fewer,
    every spawn returns a state with one block more. *)
Theorem registry_size (st : Twenty) :
  consistent st ->
  List.length (blocks st) + List.length (empties (playGrid st)) = 16 /\
  (List.length (blocks st) = 16 ->
   forall dv dl, spawn_block st dv dl = Raise IndexError) /\
  (List.length (blocks st) < 16 ->
   forall dv dl, exists st', spawn_block st dv dl = Ok st' /\
     List.length (blocks st') = S (List.length (blocks st))).
Proof.
  intros Hc. apply wf_consistent in Hc.
  pose proof (blocks_plus_empties _ Hc) as Hsize.
  split; [exact Hsize|]. split.
  - intros Hfull dv dl. apply spawn_block_full; [apply Hc|].
    destruct (empties (playGrid st)); [reflexivity | simpl in Hsize; lia].
  - intros Hroom dv dl.
    assert (Hne : empties (playGrid st) <> []).
    { intros E. rewrite E in Hsize. simpl in Hsize. lia. }
    destruct (spawn_block_ok st dv dl (wf_shape _ Hc) Hne)
      as (v & r & c & g' & _ & _ & _ & Hsp).
    eexists. split; [exact Hsp|]. simpl. rewrite length_app. simpl. lia.
Qed.

Lemma registry_size_witness :
  consistent stC /\
  List.length (blocks stC) + List.length (empties (playGrid stC)) = 16 /\
  (List.length (blocks stC) = 16 ->
   forall dv dl, spawn_block stC dv dl = Raise IndexError) /\
  (List.length (blocks stC) < 16 ->
   forall dv dl, exists st', spawn_block stC dv dl = Ok st' /\
     List.length (blocks st') = S (List.length (blocks stC))).
Proof.
  assert (Hc : consistent stC) by (apply wf_check_sound; reflexivity).
  split; [exact Hc|]. apply (registry_size stC Hc).
Defined.

(** ** Number of tiles *)

Lemma step_empties (d : direction) (st st' : Twenty) :
  step d st st' ->
  List.length (empties (playGrid st)) <= List.length (empties (playGrid st')).
Proof.
  set (F := fun (_ _ : nat) (v : Z) => if (v =? 0)%Z then 1%Z else 0%Z).
  assert (Hnz : forall v, v <> 0%Z -> (if (v =? 0)%Z then 1%Z else 0%Z) = 0%Z).
  { intros v Hv. destruct (Z.eqb_spec v 0); [contradiction | reflexivity]. }
  intros [l [r c r' c' Hr Hc _ Ha Hv Hz Hs]|l [r c r' c' Hr Hc _ Ha Hv He Hs]];
    destruct (ahead_spec _ _ _ _ _ Ha Hr Hc) as (Hr' & Hc' & _ & Hne & _).
  - destruct (slide_step_inv _ _ _ _ _ _ Hs) as (g1 & H1 & H2 & _).
    destruct (two_sets _ _ _ _ _ _ _ _ Hr Hc Hr' Hc' Hne H1 H2)
      as (_ & _ & _ & Hcsum).
    specialize (Hcsum F). unfold F in Hcsum.
    rewrite <- !empties_length_csum in Hcsum.
    rewrite Hz, !(Hnz _ Hv) in Hcsum. simpl in Hcsum. lia.
  - destruct (merge_step_inv _ _ _ _ _ _ Hs) as (g1 & H1 & H2 & _).
    destruct (two_sets _ _ _ _ _ _ _ _ Hr Hc Hr' Hc' Hne H1 H2)
      as (_ & _ & _ & Hcsum).
    specialize (Hcsum F). unfold F in Hcsum.
    rewrite <- !empties_length_csum in Hcsum.
    rewrite He, !(Hnz _ Hv) in Hcsum.
    rewrite (Hnz (cell (playGrid st) r c * 2)%Z) in Hcsum by lia.
    simpl in Hcsum. lia.
Qed.

Lemma steps_empties (d : direction) (st st' : Twenty) :
  steps d st st' ->
  List.length (empties (playGrid st)) <= List.length (empties (playGrid st')).
Proof.
  intros H. induction H as [x y H| |x y z _ IH1 _ IH2];
    [apply (step_empties d); assumption | lia | lia].
Qed.

(** X8.  In a move in a valid direction on a consistent state the sweep
    never lowers the number of empty cells and never adds a block, and the
    whole call leaves at most one block more than it found. *)
Theorem move_tile_count (s : string) (st : Twenty) (dv dl : nat) :
  consistent st -> valid_direction s ->
  exists st1 st',
    sweeps s st = Ok st1 /\ move s st dv dl = Ok st' /\
    List.length (empties (playGrid st)) <=
      List.length (empties (playGrid st1)) /\
    List.length (blocks st1) <= List.length (blocks st) /\
    List.length (blocks st') <= S (List.length (blocks st)).
Proof.
  intros Hc Hs. apply wf_consistent in Hc.
  apply valid_direction_of in Hs. destruct Hs as [d Hd].
  destruct (move_run s d st dv dl Hc Hd)
    as (st1 & Hsw & Hsteps & Hwf1 & _ & _ & Hcases).
  pose proof (steps_empties _ _ _ Hsteps) as He.
  pose proof (blocks_plus_empties _ Hc) as H0.
  pose proof (blocks_plus_empties _ Hwf1) as H1.
  destruct Hcases as [[-> Hmv]|(_ & _ & st' & Hsp & Hmv & _)].
  - exists st, st. repeat (split; [assumption|]). split; lia.
  - exists st1, st'. repeat (split; [assumption|]). split; [lia|].
    destruct (spawn_block_blocks _ _ _ _ Hsp) as [b Hb].
    rewrite Hb, length_app. simpl. lia.
Qed.

Lemma move_tile_count_witness :
  consistent stB /\ valid_direction "left" /\
  exists st1 st',
    sweeps "left" stB = Ok st1 /\ move "left" stB 0 0 = Ok st' /\
    List.length (empties (playGrid stB)) <=
      List.length (empties (playGrid st1)) /\
    List.length (blocks st1) <= List.length (blocks stB) /\
    List.length (blocks st') <= S (List.length (blocks stB)).
Proof.
  split; [exact stB_consistent|]. split; [exact valid_left|].
  apply (move_tile_count "left" stB 0 0 stB_consistent valid_left).
Defined.

(** ** Tiles that pulse *)

Lemma pulse_flagged_move (r c : nat) (b : Block.t) :
  pulse_flagged b -> pulse_flagged (Block.move r c b).
Proof. intros H. exact H. Qed.

Lemma pulse_flagged_merge (b : Block.t) :
  pulse_flagged (Block.pulse (Block.double b)).
Proof.
  unfold pulse_flagged; simpl. split; [split; [lia | reflexivity] | reflexivity].
Qed.

Lemma step_flags (d : direction) (st st' : Twenty) :
  wf st -> step d st st' ->
  Forall pulse_flagged (blocks st) -> Forall pulse_flagged (blocks st').
Proof.
  intros Hwf Hstep Hall. rewrite Forall_forall in *.
  destruct Hstep as [l [r c r' c' _ _ _ _ _ _ Hs]|l [r c r' c' _ _ _ _ _ _ Hs]].
  - destruct (slide_step_inv _ _ _ _ _ _ Hs) as (_ & _ & _ & Hbs & _).
    rewrite (mutate_first_map _ _ _ _ (wf_nodup _ Hwf)) in Hbs.
    intros b Hin. rewrite Hbs in Hin. apply in_map_iff in Hin.
    destruct Hin as (b0 & <- & Hin). unfold upd.
    destruct (Block.at_pos r c b0); [apply pulse_flagged_move|]; auto.
  - destruct (merge_step_inv _ _ _ _ _ _ Hs) as (_ & _ & _ & Hbs & _).
    rewrite (merge_blocks _ _ _ _ _ (wf_nodup _ Hwf)) in Hbs.
    intros b Hin. rewrite Hbs in Hin. apply filter_In in Hin.
    destruct Hin as [Hin _]. apply in_map_iff in Hin.
    destruct Hin as (b0 & <- & Hin). unfold upd.
    destruct (Block.at_pos r' c' b0); [apply pulse_flagged_merge | auto].
Qed.

Lemma steps_flags (d : direction) (st st' : Twenty) :
  steps d st st' -> wf st -> Forall pulse_flagged (blocks st) ->
  wf st' /\ Forall pulse_flagged (blocks st').
Proof.
  induction 1 as [x y H|x|x y z _ IH1 _ IH2]; intros Hwf Hall.
  - split; [eapply step_wf | eapply step_flags]; eauto.
  - auto.
  - destruct (IH1 Hwf Hall) as [Hwf1 Hall1]. auto.
Qed.

Lemma at_rest_flagged (st : Twenty) :
  at_rest st -> Forall pulse_flagged (blocks st).
Proof.
  unfold at_rest. apply Forall_impl. intros b [Hd Hp].
  unfold pulse_flagged. rewrite Hd, Hp.
  split; [split; [discriminate | lia] | discriminate].
Qed.

(** X9.  A move in a valid direction on a consistent state in which no
    block pulses flags exactly the merged tiles: when it returns, a block
    pulses if and only if [double] ran on it during the call, and a block
    that pulses has [maxpulse] off. *)
Theorem merged_tiles_pulse (s : string) (st st' : Twenty) (dv dl : nat) :
  consistent st -> valid_direction s -> at_rest st ->
  move s st dv dl = Ok st' ->
  Forall pulse_flagged (blocks st').
Proof.
  intros Hc Hs Hrest Hm. apply wf_consistent in Hc.
  apply valid_direction_of in Hs. destruct Hs as [d Hd].
  apply at_rest_flagged in Hrest.
  destruct (move_run s d st dv dl Hc Hd)
    as (st1 & _ & Hsteps & _ & _ & _ &
        [[-> Hmv]|(_ & _ & st2 & Hsp & Hmv & _)]);
    rewrite Hmv in Hm; inversion Hm; subst; [assumption|].
  destruct (steps_flags _ _ _ Hsteps Hc Hrest) as [Hwf1 Hall].
  destruct (spawn_block_inv _ _ _ _ (wf_shape _ Hwf1) Hsp)
    as (v & r & c & _ & _ & _ & _ & _ & Hbs & _).
  rewrite Hbs. apply Forall_app. split; [assumption|].
  constructor; [|constructor]. unfold pulse_flagged; simpl.
  split; [split; [discriminate | lia] | discriminate].
Qed.

Lemma stB_at_rest : at_rest stB.
Proof. repeat constructor. Qed.

Lemma merged_tiles_pulse_witness :
  consistent stB /\ valid_direction "left" /\ at_rest stB /\
  move "left" stB 0 0 =
    Ok (mkTwenty [Block.mk 0 0 8 true false 2; blk 0 1 2]
          [[8; 2; 0; 0]; [0; 0; 0; 0]; [0; 0; 0; 0]; [0; 0; 0; 0]]%Z []) /\
  Forall pulse_flagged [Block.mk 0 0 8 true false 2; blk 0 1 2].
Proof.
  split; [exact stB_consistent|]. split; [exact valid_left|].
  split; [exact stB_at_rest|]. split; [reflexivity|].
  apply (merged_tiles_pulse "left" stB _ 0 0
           stB_consistent valid_left stB_at_rest eq_refl).
Defined.

(** ** The printed board *)

Lemma string_length_app (a b : string) :
  String.length (a ++ b) = String.length a + String.length b.
Proof.
  induction a as [|ch a IH]; simpl; [reflexivity|]. rewrite IH. reflexivity.
Qed.

Lemma cell_text_small_nat :
  forallb (fun n => String.length (cell_text (Z.of_nat n)) =? 8)
          (seq 0 (100 * 100)) = true.
Proof. vm_compute. reflexivity. Qed.

Lemma cell_text_length (v : Z) :
  (0 <= v < 10000)%Z -> String.length (cell_text v) = 8.
Proof.
  intros Hv. pose proof cell_text_small_nat as H.
  rewrite forallb_forall in H.
  specialize (H (Z.to_nat v)). rewrite Z2Nat.id in H by lia.
  apply Nat.eqb_eq, H, in_seq. lia.
Qed.

Lemma row_text_length (row : list Z) (acc : string) :
  Forall (fun v => (0 <= v < 10000)%Z) row ->
  String.length (row_text row acc) = String.length acc + 8 * List.length row.
Proof.
  intros H. revert acc. induction H as [|v row Hv _ IH]; intros acc; simpl.
  - lia.
  - rewrite IH, string_length_app, (cell_text_length v Hv). lia.
Qed.

(** X10.  On a 4 by 4 grid whose values lie between 0 and 9999,
    [print_grid] prints 17 lines, and every line but the borders is 33
    characters long: the columns are aligned. *)
Theorem print_grid_aligned (st : Twenty) :
  shape (playGrid st) -> small_values (playGrid st) ->
  List.length (print_grid st) = 17 /\
  Forall (fun text => text = border \/ String.length text = 33) (print_grid st).
Proof.
  intros [Hlen Hrows] Hsmall. unfold print_grid.
  assert (Hgen : forall g,
    Forall (fun l => List.length l = 4) g -> small_values g ->
    List.length (print_rows g) = 4 * List.length g /\
    Forall (fun text => text = border \/ String.length text = 33) (print_rows g)).
  { induction g as [|row g IH]; intros Hr Hs; simpl.
    - split; [reflexivity | constructor].
    - inversion Hr as [|? ? Hrow Hr']; subst. inversion Hs as [|? ? Hsrow Hs']; subst.
      destruct (IH Hr' Hs') as [IH1 IH2]. split; [lia|].
      constructor; [left; reflexivity|].
      constructor; [right; reflexivity|].
      constructor; [|constructor; [right; reflexivity | exact IH2]].
      right. rewrite string_length_app, row_text_length by assumption.
      rewrite Hrow. reflexivity. }
  destruct (Hgen _ Hrows Hsmall) as [H1 H2]. split.
  - rewrite length_app, H1, Hlen. reflexivity.
  - apply Forall_app. split; [exact H2|]. constructor; [left; reflexivity|constructor].
Qed.

Lemma stB_small : small_values (playGrid stB).
Proof. repeat constructor; lia. Qed.

Lemma print_grid_aligned_witness :
  shape (playGrid stB) /\ small_values (playGrid stB) /\
  List.length (print_grid stB) = 17 /\
  Forall (fun text => text = border \/ String.length text = 33)
         (print_grid stB).
Proof.
  split; [exact stB_shape|]. split; [exact stB_small|].
  apply (print_grid_aligned stB stB_shape stB_small).
Defined.

(** A tile of five digits pushes its row out of line. *)
Example print_grid_wide :
  nth 2 (print_grid
           (mkTwenty [blk 0 0 16384]
              [[16384; 0; 0; 0]; [0; 0; 0; 0]; [0; 0; 0; 0]; [0; 0; 0; 0]]%Z []))
        ""%string
  = "|   16384|       |       |       |"%string.
Proof. reflexivity. Qed.

(** ** Key presses *)

Lemma mem_str_In (s : string) (l : list string) : mem_str s l = true <-> In s l.
Proof.
  unfold mem_str. rewrite existsb_exists. split.
  - intros (x & Hin & Heq). apply String.eqb_eq in Heq. subst. assumption.
  - intros Hin. exists s. split; [assumption | apply String.eqb_refl].
Qed.

Lemma list_remove_spec (s : string) (l : list string) :
  In s l ->
  exists l', list_remove s l = Ok l' /\
    (forall x, x <> s -> (In x l' <-> In x l)) /\
    (NoDup l -> NoDup l' /\ ~ In s l').
Proof.
  induction l as [|x t IH]; simpl; [tauto|]. intros Hin.
  destruct (String.eqb_spec s x) as [->|Hne].
  - exists t. split; [reflexivity|]. split.
    + intros y Hy. split; [auto|]. intros [Hq|Hq]; [congruence | assumption].
    + intros Hnd. inversion Hnd; subst. auto.
  - destruct IH as (t' & Ht & Hmem & Hnd); [destruct Hin; congruence|].
    rewrite Ht. cbn [bind]. exists (x :: t'). split; [reflexivity|]. split.
    + intros y Hy. simpl. rewrite (Hmem y Hy). tauto.
    + intros Hnd'. inversion Hnd' as [|? ? Hx Ht']; subst.
      destruct (Hnd Ht') as [H1 H2]. split.
      * constructor; [|assumption]. intros Hin'. apply Hx.
        apply (Hmem x); [congruence | assumption].
      * simpl. intros [Hq|Hq]; [congruence | contradiction].
Qed.

Lemma slide_step_pressed (st st' : Twenty) (r c r' c' : nat) :
  slide_step st r c r' c' = Ok st' -> pressed st' = pressed st.
Proof.
  intros H. destruct (slide_step_inv _ _ _ _ _ _ H) as (_ & _ & _ & _ & Hp).
  exact Hp.
Qed.

Lemma merge_step_pressed (st st' : Twenty) (r c r' c' : nat) :
  merge_step st r c r' c' = Ok st' -> pressed st' = pressed st.
Proof.
  intros H. destruct (merge_step_inv _ _ _ _ _ _ H) as (_ & _ & _ & _ & Hp).
  exact Hp.
Qed.

Lemma slide_pressed (d : direction) (fuel : nat) :
  forall st r c st1 r1 c1,
    slide fuel d st r c = Ok (st1, r1, c1) -> pressed st1 = pressed st.
Proof.
  induction fuel as [|fuel IH]; intros st r c st1 r1 c1 H; simpl in H;
    destruct (ahead d r c) as [[r' c']|]; try (inversion H; subst; reflexivity);
    bind_inv H; (destruct (x =? 0)%Z; [|inversion H; subst; reflexivity]);
    try discriminate.
  bind_inv H. rewrite (IH _ _ _ _ _ _ H). eapply slide_step_pressed; eauto.
Qed.

Lemma process_cell_pressed (d : direction) (st st' : Twenty) (p : nat * nat) :
  process_cell d st p = Ok st' -> pressed st' = pressed st.
Proof.
  destruct p as [r0 c0]. unfold process_cell. intros H. bind_inv H.
  destruct (x =? 0)%Z; [inversion H; subst; reflexivity|].
  bind_inv H. destruct x0 as [[st1 r] c].
  pose proof (slide_pressed _ _ _ _ _ _ _ _ E0) as Hp.
  destruct (ahead d r c) as [[r' c']|]; [|inversion H; subst; assumption].
  bind_inv H. bind_inv H.
  destruct (x0 =? x1)%Z; [|inversion H; subst; assumption].
  rewrite (merge_step_pressed _ _ _ _ _ _ H). assumption.
Qed.

Lemma for_each_pressed (d : direction) (cells : list (nat * nat)) :
  forall st st', for_each d cells st = Ok st' -> pressed st' = pressed st.
Proof.
  induction cells as [|p rest IH]; intros st st' H; cbn [for_each] in H.
  - inversion H; subst; reflexivity.
  - bind_inv H. rewrite (IH _ _ H). eapply process_cell_pressed; eauto.
Qed.

Lemma spawn_block_pressed (st st' : Twenty) (dv dl : nat) :
  spawn_block st dv dl = Ok st' -> pressed st' = pressed st.
Proof.
  unfold spawn_block. intros H.
  bind_inv H. bind_inv H. bind_inv H. bind_inv H.
  inversion H; subst; reflexivity.
Qed.

Lemma move_pressed (s : string) (st st' : Twenty) (dv dl : nat) :
  move s st dv dl = Ok st' -> pressed st' = pressed st.
Proof.
  unfold move. intros H. bind_inv H.
  assert (Hx : pressed x = pressed st).
  { rewrite sweeps_direction in E. destruct (direction_of s) as [d|].
    - eapply for_each_pressed; eauto.
    - inversion E; subst; reflexivity. }
  destruct (negb (grid_eqb (playGrid st) (playGrid x))).
  - rewrite (spawn_block_pressed _ _ _ _ H). assumption.
  - inversion H; subst. assumption.
Qed.

(** One iteration of the loop of [check_for_moves]. *)
Lemma check_loop_iter (k : string -> bool) (rnd : string -> nat * nat)
    (m : string) (rest : list string) (st : Twenty) (out : list string)
    (res : Twenty * list string) :
  check_loop k rnd (m :: rest) st out = Ok res ->
  exists stm outm,
    check_loop k rnd rest stm outm = Ok res /\
    (forall d, d <> m -> (In d (pressed stm) <-> In d (pressed st))) /\
    (k m = true -> In m (pressed stm)) /\
    (NoDup (pressed st) ->
     NoDup (pressed stm) /\ (k m = false -> ~ In m (pressed stm))).
Proof.
  cbn [check_loop]. intros H.
  destruct (k m) eqn:Ek; destruct (mem_str m (pressed st)) eqn:Em; simpl in H.
  - exists st, out. split; [assumption|]. apply mem_str_In in Em.
    repeat split; auto; tauto || discriminate.
  - bind_inv H. pose proof (move_pressed _ _ _ _ _ E) as Hp.
    eexists _, _. split; [exact H|]. simpl. rewrite Hp.
    assert (Hnot : ~ In m (pressed st)).
    { intros Hin. apply mem_str_In in Hin. congruence. }
    split; [|split; [|split]].
    + intros d Hd. rewrite in_app_iff. simpl. split; [|auto].
      intros [Hin|[Hq|[]]]; [assumption | congruence].
    + intros _. apply in_app_iff. right. left. reflexivity.
    + apply NoDup_app; auto.
      * constructor; [simpl; tauto | constructor].
      * intros y Hy [<-|[]]. contradiction.
    + discriminate.
  - apply mem_str_In in Em.
    destruct (list_remove_spec m (pressed st) Em) as (p & Hrm & Hmem & Hnd).
    rewrite Hrm in H. cbn [bind] in H.
    eexists _, _. split; [exact H|]. simpl.
    split; [exact Hmem|]. split; [discriminate|].
    intros Hn. destruct (Hnd Hn). auto.
  - exists st, out. split; [assumption|].
    assert (Hnot : ~ In m (pressed st)).
    { intros Hin. apply mem_str_In in Hin. congruence. }
    repeat split; auto; tauto || discriminate.
Qed.

Lemma check_loop_pressed (k : string -> bool) (rnd : string -> nat * nat)
    (moves : list string) :
  NoDup moves ->
  forall st out st' out',
    check_loop k rnd moves st out = Ok (st', out') ->
    (forall d, k d = true -> In d moves \/ In d (pressed st) ->
               In d (pressed st')) /\
    (forall d, ~ In d moves -> (In d (pressed st') <-> In d (pressed st))) /\
    (NoDup (pressed st) ->
     NoDup (pressed st') /\
     forall d, In d moves -> k d = false -> ~ In d (pressed st')).
Proof.
  induction 1 as [|m rest Hm Hrest IH]; intros st out st' out' H.
  - simpl in H. inversion H; subst. split; [|split].
    + intros d _ [[]|Hin]; assumption.
    + intros d _. reflexivity.
    + intros Hn. split; [assumption|]. intros d [].
  - destruct (check_loop_iter _ _ _ _ _ _ _ H)
      as (stm & outm & Hloop & Hother & Hdown & Hnd).
    destruct (IH _ _ _ _ Hloop) as (A & B & C).
    split; [|split].
    + intros d Hk Hd. apply A; [assumption|].
      destruct (String.eqb_spec d m) as [->|Hne]; [right; auto|].
      destruct Hd as [[Hq|Hin]|Hin]; [congruence | auto |].
      right. apply Hother; assumption.
    + intros d Hd. simpl in Hd.
      rewrite (B d) by tauto. apply Hother. intros ->. tauto.
    + intros Hn. destruct (Hnd Hn) as [Hn' Hup].
      destruct (C Hn') as [C1 C2]. split; [assumption|].
      intros d [<-|Hin] Hk; [|auto].
      rewrite (B m Hm). auto.
Qed.

Lemma four_NoDup : NoDup ["up"; "down"; "left"; "right"]%string.
Proof.
  repeat constructor; simpl; intuition discriminate.
Qed.

(** X11.  When [check_for_moves] returns, every direction whose key is down
    is in [pressed], and entries of [pressed] that are not directions are as
    before; if [pressed] had no duplicate it has none after, and then it
    holds exactly the directions whose key is down. *)
Theorem check_for_moves_pressed (k : string -> bool) (rnd : string -> nat * nat)
    (st st' : Twenty) (out : list string) :
  check_for_moves k rnd st = Ok (st', out) ->
  (forall d, valid_direction d -> k d = true -> In d (pressed st')) /\
  (forall d, ~ valid_direction d ->
     (In d (pressed st') <-> In d (pressed st))) /\
  (NoDup (pressed st) ->
   NoDup (pressed st') /\
   forall d, valid_direction d -> (In d (pressed st') <-> k d = true)).
Proof.
  unfold check_for_moves. intros H.
  destruct (check_loop_pressed k rnd _ four_NoDup _ _ _ _ H) as (A & B & C).
  split; [|split].
  - intros d Hd Hk. apply A; auto.
  - exact B.
  - intros Hn. destruct (C Hn) as [C1 C2]. split; [assumption|].
    intros d Hd. split.
    + intros Hin. destruct (k d) eqn:Ek; [reflexivity|].
      exfalso. exact (C2 d Hd Ek Hin).
    + intros Hk. apply A; auto.
Qed.

Lemma check_loop_idle (k : string -> bool) (rnd : string -> nat * nat)
    (moves : list string) :
  forall st out,
    (forall d, In d moves -> k d = true -> In d (pressed st)) ->
    exists st',
      check_loop k rnd moves st out = Ok (st', out) /\
      blocks st' = blocks st /\ playGrid st' = playGrid st.
Proof.
  induction moves as [|m rest IH]; intros st out Hheld.
  - exists st. simpl. auto.
  - cbn [check_loop].
    destruct (k m) eqn:Ek; destruct (mem_str m (pressed st)) eqn:Em; simpl.
    + apply IH. intros d Hd. apply Hheld. right; assumption.
    + exfalso. assert (In m (pressed st)) by (apply Hheld; [left|]; auto).
      apply mem_str_In in H. congruence.
    + apply mem_str_In in Em.
      destruct (list_remove_spec m (pressed st) Em) as (p & Hrm & Hmem & _).
      rewrite Hrm. cbn [bind].
      destruct (IH (with_pressed st p) out) as (st' & Hl & Hb & Hg).
      { intros d Hd Hk. simpl. apply Hmem; [congruence|].
        apply Hheld; [right|]; assumption. }
      exists st'. auto.
    + apply IH. intros d Hd. apply Hheld. right; assumption.
Qed.

(** X12.  A key that stays down moves the board once: after a call of
    [check_for_moves] that returned, a second call with the same keys down
    returns, prints nothing and leaves the blocks and the grid as they
    were. *)
Theorem held_keys_move_once (k : string -> bool) (rnd rnd' : string -> nat * nat)
    (st st1 : Twenty) (out1 : list string) :
  check_for_moves k rnd st = Ok (st1, out1) ->
  exists st2,
    check_for_moves k rnd' st1 = Ok (st2, []) /\
    blocks st2 = blocks st1 /\ playGrid st2 = playGrid st1.
Proof.
  intros H. unfold check_for_moves in *.
  destruct (check_loop_pressed k rnd _ four_NoDup _ _ _ _ H) as (A & _).
  apply check_loop_idle. intros d Hd Hk. apply A; auto.
Qed.

Lemma consistent_with_pressed (st : Twenty) (p : list string) :
  consistent (with_pressed st p) <-> consistent st.
Proof. unfold consistent; simpl; tauto. Qed.

Lemma check_loop_run (k : string -> bool) (rnd : string -> nat * nat)
    (moves : list string) :
  Forall valid_direction moves ->
  forall st out, consistent st ->
  exists st' out',
    check_loop k rnd moves st out = Ok (st', out') /\ consistent st'.
Proof.
  induction 1 as [|m rest Hm _ IH]; intros st out Hc.
  - exists st, out. simpl. auto.
  - cbn [check_loop].
    destruct (k m && negb (mem_str m (pressed st))).
    + pose proof Hc as Hwf. apply wf_consistent in Hwf.
      apply valid_direction_of in Hm. destruct Hm as [d Hd].
      destruct (move_run m d st (fst (rnd m)) (snd (rnd m)) Hwf Hd)
        as (st1 & _ & _ & _ & _ & _ & [[-> Hmv]|(_ & _ & st2 & _ & Hmv & Hwf2)]);
        rewrite Hmv; cbn [bind]; apply IH; apply consistent_with_pressed.
      * assumption.
      * apply wf_consistent. assumption.
    + destruct (negb (k m) && mem_str m (pressed st)) eqn:E.
      * apply andb_true_iff in E. destruct E as [_ Em]. apply mem_str_In in Em.
        destruct (list_remove_spec m (pressed st) Em) as (p & Hrm & _).
        rewrite Hrm. cbn [bind]. apply IH. apply consistent_with_pressed.
        assumption.
      * apply IH. assumption.
Qed.

(** X13.  On a consistent state [update] returns, whatever keys are down
    and whatever the random draws, and the state it leaves is consistent. *)
Theorem check_for_moves_consistent (k : string -> bool)
    (rnd : string -> nat * nat) (st : Twenty) :
  consistent st ->
  exists st' out,
    update k rnd st = Ok (st', out) /\ consistent st'.
Proof.
  intros Hc. unfold update, check_for_moves. apply check_loop_run; [|assumption].
  apply Forall_forall. intros d Hd. exact Hd.
Qed.

Lemma check_for_moves_left :
  exists st' out, check_for_moves left_down zero_draws stB = Ok (st', out).
Proof. eexists _, _. vm_compute. reflexivity. Qed.

Lemma check_for_moves_pressed_witness :
  exists st' out,
    check_for_moves left_down zero_draws stB = Ok (st', out) /\
    (forall d, valid_direction d -> left_down d = true -> In d (pressed st')) /\
    (forall d, ~ valid_direction d ->
       (In d (pressed st') <-> In d (pressed stB))) /\
    (NoDup (pressed stB) ->
     NoDup (pressed st') /\
     forall d, valid_direction d -> (In d (pressed st') <-> left_down d = true)).
Proof.
  destruct check_for_moves_left as (st' & out & H).
  exists st', out. split; [exact H|].
  apply (check_for_moves_pressed left_down zero_draws stB st' out H).
Defined.

Lemma held_keys_move_once_witness :
  exists st1 out1,
    check_for_moves left_down zero_draws stB = Ok (st1, out1) /\
    exists st2,
      check_for_moves left_down zero_draws st1 = Ok (st2, []) /\
      blocks st2 = blocks st1 /\ playGrid st2 = playGrid st1.
Proof.
  destruct check_for_moves_left as (st1 & out1 & H).
  exists st1, out1. split; [exact H|].
  apply (held_keys_move_once left_down zero_draws zero_draws stB st1 out1 H).
Defined.

Lemma check_for_moves_consistent_witness :
  consistent stB /\
  exists st' out,
    update left_down zero_draws stB = Ok (st', out) /\ consistent st'.
Proof.
  split; [exact stB_consistent|].
  apply (check_for_moves_consistent left_down zero_draws stB stB_consistent).
Defined.

(** ** When the game is stuck *)

Lemma move_same_sweep_same (s : string) (d : direction) (st : Twenty)
    (dv dl : nat) :
  wf st -> direction_of s = Some d -> move s st dv dl = Ok st ->
  sweeps s st = Ok st.
Proof.
  intros Hwf Hd Hm.
  destruct (move_run s d st dv dl Hwf Hd)
    as (st1 & Hsw & _ & Hwf1 & _ & Hsum &
        [[-> _]|(_ & _ & st2 & Hsp & Hmv & _)]); [assumption|].
  exfalso. rewrite Hmv in Hm. inversion Hm; subst st2.
  destruct (spawn_block_inv _ _ _ _ (wf_shape _ Hwf1) Hsp)
    as (v & r & c & Hv & _ & _ & Hz & Hset & _).
  destruct (grid_set_spec _ _ _ _ _ Hset) as (_ & _ & Hsum').
  rewrite Hz, Hsum in Hsum'. simpl in Hv. lia.
Qed.

Lemma path_up (g : Grid) (k : nat) :
  forall r c, r < 4 -> c < 4 -> k <= r ->
    cell g r c <> 0%Z -> cell g (r - k) c = 0%Z -> movable Up g.
Proof.
  induction k as [|k IH]; intros r c Hr Hc Hk Hv Hz.
  - rewrite Nat.sub_0_r in Hz. contradiction.
  - assert (Ha : ahead Up r c = Some (r - 1, c)).
    { simpl. destruct (Nat.ltb_spec 0 r); [reflexivity | lia]. }
    destruct (Z.eq_dec (cell g (r - 1) c) 0) as [Hn|Hn].
    + exists r, c, (r - 1), c. auto 10.
    + apply (IH (r - 1) c); try lia; try assumption.
      replace (r - 1 - k) with (r - S k) by lia. assumption.
Qed.

Lemma path_down (g : Grid) (k : nat) :
  forall r c, r + k < 4 -> c < 4 ->
    cell g r c <> 0%Z -> cell g (r + k) c = 0%Z -> movable Down g.
Proof.
  induction k as [|k IH]; intros r c Hr Hc Hv Hz.
  - rewrite Nat.add_0_r in Hz. contradiction.
  - assert (Ha : ahead Down r c = Some (r + 1, c)).
    { simpl. destruct (Nat.ltb_spec r 3); [reflexivity | lia]. }
    destruct (Z.eq_dec (cell g (r + 1) c) 0) as [Hn|Hn].
    + exists r, c, (r + 1), c. repeat (split; [lia || assumption|]). auto.
    + apply (IH (r + 1) c); try lia; try assumption.
      replace (r + 1 + k) with (r + S k) by lia. assumption.
Qed.

Lemma path_left (g : Grid) (k : nat) :
  forall r c, r < 4 -> c < 4 -> k <= c ->
    cell g r c <> 0%Z -> cell g r (c - k) = 0%Z -> movable Left g.
Proof.
  induction k as [|k IH]; intros r c Hr Hc Hk Hv Hz.
  - rewrite Nat.sub_0_r in Hz. contradiction.
  - assert (Ha : ahead Left r c = Some (r, c - 1)).
    { simpl. destruct (Nat.ltb_spec 0 c); [reflexivity | lia]. }
    destruct (Z.eq_dec (cell g r (c - 1)) 0) as [Hn|Hn].
    + exists r, c, r, (c - 1). auto 10.
    + apply (IH r (c - 1)); try lia; try assumption.
      replace (c - 1 - k) with (c - S k) by lia. assumption.
Qed.

Lemma path_right (g : Grid) (k : nat) :
  forall r c, r < 4 -> c + k < 4 ->
    cell g r c <> 0%Z -> cell g r (c + k) = 0%Z -> movable Right g.
Proof.
  induction k as [|k IH]; intros r c Hr Hc Hv Hz.
  - rewrite Nat.add_0_r in Hz. contradiction.
  - assert (Ha : ahead Right r c = Some (r, c + 1)).
    { simpl. destruct (Nat.ltb_spec c 3); [reflexivity | lia]. }
    destruct (Z.eq_dec (cell g r (c + 1)) 0) as [Hn|Hn].
    + exists r, c, r, (c + 1). repeat (split; [lia || assumption|]). auto.
    + apply (IH r (c + 1)); try lia; try assumption.
      replace (c + 1 + k) with (c + S k) by lia. assumption.
Qed.

(** A tile and an empty cell on the same grid: some tile can slide. *)
Lemma tile_and_gap_movable (g : Grid) (r c r' c' : nat) :
  r < 4 -> c < 4 -> r' < 4 -> c' < 4 ->
  cell g r c <> 0%Z -> cell g r' c' = 0%Z ->
  exists d, movable d g.
Proof.
  intros Hr Hc Hr' Hc' Hv Hz.
  destruct (Z.eq_dec (cell g r c') 0) as [Hm|Hm].
  - destruct (Nat.le_gt_cases c' c) as [Hle|Hgt].
    + exists Left. apply (path_left g (c - c') r c); try lia; try assumption.
      replace (c - (c - c')) with c' by lia. assumption.
    + exists Right. apply (path_right g (c' - c) r c); try lia; try assumption.
      replace (c + (c' - c)) with c' by lia. assumption.
  - destruct (Nat.le_gt_cases r' r) as [Hle|Hgt].
    + exists Up. apply (path_up g (r - r') r c'); try lia; try assumption.
      replace (r - (r - r')) with r' by lia. assumption.
    + exists Down. apply (path_down g (r' - r) r c'); try lia; try assumption.
      replace (r + (r' - r)) with r' by lia. assumption.
Qed.

Lemma direction_name (d : direction) :
  exists s, valid_direction s /\ direction_of s = Some d.
Proof.
  destruct d;
    [exists "up"%string | exists "down"%string
     | exists "right"%string | exists "left"%string];
    (split; [unfold valid_direction; simpl; tauto | reflexivity]).
Qed.

(** X14.  In a consistent state with at least one tile, no move in any of
    the four directions changes anything exactly when the board is stuck:
    the grid has no empty cell and no two neighbouring cells hold the same
    value. *)
Theorem stuck_iff_no_move (st : Twenty) (dv dl : nat) :
  consistent st -> blocks st <> [] ->
  ((forall s, valid_direction s -> move s st dv dl = Ok st) <->
   stuck (playGrid st)).
Proof.
  intros Hc Hsome. apply wf_consistent in Hc. split.
  - intros Hnoop.
    assert (Hno : forall d, ~ movable d (playGrid st)).
    { intros d Hm. destruct (direction_name d) as (s & Hs & Hd).
      pose proof (move_same_sweep_same s d st dv dl Hc Hd (Hnoop s Hs)) as Hsw.
      destruct (sweep_movable s d st Hc Hd) as (st1 & Hsw1 & Hiff & _).
      rewrite Hsw in Hsw1. inversion Hsw1; subst st1.
      apply (proj2 Hiff Hm). reflexivity. }
    assert (Hfull : ~ has_empty (playGrid st)).
    { intros (r' & c' & Hr' & Hc' & Hz).
      destruct (blocks st) as [|b bs] eqn:Eb; [contradiction|].
      destruct (wf_block _ Hc b) as (Hbr & Hbc & Hbv & Hcell);
        [rewrite Eb; left; reflexivity|].
      destruct (tile_and_gap_movable (playGrid st) _ _ r' c' Hbr Hbc Hr' Hc')
        as [d Hd]; [congruence | assumption |].
      exact (Hno d Hd). }
    split; [assumption|].
    intros d r c r' c' Hr Hcc Ha Heq. apply (Hno d).
    exists r, c, r', c'. repeat (split; [assumption|]).
    split; [|split; [assumption | right; assumption]].
    intros Hz. apply Hfull. exists r, c. auto.
  - intros [Hfull Hneq] s Hs.
    apply valid_direction_of in Hs. destruct Hs as [d Hd].
    assert (Hno : ~ movable d (playGrid st)).
    { intros (r & c & r' & c' & Hr & Hcc & Hv & Ha & [Hz|Heq]).
      - destruct (ahead_spec _ _ _ _ _ Ha Hr Hcc) as (Hr' & Hc' & _).
        apply Hfull. exists r', c'. auto.
      - exact (Hneq d r c r' c' Hr Hcc Ha Heq). }
    destruct (sweep_movable s d st Hc Hd) as (st1 & Hsw & _ & Hidle).
    rewrite (Hidle Hno) in Hsw.
    apply (move_unfold s st st dv dl Hsw). reflexivity.
Qed.

Lemma stuck_iff_no_move_witness :
  consistent stC /\ blocks stC <> [] /\
  ((forall s, valid_direction s -> move s stC 0 0 = Ok stC) <->
   stuck (playGrid stC)).
Proof.
  assert (Hc : consistent stC) by (apply wf_check_sound; reflexivity).
  assert (Hb : blocks stC <> []) by (simpl; discriminate).
  split; [exact Hc|]. split; [exact Hb|].
  apply (stuck_iff_no_move stC 0 0 Hc Hb).
Defined.
